(** * Lattice option pricing: binomial and trinomial tree models

    A shallow embedding of [binomialmodell.py] and [trinomialmodell.py],
    and of the pure helpers of the main window in [FinanceAppUI.py].

    Numbers.  Python floats and numpy float64 values are idealised as real
    numbers: rounding and overflow are not modelled.  What is modelled of the
    float behaviour is what depends only on an operand being zero or
    negative: Python's [/] raises ZeroDivisionError on a zero divisor,
    [math.sqrt] raises ValueError on a negative argument, and numpy's [/]
    raises nothing and yields inf or nan.  Python ints are [Z]; array
    indices and loop counters, which the loops keep inside the array shapes,
    are [nat]. *)

From Stdlib Require Import String Ascii.
From Stdlib Require Import Reals Lra Lia ZArith Bool Arith List.
Import ListNotations.
Local Open Scope R_scope.

(** ** The Python and numpy operations the two models use *)

Module Py.

Inductive exn : Type := ValueError | TypeError | ZeroDivisionError.

Inductive result (A : Type) : Type :=
| Ok (a : A)
| Raise (e : exn).
Arguments Ok {A} a.
Arguments Raise {A} e.

Definition bind {A B : Type} (c : result A) (k : A -> result B) : result B :=
  match c with
  | Ok a => k a
  | Raise e => Raise e
  end.

(** [a / b] on Python floats. *)
Definition truediv (a b : R) : result R :=
  if Req_dec_T b 0 then Raise ZeroDivisionError else Ok (a / b).

(** [math.sqrt]. *)
Definition math_sqrt (x : R) : result R :=
  if Rlt_dec x 0 then Raise ValueError else Ok (sqrt x).

(** Arithmetic on an argument left at its default [None] raises TypeError. *)
Definition operand (o : option R) : result R :=
  match o with
  | Some x => Ok x
  | None => Raise TypeError
  end.

(** A numpy float64 cell: a finite value, an infinity or nan. *)
Inductive float64 : Type :=
| Fin (x : R)
| Inf
| NaN.

(** [a / b] on numpy float64 scalars: a warning at most, never an exception. *)
Definition np_truediv (a b : R) : float64 :=
  if Req_dec_T b 0 then (if Req_dec_T a 0 then NaN else Inf) else Fin (a / b).

(** [range(n)] and [range(n - 1, -1, -1)], [range(a, b)]. *)
Definition range (n : nat) : list nat := seq 0 n.
Definition range_down (n : nat) : list nat := rev (seq 0 n).
Definition range_from (a b : nat) : list nat := seq a (b - a).

(** [np.zeros(n)] and [np.zeros((rows, cols))]. *)
Definition zeros {A : Type} (z : A) (n : nat) : list A := repeat z n.
Definition zeros2 {A : Type} (z : A) (rows cols : nat) : list (list A) :=
  repeat (repeat z cols) rows.

(** [a[i] = v]; every index the models write is inside the array. *)
Fixpoint set1 {A : Type} (a : list A) (i : nat) (v : A) : list A :=
  match a, i with
  | [], _ => []
  | _ :: t, O => v :: t
  | h :: t, S i' => h :: set1 t i' v
  end.

(** [a[i, j]] and [a[i, j] = v]. *)
Definition get2 {A : Type} (z : A) (a : list (list A)) (i j : nat) : A :=
  nth j (nth i a []) z.
Definition set2 {A : Type} (a : list (list A)) (i j : nat) (v : A)
  : list (list A) :=
  set1 a i (set1 (nth i a []) j v).

(** [a[-1]] and [a[-1] = row]. *)
Definition last_row {A : Type} (a : list (list A)) : list A := last a [].
Definition set_last_row {A : Type} (a : list (list A)) (row : list A)
  : list (list A) :=
  set1 a (length a - 1) row.

(** Elementwise [x + y] of two numpy vectors of one length. *)
Definition np_add (x y : list R) : list R :=
  map (fun p => fst p + snd p) (combine x y).

(** [math.factorial(n)] as the float it becomes under [/]. *)
Definition factorial (n : nat) : R := INR (fact n).

(** [format(i, f'0{width}o')]: the octal digits of [i], zero-padded on the
    left to [width] characters. *)
Definition digit (k : nat) : ascii := ascii_of_nat (48 + k).

Fixpoint oct_digits (fuel n : nat) (acc : string) : string :=
  match fuel with
  | O => acc
  | S fuel' =>
      let acc' := String (digit (n mod 8)) acc in
      if (n / 8 =? 0)%nat then acc' else oct_digits fuel' (n / 8) acc'
  end.

Definition oct (n : nat) : string := oct_digits (S n) n EmptyString.

Fixpoint zfill (k : nat) (s : string) : string :=
  match k with
  | O => s
  | S k' => String "0" (zfill k' s)
  end.

Definition format_0o (width i : nat) : string :=
  let s := oct i in zfill (width - String.length s) s.

(** [s.count(c)] for a one-character [c]. *)
Fixpoint count (c : ascii) (s : string) : nat :=
  match s with
  | EmptyString => O
  | String a s' => ((if Ascii.eqb a c then 1 else 0) + count c s')%nat
  end.

(** A dict keyed by move-count triples, in insertion order. *)
Definition state : Type := (nat * nat * nat)%type.

Definition state_eqb (a b : state) : bool :=
  let '(a1, a2, a3) := a in
  let '(b1, b2, b3) := b in
  (Nat.eqb a1 b1 && Nat.eqb a2 b2 && Nat.eqb a3 b3)%bool.

Fixpoint dict_get {V : Type} (d : list (state * V)) (k : state) : option V :=
  match d with
  | [] => None
  | (k', v) :: t => if state_eqb k' k then Some v else dict_get t k
  end.

Fixpoint dict_set {V : Type} (d : list (state * V)) (k : state) (v : V)
  : list (state * V) :=
  match d with
  | [] => [(k, v)]
  | (k', v') :: t =>
      if state_eqb k' k then (k', v) :: t else (k', v') :: dict_set t k v
  end.

Definition keys {V : Type} (d : list (state * V)) : list state := map fst d.
Definition values {V : Type} (d : list (state * V)) : list V := map snd d.

End Py.

Import Py.

Notation "x <- c ;; k" := (Py.bind c (fun x => k))
  (at level 61, c at next level, right associativity).

(** ** binomialmodell.py *)

Module Binomial.

(** The attributes of an instance once [__init__] has returned.  [exponent]
    is taken as a natural number (its default is 2); [pu] and [pd], kept by
    the direct path, are read by [setup_parameters_without_sigma] only and
    are passed to it. *)
Record Binomialmodell : Type := mkBinomialmodell {
  S0 : R;
  K : R;
  K2 : R;
  r : R;
  T : R;
  N : Z;
  div : R;
  sigma : option R;
  is_put : bool;
  is_call : bool;
  exponent : nat;
  is_am : bool;
  payoff : R;
  dt : R;
  df : R;
  u : R;
  d : R;
  qu : R;
  qd : R
}.

(** The attributes the two [setup_parameters_*] methods assign. *)
Record Calibration : Type := mkCalibration {
  c_dt : R;
  c_df : R;
  c_u : R;
  c_d : R;
  c_qu : R;
  c_qd : R
}.

Definition setup_parameters_with_sigma (T r : R) (N : Z) (sigma div : R)
  : result Calibration :=
  dt <- truediv T (IZR N) ;;
  let df := exp (- (r - div) * dt) in
  sq <- math_sqrt dt ;;
  let u := exp (sigma * sq) in
  d <- truediv 1 u ;;
  qu <- truediv (exp ((r - div) * dt) - d) (u - d) ;;
  Ok (mkCalibration dt df u d qu (1 - qu)).

Definition setup_parameters_without_sigma (T r : R) (N : Z) (div : R)
  (pu pd : option R) : result Calibration :=
  dt <- truediv T (IZR N) ;;
  let df := exp (- (r - div) * dt) in
  pu' <- operand pu ;;
  let u := 1 + pu' in
  pd' <- operand pd ;;
  let d := 1 - pd' in
  qu <- truediv (exp ((r - div) * dt) - d) (u - d) ;;
  Ok (mkCalibration dt df u d qu (1 - qu)).

(** [Binomialmodell.__init__]. *)
Definition init (S0 K T r : R) (N : Z) (sigma : option R) (div : R)
  (is_put : bool) (K2 : option R) (exponent : nat) (pu pd : option R)
  (is_am : bool) (payoff : R) : result Binomialmodell :=
  let K2' := match K2 with Some k2 => k2 | None => K end in
  let N' := Z.max 1 N in
  c <- match sigma with
       | Some s => setup_parameters_with_sigma T r N' s div
       | None => setup_parameters_without_sigma T r N' div pu pd
       end ;;
  Ok (mkBinomialmodell S0 K K2' r T N' div sigma is_put (negb is_put)
        exponent is_am payoff
        (c_dt c) (c_df c) (c_u c) (c_d c) (c_qu c) (c_qd c)).

(** [combos].  The true division of the two Python ints raises
    OverflowError once the quotient leaves the float range (from n = 1030
    on); like every overflow, this is not modelled. *)
Definition combos (n i : nat) : R :=
  factorial n / (factorial (n - i) * factorial i).

(** The three lattices and the distribution [init_full_tree] leaves on the
    object. *)
Record Trees : Type := mkTrees {
  stock_price_tree : list (list R);
  option_price_tree : list (list R);
  delta_tree : list (list float64);
  end_state_probabilities : list R
}.

Section Methods.

Variable self : Binomialmodell.

Definition steps : nat := Z.to_nat (N self).

Definition check_early_exercise (stock : list (list R)) (held : R)
  (node level : nat) : R :=
  let stock_price_at_node := get2 0 stock level node in
  if is_call self
  then Rmax held (stock_price_at_node - K self)
  else Rmax held (K self - stock_price_at_node).

Definition calculate_payoffs (stock : list (list R)) (option_type : string)
  : result (list R) :=
  let final := last_row stock in
  if (String.eqb option_type "european" || String.eqb option_type "american")%bool
  then
    if is_call self
    then Ok (map (fun s => Rmax 0 (s - K self)) final)
    else Ok (map (fun s => Rmax 0 (K self - s)) final)
  else if String.eqb option_type "digital"
  then
    if is_put self
    then Ok (map (fun s => if Rle_dec s (K self) then payoff self else 0) final)
    else Ok (map (fun s => if Rgt_dec s (K self) then payoff self else 0) final)
  else if String.eqb option_type "power"
  then
    if is_put self
    then Ok (map (fun s => if Rlt_dec s (K self)
                           then (K self - s) ^ exponent self else 0) final)
    else Ok (map (fun s => if Rgt_dec s (K self)
                           then (s - K self) ^ exponent self else 0) final)
  else if String.eqb option_type "strangle"
  then
    let call_payoffs :=
      map (fun s => if Rgt_dec s (K self) then s - K self else 0) final in
    let put_payoffs :=
      map (fun s => if Rlt_dec s (K2 self) then K2 self - s else 0) final in
    Ok (np_add call_payoffs put_payoffs)
  else Raise ValueError.

(** The first pair of loops of [init_full_tree]. *)
Definition build_stock_price_tree : list (list R) :=
  fold_left
    (fun tree i =>
       fold_left
         (fun tree j =>
            set2 tree i j (S0 self * u self ^ (i - j) * d self ^ j))
         (range (i + 1)) tree)
    (range (steps + 1))
    (zeros2 0 (steps + 1) (steps + 1)).

(** One pass of the body of the backward loops, at node (i, j). *)
Definition backward_node (stock : list (list R))
  (st : list (list R) * list (list float64)) (i j : nat)
  : list (list R) * list (list float64) :=
  let '(opt, delta) := st in
  let continuation :=
    (qu self * get2 0 opt (i + 1) j + qd self * get2 0 opt (i + 1) (j + 1))
    * df self in
  let opt' :=
    if is_am self
    then
      let in_the_money_payoff :=
        if is_call self
        then check_early_exercise stock (get2 0 opt (i + 1) j) j (i + 1)
        else check_early_exercise stock (get2 0 opt (i + 1) (j + 1))
               (j + 1) (i + 1) in
      set2 opt i j (Rmax continuation in_the_money_payoff)
    else set2 opt i j continuation in
  let delta' :=
    if negb (Nat.eqb i steps)
    then set2 delta i j
           (np_truediv
              (get2 0 opt' (i + 1) j - get2 0 opt' (i + 1) (j + 1))
              (get2 0 stock (i + 1) j - get2 0 stock (i + 1) (j + 1)))
    else delta in
  (opt', delta').

Definition backward_induction (stock : list (list R))
  (st : list (list R) * list (list float64))
  : list (list R) * list (list float64) :=
  fold_left
    (fun st i => fold_left (fun st j => backward_node stock st i j)
                   (range (i + 1)) st)
    (range_down steps) st.

Definition build_end_state_probabilities : list R :=
  fold_left
    (fun p k => set1 p k (combos steps k * qu self ^ k * qd self ^ (steps - k)))
    (range (steps + 1))
    (zeros 0 (steps + 1)).

Definition init_full_tree (option_type : string) : result Trees :=
  let stock := build_stock_price_tree in
  payoffs <- calculate_payoffs stock option_type ;;
  let opt0 := zeros2 0 (steps + 1) (steps + 1) in
  let delta0 := zeros2 (Fin 0) steps steps in
  let opt1 := set_last_row opt0 payoffs in
  let '(opt, delta) := backward_induction stock (opt1, delta0) in
  Ok (mkTrees stock opt delta build_end_state_probabilities).

Definition price_option (option_type : string) : result (Trees * R) :=
  t <- init_full_tree option_type ;;
  Ok (t, get2 0 (option_price_tree t) 0 0).

End Methods.

End Binomial.

(** ** trinomialmodell.py *)

Module Trinomial.

(** The attributes of an instance once [__init__] has returned; [sigma]
    exists on the volatility path only. *)
Record Trinomialmodell : Type := mkTrinomialmodell {
  S0 : R;
  K : R;
  K2 : R;
  r : R;
  T : R;
  N : Z;
  div : R;
  is_put : bool;
  is_call : bool;
  is_am : bool;
  dt : R;
  df : R;
  exponent : nat;
  sigma : option R;
  u : R;
  d : R;
  m : R;
  pu : R;
  pd : R;
  pm : R
}.

Record Calibration : Type := mkCalibration {
  c_u : R;
  c_d : R;
  c_m : R;
  c_pu : R;
  c_pd : R;
  c_pm : R
}.

(** [setup_parameters].  Its calls of [math.sqrt(self.dt / 2.)] all have the
    same argument, so one binding stands for them. *)
Definition setup_parameters (r div dt sigma : R) : result Calibration :=
  sq2 <- math_sqrt (2 * dt) ;;
  let u := exp (sigma * sq2) in
  d <- truediv 1 u ;;
  let m := 1 in
  sqh <- math_sqrt (dt / 2) ;;
  qu <- truediv (exp ((r - div) * dt / 2) - exp (- sigma * sqh))
                (exp (sigma * sqh) - exp (- sigma * sqh)) ;;
  let pu := qu ^ 2 in
  qd <- truediv (exp (sigma * sqh) - exp ((r - div) * dt / 2))
                (exp (sigma * sqh) - exp (- sigma * sqh)) ;;
  let pd := qd ^ 2 in
  Ok (mkCalibration u d m pu pd (1 - pu - pd)).

(** [Trinomialmodell.__init__]. *)
Definition init (S0 K T r : R) (N : Z) (sigma : option R) (div : R)
  (is_put : bool) (K2 : option R) (pu pd pm u d m : option R)
  (is_am : bool) (exponent : nat) : result Trinomialmodell :=
  let K2' := match K2 with Some k2 => k2 | None => K end in
  dt <- truediv T (IZR N) ;;
  let df := exp (- r * dt) in
  c <- match sigma with
       | Some s => setup_parameters r div dt s
       | None =>
           match u, d, m, pu, pd, pm with
           | Some u', Some d', Some m', Some pu', Some pd', Some pm' =>
               Ok (mkCalibration u' d' m' pu' pd' pm')
           | _, _, _, _, _, _ => Raise ValueError
           end
       end ;;
  Ok (mkTrinomialmodell S0 K K2' r T N div is_put (negb is_put) is_am dt df
        exponent sigma (c_u c) (c_d c) (c_m c) (c_pu c) (c_pd c) (c_pm c)).

Record Trees : Type := mkTrees {
  stock_price_tree : list (list R);
  option_price_tree : list (list R);
  delta_tree : list (list float64)
}.

Section Methods.

Variable self : Trinomialmodell.

Definition steps : nat := Z.to_nat (N self).

(** The first loop of [calculate_end_state_probabilities]: the tally of
    paths per end state. *)
Definition end_state_of_path (path : string) : state :=
  (count "0" path, count "1" path, count "2" path).

Definition tally_paths (n : nat) : list (state * nat) :=
  fold_left
    (fun end_state_paths i =>
       let end_state := end_state_of_path (format_0o n i) in
       match dict_get end_state_paths end_state with
       | None => dict_set end_state_paths end_state 1%nat
       | Some c => dict_set end_state_paths end_state (c + 1)%nat
       end)
    (range (3 ^ n)) [].

Definition state_probability (n : nat) (end_state : state) : R :=
  let '(up_moves, mid_moves, down_moves) := end_state in
  (pu self ^ up_moves * pm self ^ mid_moves * pd self ^ down_moves)
  * (factorial n
     / (factorial up_moves * factorial mid_moves * factorial down_moves)).

(** [3**N] is a float for a negative [N], which [range] refuses. *)
Definition calculate_end_state_probabilities : result (list (state * R)) :=
  if (N self <? 0)%Z then Raise TypeError
  else
    Ok (fold_left
          (fun probabilities item =>
             dict_set probabilities (fst item)
               (state_probability steps (fst item)))
          (tally_paths steps) []).

Definition calculate_payoffs (stock : list (list R)) (option_type : string)
  : result (list R) :=
  let final_prices := last_row stock in
  if (String.eqb option_type "european" || String.eqb option_type "american")%bool
  then
    if is_put self
    then Ok (map (fun s => Rmax (K self - s) 0) final_prices)
    else Ok (map (fun s => Rmax (s - K self) 0) final_prices)
  else if String.eqb option_type "power"
  then
    if is_put self
    then Ok (map (fun s => if Rlt_dec s (K self)
                           then (K self - s) ^ exponent self else 0)
               final_prices)
    else Ok (map (fun s => if Rgt_dec s (K self)
                           then (s - K self) ^ exponent self else 0)
               final_prices)
  else if String.eqb option_type "digital"
  then
    if is_put self
    then Ok (map (fun s => if Rlt_dec s (K self) then 1 else 0) final_prices)
    else Ok (map (fun s => if Rgt_dec s (K self) then 1 else 0) final_prices)
  else if String.eqb option_type "strangle"
  then
    let call_payoffs :=
      map (fun s => if Rgt_dec s (K self) then s - K self else 0)
        final_prices in
    let put_payoffs :=
      map (fun s => if Rlt_dec s (K2 self) then K2 self - s else 0)
        final_prices in
    Ok (np_add call_payoffs put_payoffs)
  else Raise ValueError.

(** The loops that fill [stock_price_tree]. *)
Definition build_stock_price_tree : list (list R) :=
  fold_left
    (fun tree i =>
       fold_left
         (fun tree j =>
            set2 tree i j
              (if (steps <? j)%nat then get2 0 tree (i - 1) (j - 1) * u self
               else if (j <? steps)%nat
                    then get2 0 tree (i - 1) (j + 1) * d self
                    else get2 0 tree (i - 1) j))
         (range_from (steps - i) (steps + i + 1)) tree)
    (range_from 1 (steps + 1))
    (set2 (zeros2 0 (steps + 1) (2 * steps + 1)) 0 steps (S0 self)).

(** The body of the backward loops at node (i, j). *)
Definition backward_node (stock : list (list R))
  (st : list (list R) * list (list float64)) (i j : nat)
  : list (list R) * list (list float64) :=
  let '(opt, delta) := st in
  let up := get2 0 opt (i + 1) (j + 1) in
  let mid := get2 0 opt (i + 1) j in
  let down := get2 0 opt (i + 1) (j - 1) in
  let opt' :=
    set2 opt i j ((pu self * up + pm self * mid + pd self * down) * df self) in
  let stock_up := get2 0 stock (i + 1) (j + 1) in
  let stock_down := get2 0 stock (i + 1) (j - 1) in
  let delta' :=
    set2 delta i j
      (if Req_dec_T stock_up stock_down then Fin 0
       else np_truediv (up - down) (stock_up - stock_down)) in
  (opt', delta').

Definition backward_induction (stock : list (list R))
  (st : list (list R) * list (list float64))
  : list (list R) * list (list float64) :=
  fold_left
    (fun st i => fold_left (fun st j => backward_node stock st i j)
                   (range_from (steps - i) (steps + i + 1)) st)
    (range_down steps) st.

(** [np.zeros] refuses the negative dimensions a negative [N] asks for. *)
Definition init_full_tree (option_type : string) : result Trees :=
  if (N self <? 0)%Z then Raise ValueError
  else
    let stock := build_stock_price_tree in
    let opt0 := zeros2 0 (steps + 1) (2 * steps + 1) in
    let delta0 := zeros2 (Fin 0) (steps + 1) (2 * steps + 1) in
    payoffs <- calculate_payoffs stock option_type ;;
    let opt1 := set_last_row opt0 payoffs in
    let '(opt, delta) := backward_induction stock (opt1, delta0) in
    Ok (mkTrees stock opt delta).

Definition price_option (option_type : string) : result (Trees * R) :=
  t <- init_full_tree option_type ;;
  Ok (t, get2 0 (option_price_tree t) 0 steps).

End Methods.

End Trinomial.

(** ** FinanceAppUI.py: the pure helpers of the main window *)

Module FinanceAppUI.

(** The radio buttons of the option families, as [isChecked()] reports
    them. *)
Record RadioButtons : Type := mkRadioButtons {
  rb_eucall : bool;
  rb_euput : bool;
  rb_powcall : bool;
  rb_powput : bool;
  rb_digcall : bool;
  rb_digput : bool;
  rb_strangle : bool
}.

(** [determine_option_type]. *)
Definition determine_option_type (ui : RadioButtons) : result string :=
  if (rb_eucall ui || rb_euput ui)%bool then Ok "european"%string
  else if (rb_powcall ui || rb_powput ui)%bool then Ok "power"%string
  else if (rb_digcall ui || rb_digput ui)%bool then Ok "digital"%string
  else if rb_strangle ui then Ok "strangle"%string
  else Raise ValueError.

(** [is_valid_probability(pu, pd, pm=0)]; the tolerance 0.00001 is taken as
    the decimal it spells. *)
Definition is_valid_probability (pu pd pm : R) : bool :=
  if Rlt_dec pu 0 then false
  else if Rlt_dec pd 0 then false
  else if Rlt_dec pm 0 then false
  else
    let total_probability := pu + pd + pm in
    if Req_dec_T pm 0
    then if Rle_dec total_probability 1 then true else false
    else if Rlt_dec (Rabs (total_probability - 1)) (1 / 100000)
         then true else false.

End FinanceAppUI.

(** ** Vocabulary of the statements *)

(** A numpy array of [rows] rows of [cols] cells each. *)
Definition shaped {A : Type} (rows cols : nat) (a : list (list A)) : Prop :=
  length a = rows /\ forall k, (k < rows)%nat -> length (nth k a []) = cols.

(** A digital payoff [v]: the fixed [amount] in the money, 0 out of it. *)
Definition pays (in_the_money : Prop) (amount v : R) : Prop :=
  (in_the_money -> v = amount) /\ (~ in_the_money -> v = 0).

(** The multinomial distribution over the end states of [n] trinomial steps,
    as the specification words it: every triple (up, mid, down) of move
    counts with up + mid + down = n, enumerated through its (up, mid) pair,
    with probability n!/(up! mid! down!) pu^up pm^mid pd^down. *)
Definition multinomial_distribution (n : nat) (pu pm pd : R)
  : list (state * R) :=
  flat_map
    (fun up =>
       map (fun mid =>
              let down := (n - up - mid)%nat in
              ((up, mid, down),
               factorial n / (factorial up * factorial mid * factorial down)
               * pu ^ up * pm ^ mid * pd ^ down))
         (range (n - up + 1)))
    (range (n + 1)).

(** Two states of the binomial backward loops over lattices of [n] steps,
    the option values of the first nowhere above those of the second. *)
Definition dominated (n : nat)
  (lower upper : list (list R) * list (list float64)) : Prop :=
  shaped (n + 1) (n + 1) (fst lower)
  /\ shaped (n + 1) (n + 1) (fst upper)
  /\ forall i j, get2 0 (fst lower) i j <= get2 0 (fst upper) i j.

(** The sum of a probability vector. *)
Definition total (p : list R) : R := fold_right Rplus 0 p.

(** ** Loop nests and node rules

    The shape the loops of [init_full_tree] share, and the value each of
    them writes at a node, named so that the lattices can be described
    node by node. *)

(** [ordered dep rows]: a row that row [i] reads ([dep i k]: row [i]
    reads row [k]) is neither row [i] itself nor a row the loop has still
    to write. *)
Fixpoint ordered (dep : nat -> nat -> Prop) (rows : list nat) : Prop :=
  match rows with
  | [] => True
  | i :: l =>
      (forall k, dep i k -> k <> i /\ ~ In k l) /\ ~ In i l /\ ordered dep l
  end.

(** A loop nest over a lattice: for each row [i] of [rows], in order, and
    each column [j] of [cols i], cell (i, j) receives [F a i j], computed
    from the lattice as it stands. *)
Definition sweep {A : Type} (cols : nat -> list nat)
  (F : list (list A) -> nat -> nat -> A) (rows : list nat)
  (a : list (list A)) : list (list A) :=
  fold_left
    (fun a i => fold_left (fun a j => set2 a i j (F a i j)) (cols i) a)
    rows a.

(** The value the binomial backward loop writes at node (i, j), read off
    [init_full_tree]. *)
Definition binomial_node_value (self : Binomial.Binomialmodell)
  (stock opt : list (list R)) (i j : nat) : R :=
  let continuation :=
    (Binomial.qu self * get2 0 opt (i + 1) j
     + Binomial.qd self * get2 0 opt (i + 1) (j + 1)) * Binomial.df self in
  if Binomial.is_am self
  then Rmax continuation
         (if Binomial.is_call self
          then Binomial.check_early_exercise self stock
                 (get2 0 opt (i + 1) j) j (i + 1)
          else Binomial.check_early_exercise self stock
                 (get2 0 opt (i + 1) (j + 1)) (j + 1) (i + 1))
  else continuation.

(** The expectation of [f] over [m] binomial steps, [k] counting the down
    moves. *)
Definition binomial_expectation (qu qd : R) (m : nat) (f : nat -> R) : R :=
  sum_f_R0 (fun k => C m k * qu ^ (m - k) * qd ^ k * f k) m.

(** The option families [calculate_payoffs] knows. *)
Definition known_option_type (option_type : string) : bool :=
  (String.eqb option_type "european" || String.eqb option_type "american"
   || String.eqb option_type "digital" || String.eqb option_type "power"
   || String.eqb option_type "strangle")%bool.

(** A sweep that writes two lattices at once, the second from what the
    first holds: the loop nest of the backward induction, which fills the
    option lattice and the delta lattice together. *)
Definition pair_step {A B : Type} (F : list (list A) -> nat -> nat -> A)
  (G : list (list A) -> nat -> nat -> B)
  (st : list (list A) * list (list B)) (i j : nat)
  : list (list A) * list (list B) :=
  (set2 (fst st) i j (F (fst st) i j), set2 (snd st) i j (G (fst st) i j)).

Definition pair_sweep {A B : Type} (F : list (list A) -> nat -> nat -> A)
  (G : list (list A) -> nat -> nat -> B) (cols : nat -> list nat)
  (rows : list nat) (st : list (list A) * list (list B))
  : list (list A) * list (list B) :=
  fold_left
    (fun st i => fold_left (fun st j => pair_step F G st i j) (cols i) st)
    rows st.

(** The hedge ratio the binomial loop writes at node (i, j). *)
Definition binomial_node_delta (stock opt : list (list R)) (i j : nat)
  : float64 :=
  np_truediv (get2 0 opt (i + 1) j - get2 0 opt (i + 1) (j + 1))
    (get2 0 stock (i + 1) j - get2 0 stock (i + 1) (j + 1)).

(** What the trinomial loop writes into the price lattice at (i, j). *)
Definition trinomial_stock_value (self : Trinomial.Trinomialmodell)
  (tree : list (list R)) (i j : nat) : R :=
  if (Trinomial.steps self <? j)%nat
  then get2 0 tree (i - 1) (j - 1) * Trinomial.u self
  else if (j <? Trinomial.steps self)%nat
       then get2 0 tree (i - 1) (j + 1) * Trinomial.d self
       else get2 0 tree (i - 1) j.

(** The price of the trinomial lattice at step [i], column [j]: S0 times a
    power of u right of the centre column N, of d left of it, inside the
    band N - i .. N + i; zero outside. *)
Definition trinomial_price (self : Trinomial.Trinomialmodell) (i j : nat) : R :=
  let n := Trinomial.steps self in
  if ((n - i <=? j) && (j <=? n + i))%nat
  then if (n <? j)%nat then Trinomial.S0 self * Trinomial.u self ^ (j - n)
       else if (j <? n)%nat then Trinomial.S0 self * Trinomial.d self ^ (n - j)
            else Trinomial.S0 self
  else 0.

(** The option value and the hedge ratio the trinomial backward loop writes
    at node (i, j). *)
Definition trinomial_node_value (self : Trinomial.Trinomialmodell)
  (opt : list (list R)) (i j : nat) : R :=
  (Trinomial.pu self * get2 0 opt (i + 1) (j + 1)
   + Trinomial.pm self * get2 0 opt (i + 1) j
   + Trinomial.pd self * get2 0 opt (i + 1) (j - 1)) * Trinomial.df self.

Definition trinomial_node_delta (stock opt : list (list R)) (i j : nat)
  : float64 :=
  if Req_dec_T (get2 0 stock (i + 1) (j + 1)) (get2 0 stock (i + 1) (j - 1))
  then Fin 0
  else np_truediv
         (get2 0 opt (i + 1) (j + 1) - get2 0 opt (i + 1) (j - 1))
         (get2 0 stock (i + 1) (j + 1) - get2 0 stock (i + 1) (j - 1)).

(** * Properties *)

(** ** Python operations *)

Section PyFacts.

Lemma truediv_ok (a b : R) : b <> 0 -> truediv a b = Ok (a / b).
Proof.
  intros Hb. unfold truediv.
  destruct (Req_dec_T b 0); [contradiction | reflexivity].
Qed.

Lemma truediv_zero (a b : R) : b = 0 -> truediv a b = Raise ZeroDivisionError.
Proof.
  intros Hb. unfold truediv.
  destruct (Req_dec_T b 0); [reflexivity | contradiction].
Qed.

Lemma truediv_inv (a b q : R) : truediv a b = Ok q -> b <> 0 /\ q = a / b.
Proof.
  unfold truediv. destruct (Req_dec_T b 0); intros H; inversion H.
  split; [assumption | reflexivity].
Qed.

Lemma math_sqrt_neg (x : R) : x < 0 -> math_sqrt x = Raise ValueError.
Proof.
  intros Hx. unfold math_sqrt. destruct (Rlt_dec x 0); [reflexivity | lra].
Qed.

Lemma math_sqrt_ok (x : R) : 0 <= x -> math_sqrt x = Ok (sqrt x).
Proof.
  intros Hx. unfold math_sqrt. destruct (Rlt_dec x 0); [lra | reflexivity].
Qed.

Lemma bind_inv {A B : Type} (c : result A) (k : A -> result B) (b : B) :
  bind c k = Ok b -> exists a, c = Ok a /\ k a = Ok b.
Proof.
  destruct c as [a | e]; simpl; intros H; [eauto | discriminate].
Qed.

Lemma floored_steps_nonzero (n : Z) : IZR (Z.max 1 n) <> 0.
Proof. apply not_0_IZR. lia. Qed.

End PyFacts.

(** Evaluation of the loops on a concrete model, leaving real arithmetic
    and comparisons of reals to [lra]. *)
Ltac lattice_eval :=
  cbv -[Rplus Rmult Rminus Rdiv Rinv Ropp IZR Rlt_dec Rle_dec Rgt_dec Rge_dec
        Req_dec_T Rmax Rmin exp sqrt Rlt Rle Rgt Rge].

Ltac decide_reals :=
  repeat match goal with
         | |- context [Rlt_dec ?a ?b] => destruct (Rlt_dec a b)
         | |- context [Rle_dec ?a ?b] => destruct (Rle_dec a b)
         | |- context [Rgt_dec ?a ?b] => destruct (Rgt_dec a b)
         | |- context [Req_dec_T ?a ?b] =>
             let Hne := fresh "Hne" in
             destruct (Req_dec_T a b) as [? | Hne];
             [| try (exfalso; apply Hne; lra)]
         end;
  try lra; try (exfalso; lra); try reflexivity.

Ltac rmax_eval :=
  repeat match goal with
         | |- context [Rmax ?a ?b] =>
             first [ rewrite (Rmax_left a b) by lra
                   | rewrite (Rmax_right a b) by lra ]
         end.

Ltac inv_bind H :=
  let a := fresh "a" in
  let Ha := fresh "Ha" in
  apply bind_inv in H; destruct H as (a & Ha & H).

(** ** Construction *)

Lemma binomial_calibration_sum (c : Binomial.Calibration) T r N div sigma pu pd :
  match sigma with
  | Some s => Binomial.setup_parameters_with_sigma T r N s div
  | None => Binomial.setup_parameters_without_sigma T r N div pu pd
  end = Ok c ->
  Binomial.c_qu c + Binomial.c_qd c = 1.
Proof.
  destruct sigma as [s |]; intros H.
  - unfold Binomial.setup_parameters_with_sigma in H.
    do 4 inv_bind H. inversion H; subst; simpl. ring.
  - unfold Binomial.setup_parameters_without_sigma in H.
    do 4 inv_bind H. inversion H; subst; simpl. ring.
Qed.

Lemma trinomial_setup_sum (c : Trinomial.Calibration) r div dt s :
  Trinomial.setup_parameters r div dt s = Ok c ->
  Trinomial.c_pu c + Trinomial.c_pm c + Trinomial.c_pd c = 1.
Proof.
  unfold Trinomial.setup_parameters. intros H.
  do 5 inv_bind H. inversion H; subst; simpl. ring.
Qed.

(** C4.  With no volatility and an incomplete set of direct parameters the
    construction of either model fails and the exception reaches the caller:
    the binomial constructor raises TypeError at the first arithmetic on the
    missing probability, the trinomial constructor raises its ValueError
    (ZeroDivisionError from [T / N] when [N] is 0). *)
Theorem construction_without_calibration_fails :
  forall (S0 K T r : R) (N : Z) (div : R) (is_put : bool) (K2 : option R)
         (exponent : nat) (pu pd pm u d m : option R) (is_am : bool)
         (payoff : R),
    (pu = None \/ pd = None ->
     Binomial.init S0 K T r N None div is_put K2 exponent pu pd is_am payoff
     = Raise TypeError)
    /\
    (u = None \/ d = None \/ m = None \/ pu = None \/ pd = None \/ pm = None ->
     Trinomial.init S0 K T r N None div is_put K2 pu pd pm u d m is_am exponent
     = Raise (if (N =? 0)%Z then ZeroDivisionError else ValueError)).
Proof.
  intros. split; intros Hmissing.
  - unfold Binomial.init, Binomial.setup_parameters_without_sigma.
    rewrite truediv_ok by apply floored_steps_nonzero. simpl.
    destruct Hmissing as [-> | ->]; [reflexivity |].
    destruct pu; reflexivity.
  - unfold Trinomial.init.
    destruct (Z.eqb_spec N 0) as [-> | Hn].
    + rewrite truediv_zero by reflexivity. reflexivity.
    + rewrite truediv_ok by (apply not_0_IZR; assumption). simpl.
      destruct u, d, m, pu, pd, pm; try reflexivity;
        exfalso; repeat (destruct Hmissing as [Hmissing | Hmissing]; try discriminate).
Qed.

Lemma construction_without_calibration_fails_witness :
  Binomial.init 100 100 1 0 2 None 0 false None 2 None (Some (1 / 2)) false 1
  = Raise TypeError
  /\ Trinomial.init 100 100 1 0 2 None 0 false None
       None (Some (1 / 2)) (Some (1 / 4)) (Some 2) (Some (1 / 2)) (Some 1)
       false 2
     = Raise ValueError.
Proof.
  destruct (construction_without_calibration_fails
              100 100 1 0 2 0 false None 2 None (Some (1 / 2)) (Some (1 / 4))
              (Some 2) (Some (1 / 2)) (Some 1) false 1) as [Hb Ht].
  split.
  - apply Hb. left. reflexivity.
  - apply Ht. do 3 right. left. reflexivity.
Defined.

Lemma binomial_init_sum S0 K T r N sigma div is_put K2 exponent pu pd is_am
  payoff (self : Binomial.Binomialmodell) :
  Binomial.init S0 K T r N sigma div is_put K2 exponent pu pd is_am payoff
  = Ok self ->
  Binomial.qu self + Binomial.qd self = 1.
Proof.
  unfold Binomial.init. intros H. inv_bind H.
  inversion H; subst; simpl.
  eapply binomial_calibration_sum; eassumption.
Qed.

(** C5 (as amended).  In exact real arithmetic: on the three calibration
    paths that compute the probabilities (binomial from the volatility,
    binomial from [pu] and [pd], trinomial from the volatility) the sibling
    probabilities sum to exactly 1, since [qd] is computed as 1 - qu and
    [pm] as 1 - pu - pd.  On the trinomial direct-parameter path the three
    probabilities are stored as supplied, so their sum is the sum of the
    arguments.  Nothing is said of the rounding of the float computation. *)
Theorem sibling_probabilities_sum :
  forall (S0 K T r : R) (N : Z) (sigma : option R) (div : R) (is_put : bool)
         (K2 : option R) (exponent : nat) (pu pd pm u d m : option R)
         (is_am : bool) (payoff : R),
    (forall self,
        Binomial.init S0 K T r N sigma div is_put K2 exponent pu pd is_am payoff
        = Ok self ->
        Binomial.qu self + Binomial.qd self = 1)
    /\
    (forall self,
        Trinomial.init S0 K T r N sigma div is_put K2 pu pd pm u d m is_am
          exponent = Ok self ->
        match sigma with
        | Some _ =>
            Trinomial.pu self + Trinomial.pm self + Trinomial.pd self = 1
        | None =>
            Some (Trinomial.pu self) = pu /\ Some (Trinomial.pm self) = pm
            /\ Some (Trinomial.pd self) = pd
        end).
Proof.
  intros. split; intros self H.
  - apply binomial_init_sum in H. exact H.
  - unfold Trinomial.init in H. do 2 inv_bind H.
    inversion H; subst; simpl. clear H.
    destruct sigma as [s |].
    + apply trinomial_setup_sum in Ha0. exact Ha0.
    + destruct u, d, m, pu, pd, pm; try discriminate.
      inversion Ha0; subst; simpl. auto.
Qed.

Lemma sibling_probabilities_sum_witness :
  (exists self,
      Binomial.init 100 100 1 0 1 None 0 false None 2
        (Some (1 / 2)) (Some (1 / 2)) false 1 = Ok self
      /\ Binomial.qu self + Binomial.qd self = 1)
  /\
  (exists self,
      Trinomial.init 100 100 1 0 1 None 0 false None
        (Some (1 / 2)) (Some (1 / 2)) (Some (1 / 2))
        (Some 2) (Some (1 / 2)) (Some 1) false 2 = Ok self
      /\ Some (Trinomial.pu self) = Some (1 / 2)
      /\ Some (Trinomial.pm self) = Some (1 / 2)
      /\ Some (Trinomial.pd self) = Some (1 / 2)).
Proof.
  pose proof (sibling_probabilities_sum 100 100 1 0 1 None 0 false None 2
                (Some (1 / 2)) (Some (1 / 2)) (Some (1 / 2))
                (Some 2) (Some (1 / 2)) (Some 1) false 1) as [Hb Ht].
  split.
  - assert (exists self,
               Binomial.init 100 100 1 0 1 None 0 false None 2
                 (Some (1 / 2)) (Some (1 / 2)) false 1 = Ok self)
      as [self Hself].
    { unfold Binomial.init, Binomial.setup_parameters_without_sigma.
      rewrite truediv_ok by apply floored_steps_nonzero. simpl.
      rewrite truediv_ok by lra. simpl. eexists. reflexivity. }
    exists self. split; [exact Hself | exact (Hb self Hself)].
  - assert (exists self,
               Trinomial.init 100 100 1 0 1 None 0 false None
                 (Some (1 / 2)) (Some (1 / 2)) (Some (1 / 2))
                 (Some 2) (Some (1 / 2)) (Some 1) false 2 = Ok self)
      as [self Hself].
    { unfold Trinomial.init. rewrite truediv_ok by lra. simpl.
      eexists. reflexivity. }
    exists self. split; [exact Hself | exact (Ht self Hself)].
Defined.

(** C5, the claim as stated fails: direct parameters 0.5, 0.5, 0.5 are
    accepted and sum to 1.5. *)
Lemma direct_trinomial_probabilities_unnormalised :
  exists self,
    Trinomial.init 100 100 1 0 1 None 0 false None
      (Some (1 / 2)) (Some (1 / 2)) (Some (1 / 2))
      (Some 2) (Some (1 / 2)) (Some 1) false 2 = Ok self
    /\ ~ Rabs (Trinomial.pu self + Trinomial.pm self + Trinomial.pd self - 1)
         <= 1e-9.
Proof.
  unfold Trinomial.init.
  rewrite truediv_ok by lra. simpl.
  eexists. split; [reflexivity |]. simpl.
  rewrite Rabs_right by lra. lra.
Qed.

(** C7 (as amended).  For [N < 1] the binomial constructor behaves as for
    [N = 1] and stores 1.  The trinomial constructor does not check [N]:
    it raises ZeroDivisionError for [N = 0]; for [N < 0] it raises (the
    ValueError of [math.sqrt]) on the volatility path when [T] is positive,
    and on the direct-parameter path it succeeds and stores the negative
    [N]. *)
Theorem step_count_below_one :
  forall (S0 K T r : R) (N : Z) (sigma : option R) (div : R) (is_put : bool)
         (K2 : option R) (exponent : nat) (pu pd pm u d m : option R)
         (is_am : bool) (payoff : R),
    (N < 1)%Z ->
    Binomial.init S0 K T r N sigma div is_put K2 exponent pu pd is_am payoff
    = Binomial.init S0 K T r 1 sigma div is_put K2 exponent pu pd is_am payoff
    /\ (forall self,
           Binomial.init S0 K T r N sigma div is_put K2 exponent pu pd is_am
             payoff = Ok self ->
           Binomial.N self = 1%Z)
    /\ (N = 0%Z ->
        Trinomial.init S0 K T r N sigma div is_put K2 pu pd pm u d m is_am
          exponent = Raise ZeroDivisionError)
    /\ ((N < 0)%Z -> sigma <> None -> 0 < T ->
        Trinomial.init S0 K T r N sigma div is_put K2 pu pd pm u d m is_am
          exponent = Raise ValueError)
    /\ ((N < 0)%Z -> sigma = None ->
        u <> None -> d <> None -> m <> None ->
        pu <> None -> pd <> None -> pm <> None ->
        exists self,
          Trinomial.init S0 K T r N sigma div is_put K2 pu pd pm u d m is_am
            exponent = Ok self
          /\ Trinomial.N self = N).
Proof.
  intros * HN.
  assert (Hfloor : Z.max 1 N = 1%Z) by lia.
  repeat split.
  - unfold Binomial.init. rewrite Hfloor. reflexivity.
  - intros self H. unfold Binomial.init in H. inv_bind H.
    inversion H; subst; simpl. exact Hfloor.
  - intros ->. unfold Trinomial.init.
    rewrite truediv_zero by reflexivity. reflexivity.
  - intros Hneg Hsigma HT. unfold Trinomial.init.
    assert (HN0 : IZR N < 0) by (apply (IZR_lt N 0); assumption).
    rewrite truediv_ok by lra. simpl.
    destruct sigma as [s |]; [| contradiction].
    unfold Trinomial.setup_parameters.
    rewrite math_sqrt_neg; [reflexivity |].
    pose proof (Rdiv_pos_neg T (IZR N) HT HN0). lra.
  - intros Hneg -> Hu Hd Hm Hpu Hpd Hpm. unfold Trinomial.init.
    assert (HN0 : IZR N < 0) by (apply (IZR_lt N 0); assumption).
    rewrite truediv_ok by lra. simpl.
    destruct u, d, m, pu, pd, pm; try contradiction.
    simpl. eexists. split; reflexivity.
Qed.

Lemma step_count_below_one_witness :
  Binomial.init 50 52 1 (1 / 20) 0 None 0 true None 2
    (Some (1 / 2)) (Some (1 / 2)) false 1
  = Binomial.init 50 52 1 (1 / 20) 1 None 0 true None 2
      (Some (1 / 2)) (Some (1 / 2)) false 1
  /\ Trinomial.init 50 52 1 (1 / 20) 0 None 0 true None
       (Some (1 / 2)) (Some (1 / 2)) (Some (1 / 2))
       (Some 2) (Some (1 / 2)) (Some 1) false 2
     = Raise ZeroDivisionError.
Proof.
  assert (H0 : (0 < 1)%Z) by lia.
  destruct (step_count_below_one 50 52 1 (1 / 20) 0 None 0 true None 2
              (Some (1 / 2)) (Some (1 / 2)) (Some (1 / 2))
              (Some 2) (Some (1 / 2)) (Some 1) false 1 H0)
    as (Hb & _ & Ht & _).
  split; [exact Hb | exact (Ht eq_refl)].
Defined.

(** C7, the claim as stated fails: with direct parameters the trinomial
    constructor accepts [N = -1]. *)
Lemma trinomial_accepts_negative_step_count :
  exists self,
    Trinomial.init 50 52 1 0 (-1) None 0 false None
      (Some (1 / 4)) (Some (1 / 4)) (Some (1 / 2))
      (Some 2) (Some (1 / 2)) (Some 1) false 2 = Ok self
    /\ Trinomial.N self = (-1)%Z.
Proof.
  unfold Trinomial.init.
  rewrite truediv_ok by lra. simpl.
  eexists. split; reflexivity.
Qed.

(** ** Arrays and loops *)

Section VectorFacts.

Context {A : Type}.

Lemma length_set1 (a : list A) (i : nat) (v : A) :
  length (set1 a i v) = length a.
Proof.
  revert i. induction a as [| h t IH]; intros [| i]; simpl; auto.
Qed.

Lemma nth_set1_same (a : list A) (i : nat) (v z : A) :
  (i < length a)%nat -> nth i (set1 a i v) z = v.
Proof.
  revert i. induction a as [| h t IH]; intros [| i] Hi; simpl in *;
    try lia; auto.
  apply IH. lia.
Qed.

Lemma nth_set1_other (a : list A) (i k : nat) (v z : A) :
  i <> k -> nth k (set1 a i v) z = nth k a z.
Proof.
  revert i k. induction a as [| h t IH]; intros [| i] [| k] Hik; simpl;
    try reflexivity; try contradiction.
  apply IH. congruence.
Qed.

End VectorFacts.

Section ArrayFacts.

Context {A : Type}.

Lemma length_set2 (a : list (list A)) (i j : nat) (v : A) :
  length (set2 a i j v) = length a.
Proof. unfold set2. apply length_set1. Qed.

Lemma row_set2_other (a : list (list A)) (i j k : nat) (v : A) :
  i <> k -> nth k (set2 a i j v) [] = nth k a [].
Proof. intros Hik. unfold set2. apply nth_set1_other. assumption. Qed.

Lemma row_set2_same (a : list (list A)) (i j : nat) (v : A) :
  (i < length a)%nat -> nth i (set2 a i j v) [] = set1 (nth i a []) j v.
Proof. intros Hi. unfold set2. apply nth_set1_same. assumption. Qed.

Lemma row_length_set2 (a : list (list A)) (i j k : nat) (v : A) :
  length (nth k (set2 a i j v) []) = length (nth k a []).
Proof.
  destruct (Nat.eq_dec i k) as [-> | Hik].
  - destruct (Nat.lt_ge_cases k (length a)) as [Hk | Hk].
    + rewrite row_set2_same by assumption. apply length_set1.
    + unfold set2. rewrite !nth_overflow; try reflexivity;
        rewrite ?length_set1; assumption.
  - rewrite row_set2_other by assumption. reflexivity.
Qed.

Lemma get2_set2_same (z : A) (a : list (list A)) (i j : nat) (v : A) :
  (i < length a)%nat -> (j < length (nth i a []))%nat ->
  get2 z (set2 a i j v) i j = v.
Proof.
  intros Hi Hj. unfold get2. rewrite row_set2_same by assumption.
  apply nth_set1_same. assumption.
Qed.

Lemma get2_set2_other (z : A) (a : list (list A)) (i j i' j' : nat) (v : A) :
  i <> i' \/ j <> j' -> get2 z (set2 a i j v) i' j' = get2 z a i' j'.
Proof.
  intros Hne. unfold get2.
  destruct (Nat.eq_dec i i') as [<- | Hi].
  - destruct Hne as [Hne | Hne]; [contradiction |].
    destruct (Nat.lt_ge_cases i (length a)) as [Hlt | Hge].
    + rewrite row_set2_same by assumption. apply nth_set1_other. assumption.
    + rewrite (nth_overflow (set2 a i j v))
        by (rewrite length_set2; assumption).
      rewrite (nth_overflow a) by assumption. reflexivity.
  - rewrite row_set2_other by assumption. reflexivity.
Qed.

Lemma length_zeros2 (z : A) (rows cols : nat) :
  length (zeros2 z rows cols) = rows.
Proof. apply repeat_length. Qed.

Lemma row_zeros2 (z : A) (rows cols k : nat) :
  (k < rows)%nat -> nth k (zeros2 z rows cols) [] = repeat z cols.
Proof. intros Hk. unfold zeros2. apply nth_repeat_lt. assumption. Qed.

Lemma row_set_last_row (a : list (list A)) (row : list A) :
  a <> [] -> nth (length a - 1) (set_last_row a row) [] = row.
Proof.
  intros Ha. unfold set_last_row. apply nth_set1_same.
  destruct a; [contradiction | simpl; lia].
Qed.

Lemma row_set_last_row_at (a : list (list A)) (row : list A) (n : nat) :
  length a = (n + 1)%nat -> nth n (set_last_row a row) [] = row.
Proof.
  intros Hlen. replace n with (length a - 1)%nat by lia.
  apply row_set_last_row. intros ->. simpl in Hlen. lia.
Qed.

Lemma last_row_nth (a : list (list A)) :
  last_row a = nth (length a - 1) a [].
Proof.
  unfold last_row. induction a as [| h t IH]; [reflexivity |].
  destruct t as [| h' t']; [reflexivity |].
  change (last (h :: h' :: t') []) with (last (h' :: t') []).
  rewrite IH. simpl. rewrite Nat.sub_0_r. reflexivity.
Qed.

Lemma fold_left_preserves {B : Type} (P : A -> Prop) (f : A -> B -> A)
  (l : list B) :
  (forall a x, In x l -> P a -> P (f a x)) ->
  forall a, P a -> P (fold_left f l a).
Proof.
  induction l as [| x l IH]; intros Hstep a Ha; simpl; [assumption |].
  apply IH.
  - intros a' y Hy. apply Hstep. right. assumption.
  - apply Hstep; [left; reflexivity | assumption].
Qed.

End ArrayFacts.

Lemma in_range (n i : nat) : In i (range n) <-> (i < n)%nat.
Proof. unfold range. rewrite in_seq. lia. Qed.

Lemma in_range_down (n i : nat) : In i (range_down n) <-> (i < n)%nat.
Proof. unfold range_down. rewrite <- in_rev, in_seq. lia. Qed.

Lemma in_range_from (a b i : nat) :
  In i (range_from a b) <-> (a <= i < b)%nat.
Proof. unfold range_from. rewrite in_seq. lia. Qed.

Lemma np_add_map {X : Type} (f g : X -> R) (l : list X) :
  np_add (map f l) (map g l) = map (fun x => f x + g x) l.
Proof.
  unfold np_add. induction l as [| x l IH]; simpl; [reflexivity |].
  f_equal. exact IH.
Qed.

(** ** Shape of the lattices and the terminal row *)

Lemma shaped_zeros2 {A : Type} (z : A) (rows cols : nat) :
  shaped rows cols (zeros2 z rows cols).
Proof.
  split; [apply length_zeros2 |].
  intros k Hk. rewrite row_zeros2 by assumption. apply repeat_length.
Qed.

Lemma shaped_set2 {A : Type} (rows cols : nat) (a : list (list A))
  (i j : nat) (v : A) :
  shaped rows cols a -> shaped rows cols (set2 a i j v).
Proof.
  intros [Hlen Hrows]. split.
  - rewrite length_set2. assumption.
  - intros k Hk. rewrite row_length_set2. apply Hrows. assumption.
Qed.

Lemma shaped_set_last_row {A : Type} (rows cols : nat) (a : list (list A))
  (row : list A) :
  shaped rows cols a -> length row = cols -> shaped rows cols (set_last_row a row).
Proof.
  intros [Hlen Hrows] Hrow. unfold set_last_row. split.
  - rewrite length_set1. assumption.
  - intros k Hk. destruct (Nat.eq_dec (length a - 1) k) as [<- | Hne].
    + rewrite nth_set1_same by lia. assumption.
    + rewrite nth_set1_other by assumption. apply Hrows. assumption.
Qed.

Lemma binomial_stock_shaped (self : Binomial.Binomialmodell) :
  shaped (Binomial.steps self + 1) (Binomial.steps self + 1)
    (Binomial.build_stock_price_tree self).
Proof.
  unfold Binomial.build_stock_price_tree.
  apply fold_left_preserves; [| apply shaped_zeros2].
  intros tree i _ Htree.
  apply fold_left_preserves; [| assumption].
  intros tree' j _ Htree'. apply shaped_set2. assumption.
Qed.

Lemma trinomial_stock_shaped (self : Trinomial.Trinomialmodell) :
  shaped (Trinomial.steps self + 1) (2 * Trinomial.steps self + 1)
    (Trinomial.build_stock_price_tree self).
Proof.
  unfold Trinomial.build_stock_price_tree.
  apply fold_left_preserves; [| apply shaped_set2, shaped_zeros2].
  intros tree i _ Htree.
  apply fold_left_preserves; [| assumption].
  intros tree' j _ Htree'. apply shaped_set2. assumption.
Qed.

(** Backward induction writes rows [0 .. N - 1] only. *)
Lemma binomial_backward_frame (self : Binomial.Binomialmodell)
  (stock : list (list R)) (st : list (list R) * list (list float64))
  (k : nat) :
  (Binomial.steps self <= k)%nat ->
  nth k (fst (Binomial.backward_induction self stock st)) [] = nth k (fst st) [].
Proof.
  intros Hk. unfold Binomial.backward_induction.
  apply (fold_left_preserves
           (fun s => nth k (fst s) [] = nth k (fst st) [])); [| reflexivity].
  intros s i Hi Hs. apply in_range_down in Hi.
  apply (fold_left_preserves
           (fun s => nth k (fst s) [] = nth k (fst st) [])); [| assumption].
  intros [opt delta] j _ Hopt. simpl in Hopt.
  unfold Binomial.backward_node.
  destruct (Binomial.is_am self); simpl;
    rewrite row_set2_other by lia; assumption.
Qed.

Lemma trinomial_backward_frame (self : Trinomial.Trinomialmodell)
  (stock : list (list R)) (st : list (list R) * list (list float64))
  (k : nat) :
  (Trinomial.steps self <= k)%nat ->
  nth k (fst (Trinomial.backward_induction self stock st)) []
  = nth k (fst st) [].
Proof.
  intros Hk. unfold Trinomial.backward_induction.
  apply (fold_left_preserves
           (fun s => nth k (fst s) [] = nth k (fst st) [])); [| reflexivity].
  intros s i Hi Hs. apply in_range_down in Hi.
  apply (fold_left_preserves
           (fun s => nth k (fst s) [] = nth k (fst st) [])); [| assumption].
  intros [opt delta] j _ Hopt. simpl in Hopt.
  unfold Trinomial.backward_node. simpl.
  rewrite row_set2_other by lia. assumption.
Qed.

(** What [init_full_tree] leaves in the terminal row of the option lattice. *)
Lemma binomial_terminal_row (self : Binomial.Binomialmodell)
  (option_type : string) (payoffs : list R) :
  Binomial.calculate_payoffs self (Binomial.build_stock_price_tree self)
    option_type = Ok payoffs ->
  exists t,
    Binomial.init_full_tree self option_type = Ok t
    /\ Binomial.stock_price_tree t = Binomial.build_stock_price_tree self
    /\ nth (Binomial.steps self) (Binomial.option_price_tree t) [] = payoffs.
Proof.
  intros Hpay. unfold Binomial.init_full_tree. rewrite Hpay. simpl.
  destruct (Binomial.backward_induction self _ _) as [opt delta] eqn:Hback.
  eexists. split; [reflexivity |]. simpl. split; [reflexivity |].
  change opt with (fst (opt, delta)). rewrite <- Hback.
  rewrite binomial_backward_frame by lia. simpl.
  apply row_set_last_row_at. apply length_zeros2.
Qed.

Lemma trinomial_terminal_row (self : Trinomial.Trinomialmodell)
  (option_type : string) (payoffs : list R) :
  (0 <= Trinomial.N self)%Z ->
  Trinomial.calculate_payoffs self (Trinomial.build_stock_price_tree self)
    option_type = Ok payoffs ->
  exists t,
    Trinomial.init_full_tree self option_type = Ok t
    /\ Trinomial.stock_price_tree t = Trinomial.build_stock_price_tree self
    /\ nth (Trinomial.steps self) (Trinomial.option_price_tree t) [] = payoffs.
Proof.
  intros HN Hpay. unfold Trinomial.init_full_tree.
  destruct (Z.ltb_spec (Trinomial.N self) 0) as [Hneg | _]; [lia |].
  rewrite Hpay. simpl.
  destruct (Trinomial.backward_induction self _ _) as [opt delta] eqn:Hback.
  eexists. split; [reflexivity |]. simpl. split; [reflexivity |].
  change opt with (fst (opt, delta)). rewrite <- Hback.
  rewrite trinomial_backward_frame by lia. simpl.
  apply row_set_last_row_at. apply length_zeros2.
Qed.

Lemma nth_map_in_range {X Y : Type} (f : X -> Y) (l : list X) (j : nat)
  (zx : X) (zy : Y) :
  (j < length l)%nat -> nth j (map f l) zy = f (nth j l zx).
Proof.
  intros Hj. rewrite (nth_indep (map f l) zy (f zx))
    by (rewrite length_map; assumption).
  apply map_nth.
Qed.

(** A payoff family that maps each terminal price through [f] ends up, node
    by node, in the terminal row of the option lattice. *)
Lemma binomial_terminal_values (self : Binomial.Binomialmodell)
  (option_type : string) (f : R -> R) :
  (forall stock,
      Binomial.calculate_payoffs self stock option_type
      = Ok (map f (last_row stock))) ->
  exists t,
    Binomial.init_full_tree self option_type = Ok t
    /\ length (nth (Binomial.steps self) (Binomial.stock_price_tree t) [])
       = (Binomial.steps self + 1)%nat
    /\ nth (Binomial.steps self) (Binomial.option_price_tree t) []
       = map f (nth (Binomial.steps self) (Binomial.stock_price_tree t) [])
    /\ forall j, (j <= Binomial.steps self)%nat ->
         get2 0 (Binomial.option_price_tree t) (Binomial.steps self) j
         = f (get2 0 (Binomial.stock_price_tree t) (Binomial.steps self) j).
Proof.
  intros Hpay.
  destruct (binomial_terminal_row self option_type _ (Hpay _))
    as (t & Ht & Hstock & Hrow).
  destruct (binomial_stock_shaped self) as [Hlen Hrows].
  rewrite last_row_nth, Hlen in Hrow.
  replace (Binomial.steps self + 1 - 1)%nat with (Binomial.steps self)
    in Hrow by lia.
  exists t. rewrite Hstock.
  assert (Hwidth :
            length (nth (Binomial.steps self)
                      (Binomial.build_stock_price_tree self) [])
            = (Binomial.steps self + 1)%nat) by (apply Hrows; lia).
  repeat split; try assumption.
  intros j Hj. unfold get2. rewrite Hrow.
  apply nth_map_in_range. lia.
Qed.

Lemma trinomial_terminal_values (self : Trinomial.Trinomialmodell)
  (option_type : string) (f : R -> R) :
  (0 <= Trinomial.N self)%Z ->
  (forall stock,
      Trinomial.calculate_payoffs self stock option_type
      = Ok (map f (last_row stock))) ->
  exists t,
    Trinomial.init_full_tree self option_type = Ok t
    /\ length (nth (Trinomial.steps self) (Trinomial.stock_price_tree t) [])
       = (2 * Trinomial.steps self + 1)%nat
    /\ nth (Trinomial.steps self) (Trinomial.option_price_tree t) []
       = map f (nth (Trinomial.steps self) (Trinomial.stock_price_tree t) [])
    /\ forall j, (j <= 2 * Trinomial.steps self)%nat ->
         get2 0 (Trinomial.option_price_tree t) (Trinomial.steps self) j
         = f (get2 0 (Trinomial.stock_price_tree t) (Trinomial.steps self) j).
Proof.
  intros HN Hpay.
  destruct (trinomial_terminal_row self option_type _ HN (Hpay _))
    as (t & Ht & Hstock & Hrow).
  destruct (trinomial_stock_shaped self) as [Hlen Hrows].
  rewrite last_row_nth, Hlen in Hrow.
  replace (Trinomial.steps self + 1 - 1)%nat with (Trinomial.steps self)
    in Hrow by lia.
  exists t. rewrite Hstock.
  assert (Hwidth :
            length (nth (Trinomial.steps self)
                      (Trinomial.build_stock_price_tree self) [])
            = (2 * Trinomial.steps self + 1)%nat) by (apply Hrows; lia).
  repeat split; try assumption.
  intros j Hj. unfold get2. rewrite Hrow.
  apply nth_map_in_range. lia.
Qed.

(** ** Terminal payoffs *)

Lemma call_leg (k s : R) : (if Rgt_dec s k then s - k else 0) = Rmax 0 (s - k).
Proof.
  unfold Rmax. destruct (Rgt_dec s k), (Rle_dec 0 (s - k)); lra.
Qed.

Lemma put_leg (k s : R) : (if Rlt_dec s k then k - s else 0) = Rmax 0 (k - s).
Proof.
  unfold Rmax. destruct (Rlt_dec s k), (Rle_dec 0 (k - s)); lra.
Qed.

Lemma binomial_strangle_payoffs (self : Binomial.Binomialmodell)
  (stock : list (list R)) :
  Binomial.calculate_payoffs self stock "strangle"
  = Ok (map (fun s => Rmax 0 (s - Binomial.K self)
                      + Rmax 0 (Binomial.K2 self - s)) (last_row stock)).
Proof.
  unfold Binomial.calculate_payoffs. simpl.
  rewrite np_add_map. f_equal. apply map_ext. intros s.
  rewrite call_leg, put_leg. reflexivity.
Qed.

Lemma trinomial_strangle_payoffs (self : Trinomial.Trinomialmodell)
  (stock : list (list R)) :
  Trinomial.calculate_payoffs self stock "strangle"
  = Ok (map (fun s => Rmax 0 (s - Trinomial.K self)
                      + Rmax 0 (Trinomial.K2 self - s)) (last_row stock)).
Proof.
  unfold Trinomial.calculate_payoffs. simpl.
  rewrite np_add_map. f_equal. apply map_ext. intros s.
  rewrite call_leg, put_leg. reflexivity.
Qed.

(** C10.  A constructor called without [K2] stores [K] in its place, and
    pricing the strangle then succeeds with, at every terminal node, the
    payoff max(0, S_T - K) + max(0, K - S_T).  (For the trinomial model
    pricing needs a non-negative [N]: a negative one is refused by the
    array allocation, whatever the strikes.) *)
Theorem strangle_without_second_strike :
  forall (S0 K T r : R) (N : Z) (sigma : option R) (div : R) (is_put : bool)
         (exponent : nat) (pu pd pm u d m : option R) (is_am : bool)
         (payoff : R),
    (forall self,
        Binomial.init S0 K T r N sigma div is_put None exponent pu pd is_am
          payoff = Ok self ->
        Binomial.K2 self = K /\ Binomial.K self = K
        /\ exists t,
            Binomial.init_full_tree self "strangle" = Ok t
            /\ forall j, (j <= Binomial.steps self)%nat ->
                 let s_T := get2 0 (Binomial.stock_price_tree t)
                              (Binomial.steps self) j in
                 get2 0 (Binomial.option_price_tree t) (Binomial.steps self) j
                 = Rmax 0 (s_T - K) + Rmax 0 (K - s_T))
    /\
    (forall self,
        Trinomial.init S0 K T r N sigma div is_put None pu pd pm u d m is_am
          exponent = Ok self ->
        Trinomial.K2 self = K /\ Trinomial.K self = K
        /\ ((0 <= N)%Z ->
            exists t,
              Trinomial.init_full_tree self "strangle" = Ok t
              /\ forall j, (j <= 2 * Trinomial.steps self)%nat ->
                   let s_T := get2 0 (Trinomial.stock_price_tree t)
                                (Trinomial.steps self) j in
                   get2 0 (Trinomial.option_price_tree t)
                     (Trinomial.steps self) j
                   = Rmax 0 (s_T - K) + Rmax 0 (K - s_T))).
Proof.
  intros. split; intros self Hinit.
  - assert (HK : Binomial.K2 self = K /\ Binomial.K self = K).
    { unfold Binomial.init in Hinit. inv_bind Hinit.
      inversion Hinit; subst; simpl. split; reflexivity. }
    destruct HK as [HK2 HK]. repeat split; try assumption.
    destruct (binomial_terminal_values self "strangle" _
                (binomial_strangle_payoffs self))
      as (t & Ht & _ & _ & Hnodes).
    exists t. split; [assumption |].
    intros j Hj. simpl. rewrite (Hnodes j Hj), HK2, HK. reflexivity.
  - assert (HK : Trinomial.K2 self = K /\ Trinomial.K self = K
                 /\ Trinomial.N self = N).
    { unfold Trinomial.init in Hinit. do 2 inv_bind Hinit.
      inversion Hinit; subst; simpl. repeat split; reflexivity. }
    destruct HK as (HK2 & HK & HNself). repeat split; try assumption.
    intros HN. rewrite <- HNself in HN.
    destruct (trinomial_terminal_values self "strangle" _ HN
                (trinomial_strangle_payoffs self))
      as (t & Ht & _ & _ & Hnodes).
    exists t. split; [assumption |].
    intros j Hj. simpl. rewrite (Hnodes j Hj), HK2, HK. reflexivity.
Qed.

(** ** Example models

    Direct calibration with a zero rate and no dividend keeps every
    intermediate value a small dyadic number, so that the float computation
    of the source is exact on them. *)

Lemma exp_zero_rate (x : R) : exp ((0 - 0) * x) = 1 /\ exp (- (0 - 0) * x) = 1.
Proof.
  split; [replace ((0 - 0) * x) with 0 by ring
         | replace (- (0 - 0) * x) with 0 by ring]; apply exp_0.
Qed.

Lemma binomial_half_half (S0 K T : R) (N : Z) (is_put : bool) (K2 : option R)
  (exponent : nat) (is_am : bool) (payoff : R) :
  Binomial.init S0 K T 0 N None 0 is_put K2 exponent
    (Some (1 / 2)) (Some (1 / 2)) is_am payoff
  = Ok (Binomial.mkBinomialmodell S0 K
          (match K2 with Some k2 => k2 | None => K end) 0 T (Z.max 1 N) 0 None
          is_put (negb is_put) exponent is_am payoff
          (T / IZR (Z.max 1 N)) 1 (3 / 2) (1 / 2) (1 / 2) (1 / 2)).
Proof.
  unfold Binomial.init, Binomial.setup_parameters_without_sigma.
  rewrite truediv_ok by apply floored_steps_nonzero. simpl.
  rewrite truediv_ok by lra. simpl.
  destruct (exp_zero_rate (T / IZR (Z.max 1 N))) as [-> ->].
  do 2 f_equal; lra.
Qed.

Lemma trinomial_direct (S0 K T : R) (N : Z) (is_put : bool) (K2 : option R)
  (pu pd pm u d m : R) (is_am : bool) (exponent : nat) :
  N <> 0%Z ->
  Trinomial.init S0 K T 0 N None 0 is_put K2
    (Some pu) (Some pd) (Some pm) (Some u) (Some d) (Some m) is_am exponent
  = Ok (Trinomial.mkTrinomialmodell S0 K
          (match K2 with Some k2 => k2 | None => K end) 0 T N 0
          is_put (negb is_put) is_am (T / IZR N) 1 exponent None
          u d m pu pd pm).
Proof.
  intros HN. unfold Trinomial.init.
  rewrite truediv_ok by (apply not_0_IZR; assumption). simpl.
  replace (- 0 * (T / IZR N)) with 0 by ring. rewrite exp_0. reflexivity.
Qed.

Lemma strangle_without_second_strike_witness :
  (exists self,
      Binomial.init 100 100 1 0 1 None 0 false None 2
        (Some (1 / 2)) (Some (1 / 2)) false 1 = Ok self
      /\ Binomial.K2 self = 100)
  /\
  (exists self,
      Trinomial.init 100 100 1 0 1 None 0 false None
        (Some (1 / 4)) (Some (1 / 4)) (Some (1 / 2))
        (Some 2) (Some (1 / 2)) (Some 1) false 2 = Ok self
      /\ Trinomial.K2 self = 100).
Proof.
  pose proof (strangle_without_second_strike 100 100 1 0 1 None 0 false 2
                (Some (1 / 4)) (Some (1 / 4)) (Some (1 / 2))
                (Some 2) (Some (1 / 2)) (Some 1) false 1) as [_ Ht].
  pose proof (strangle_without_second_strike 100 100 1 0 1 None 0 false 2
                (Some (1 / 2)) (Some (1 / 2)) None None None None false 1)
    as [Hb _].
  split.
  - eexists. split; [apply binomial_half_half |].
    exact (proj1 (Hb _ (binomial_half_half 100 100 1 1 false None 2 false 1))).
  - assert (H1 : 1%Z <> 0%Z) by discriminate.
    eexists. split; [apply (trinomial_direct _ _ _ _ _ _ _ _ _ _ _ _ _ _ H1) |].
    exact (proj1 (Ht _ (trinomial_direct 100 100 1 1 false None
                          (1 / 4) (1 / 4) (1 / 2) 2 (1 / 2) 1 false 2 H1))).
Defined.

Lemma binomial_digital_payoffs (self : Binomial.Binomialmodell)
  (stock : list (list R)) :
  Binomial.calculate_payoffs self stock "digital"
  = Ok (map (fun s =>
               if Binomial.is_put self
               then (if Rle_dec s (Binomial.K self)
                     then Binomial.payoff self else 0)
               else (if Rgt_dec s (Binomial.K self)
                     then Binomial.payoff self else 0))
          (last_row stock)).
Proof.
  unfold Binomial.calculate_payoffs. simpl.
  destruct (Binomial.is_put self); reflexivity.
Qed.

Lemma trinomial_digital_payoffs (self : Trinomial.Trinomialmodell)
  (stock : list (list R)) :
  Trinomial.calculate_payoffs self stock "digital"
  = Ok (map (fun s =>
               if Trinomial.is_put self
               then (if Rlt_dec s (Trinomial.K self) then 1 else 0)
               else (if Rgt_dec s (Trinomial.K self) then 1 else 0))
          (last_row stock)).
Proof.
  unfold Trinomial.calculate_payoffs. simpl.
  destruct (Trinomial.is_put self); reflexivity.
Qed.

(** The digital rule each model applies at its terminal nodes.  The
    binomial payoff is the configured amount when the option is in the money
    (call: S_T > K, put: S_T <= K) and exactly 0 otherwise.  The trinomial
    model has no configurable amount and pays 1; its call is paid iff
    S_T > K, but its put only iff S_T < K, so that a put at the strike is
    left unpaid. *)
Lemma digital_terminal_payoff :
  (forall self : Binomial.Binomialmodell,
      exists t,
        Binomial.init_full_tree self "digital" = Ok t
        /\ forall j, (j <= Binomial.steps self)%nat ->
             let s_T := get2 0 (Binomial.stock_price_tree t)
                          (Binomial.steps self) j in
             let v := get2 0 (Binomial.option_price_tree t)
                        (Binomial.steps self) j in
             pays (if Binomial.is_put self
                   then s_T <= Binomial.K self else s_T > Binomial.K self)
               (Binomial.payoff self) v)
  /\
  (forall self : Trinomial.Trinomialmodell,
      (0 <= Trinomial.N self)%Z ->
      exists t,
        Trinomial.init_full_tree self "digital" = Ok t
        /\ forall j, (j <= 2 * Trinomial.steps self)%nat ->
             let s_T := get2 0 (Trinomial.stock_price_tree t)
                          (Trinomial.steps self) j in
             let v := get2 0 (Trinomial.option_price_tree t)
                        (Trinomial.steps self) j in
             pays (if Trinomial.is_put self
                   then s_T < Trinomial.K self else s_T > Trinomial.K self)
               1 v).
Proof.
  split.
  - intros self.
    destruct (binomial_terminal_values self "digital" _
                (binomial_digital_payoffs self))
      as (t & Ht & _ & _ & Hnodes).
    exists t. split; [assumption |].
    intros j Hj. simpl. rewrite (Hnodes j Hj). unfold pays.
    destruct (Binomial.is_put self).
    + destruct (Rle_dec _ _); split; intros; tauto.
    + destruct (Rgt_dec _ _); split; intros; tauto.
  - intros self HN.
    destruct (trinomial_terminal_values self "digital" _ HN
                (trinomial_digital_payoffs self))
      as (t & Ht & _ & _ & Hnodes).
    exists t. split; [assumption |].
    intros j Hj. simpl. rewrite (Hnodes j Hj). unfold pays.
    destruct (Trinomial.is_put self).
    + destruct (Rlt_dec _ _); split; intros; tauto.
    + destruct (Rgt_dec _ _); split; intros; tauto.
Qed.

Lemma digital_terminal_payoff_witness :
  exists self t,
    Trinomial.init 100 100 1 0 1 None 0 true None
      (Some (1 / 4)) (Some (1 / 4)) (Some (1 / 2))
      (Some 2) (Some (1 / 2)) (Some 1) false 2 = Ok self
    /\ Trinomial.init_full_tree self "digital" = Ok t
    /\ pays (get2 0 (Trinomial.stock_price_tree t) 1 0 < 100) 1
         (get2 0 (Trinomial.option_price_tree t) 1 0).
Proof.
  assert (H1 : 1%Z <> 0%Z) by discriminate.
  assert (H0 : (0 <= 1)%Z) by lia.
  eexists.
  destruct (proj2 digital_terminal_payoff
              (Trinomial.mkTrinomialmodell 100 100 100 0 1 1 0 true false false
                 (1 / IZR 1) 1 2 None 2 (1 / 2) 1 (1 / 4) (1 / 4) (1 / 2)) H0)
    as (t & Ht & Hnodes).
  exists t. split; [apply (trinomial_direct _ _ _ _ _ _ _ _ _ _ _ _ _ _ H1) |].
  split; [exact Ht |].
  apply (Hnodes 0%nat). simpl. lia.
Defined.

(** C3.  The code at a one-step trinomial digital put with S0 = K = 100
    (u = 2, d = 1/2): the centre terminal node has S_T = 100 = K, so the
    put is in the money by the non-strict convention the binomial model
    applies, and the payoff should be the fixed amount 1; the strict
    comparison of the trinomial [calculate_payoffs] stores 0 there. *)
Theorem trinomial_digital_put_at_the_strike :
  exists self t,
    Trinomial.init 100 100 1 0 1 None 0 true None
      (Some (1 / 4)) (Some (1 / 4)) (Some (1 / 2))
      (Some 2) (Some (1 / 2)) (Some 1) false 2 = Ok self
    /\ Trinomial.init_full_tree self "digital" = Ok t
    /\ get2 0 (Trinomial.stock_price_tree t) 1 1 = 100
    /\ get2 0 (Trinomial.option_price_tree t) 1 1 = 0
    /\ ~ pays (get2 0 (Trinomial.stock_price_tree t) 1 1 <= Trinomial.K self)
           1 (get2 0 (Trinomial.option_price_tree t) 1 1).
Proof.
  assert (H1 : 1%Z <> 0%Z) by discriminate.
  eexists. eexists.
  split; [apply (trinomial_direct _ _ _ _ _ _ _ _ _ _ _ _ _ _ H1) |].
  split; [lattice_eval; reflexivity |].
  lattice_eval. repeat split.
  - decide_reals.
  - intros [Hin _]. assert (Hle : 100 <= 100) by lra.
    specialize (Hin Hle). revert Hin. decide_reals.
Qed.

(** ** Early exercise *)

(** C2.  The code at a one-step American call (S0 = K = 100, u = 3/2,
    d = 1/2, qu = qd = 1/2, df = 1): the terminal values are 50 and 0, so
    the continuation value at the root is 25 and immediate exercise there
    is worth max(0, 100 - 100) = 0; the claimed root value is 25.  The code
    stores 50: its early-exercise term is taken at the up child (level
    i + 1), max(V(1,0), S(1,0) - K), not at the node itself. *)
Theorem american_call_root_value :
  exists self t price,
    Binomial.init 100 100 1 0 1 None 0 false None 2
      (Some (1 / 2)) (Some (1 / 2)) true 1 = Ok self
    /\ Binomial.price_option self "american" = Ok (t, price)
    /\ price = 50
    /\ price = get2 0 (Binomial.option_price_tree t) 1 0
    /\ Rmax
         (Binomial.df self
          * (Binomial.qu self * get2 0 (Binomial.option_price_tree t) 1 0
             + Binomial.qd self * get2 0 (Binomial.option_price_tree t) 1 1))
         (Rmax 0 (get2 0 (Binomial.stock_price_tree t) 0 0 - Binomial.K self))
       = 25.
Proof.
  do 3 eexists. split; [apply binomial_half_half |].
  split; [lattice_eval; reflexivity |].
  lattice_eval. repeat split; rmax_eval; lra.
Qed.

(** What the loop stores at a node of an American-style lattice, for every
    node: the exercise term is read at the child (i + 1, j) for a call and
    (i + 1, j + 1) for a put, together with the option value held there. *)
Lemma american_node_rule (self : Binomial.Binomialmodell)
  (stock opt : list (list R)) (delta : list (list float64)) (i j : nat) :
  Binomial.is_am self = true ->
  fst (Binomial.backward_node self stock (opt, delta) i j)
  = set2 opt i j
      (Rmax
         ((Binomial.qu self * get2 0 opt (i + 1) j
           + Binomial.qd self * get2 0 opt (i + 1) (j + 1))
          * Binomial.df self)
         (if Binomial.is_call self
          then Rmax (get2 0 opt (i + 1) j)
                 (get2 0 stock (i + 1) j - Binomial.K self)
          else Rmax (get2 0 opt (i + 1) (j + 1))
                 (Binomial.K self - get2 0 stock (i + 1) (j + 1)))).
Proof.
  intros Ham. unfold Binomial.backward_node, Binomial.check_early_exercise.
  rewrite Ham. destruct (Binomial.is_call self); reflexivity.
Qed.

(** ** Early-exercise premium *)

Lemma fold_left_related {A B X : Type} (Rel : A -> B -> Prop)
  (f : A -> X -> A) (g : B -> X -> B) (l : list X) :
  (forall a b x, In x l -> Rel a b -> Rel (f a x) (g b x)) ->
  forall a b, Rel a b -> Rel (fold_left f l a) (fold_left g l b).
Proof.
  induction l as [| x l IH]; intros Hstep a b Hab; simpl; [assumption |].
  apply IH.
  - intros a' b' y Hy. apply Hstep. right. assumption.
  - apply Hstep; [left; reflexivity | assumption].
Qed.

Section EarlyExercisePremium.

Variables american european : Binomial.Binomialmodell.

Hypothesis same_N : Binomial.N american = Binomial.N european.
Hypothesis same_S0 : Binomial.S0 american = Binomial.S0 european.
Hypothesis same_K : Binomial.K american = Binomial.K european.
Hypothesis same_u : Binomial.u american = Binomial.u european.
Hypothesis same_d : Binomial.d american = Binomial.d european.
Hypothesis same_qu : Binomial.qu american = Binomial.qu european.
Hypothesis same_qd : Binomial.qd american = Binomial.qd european.
Hypothesis same_df : Binomial.df american = Binomial.df european.
Hypothesis same_is_call :
  Binomial.is_call american = Binomial.is_call european.
Hypothesis european_style : Binomial.is_am european = false.
Hypothesis qu_nonneg : 0 <= Binomial.qu american.
Hypothesis qd_nonneg : 0 <= Binomial.qd american.
Hypothesis df_nonneg : 0 <= Binomial.df american.

Lemma same_steps : Binomial.steps american = Binomial.steps european.
Proof. unfold Binomial.steps. rewrite same_N. reflexivity. Qed.

Lemma same_stock_price_tree :
  Binomial.build_stock_price_tree american
  = Binomial.build_stock_price_tree european.
Proof.
  unfold Binomial.build_stock_price_tree.
  rewrite same_steps, same_S0, same_u, same_d. reflexivity.
Qed.

Lemma same_vanilla_payoffs (stock : list (list R)) :
  Binomial.calculate_payoffs american stock "american"
  = Binomial.calculate_payoffs european stock "european".
Proof.
  unfold Binomial.calculate_payoffs. simpl.
  rewrite same_is_call, same_K. reflexivity.
Qed.

Lemma backward_node_dominated (stock : list (list R))
  (lower upper : list (list R) * list (list float64)) (i j : nat) :
  (i < Binomial.steps american)%nat -> (j <= i)%nat ->
  dominated (Binomial.steps american) lower upper ->
  dominated (Binomial.steps american)
    (Binomial.backward_node european stock lower i j)
    (Binomial.backward_node american stock upper i j).
Proof.
  intros Hi Hj (Hlo & Hup & Hle).
  destruct lower as [oe de], upper as [oa da]. simpl in Hlo, Hup, Hle.
  unfold Binomial.backward_node. rewrite european_style.
  set (ce := (Binomial.qu european * get2 0 oe (i + 1) j
              + Binomial.qd european * get2 0 oe (i + 1) (j + 1))
             * Binomial.df european).
  set (ca := (Binomial.qu american * get2 0 oa (i + 1) j
              + Binomial.qd american * get2 0 oa (i + 1) (j + 1))
             * Binomial.df american).
  assert (Hc : ce <= ca).
  { subst ce ca. rewrite <- same_qu, <- same_qd, <- same_df.
    pose proof (Hle (i + 1)%nat j). pose proof (Hle (i + 1)%nat (j + 1)%nat).
    apply Rmult_le_compat_r; [assumption |].
    apply Rplus_le_compat; apply Rmult_le_compat_l; assumption. }
  match goal with
  | |- dominated _ (?le, _) (?ue, _) =>
      set (oe' := le); set (oa' := ue)
  end.
  assert (Hwrite : exists va, oa' = set2 oa i j va /\ ce <= va).
  { subst oa'. destruct (Binomial.is_am american).
    - eexists. split; [reflexivity |].
      eapply Rle_trans; [exact Hc | apply Rmax_l].
    - eexists. split; [reflexivity | exact Hc]. }
  destruct Hwrite as (va & Hoa' & Hva).
  unfold dominated. simpl. rewrite Hoa'. subst oe'.
  split; [apply shaped_set2; assumption |].
  split; [apply shaped_set2; assumption |].
  intros i' j'.
  destruct (Nat.eq_dec i i') as [<- | Hne].
  - destruct (Nat.eq_dec j j') as [<- | Hne].
    + destruct Hlo as [Hlen_e Hrows_e], Hup as [Hlen_a Hrows_a].
      rewrite !get2_set2_same;
        rewrite ?Hlen_e, ?Hlen_a, ?Hrows_e, ?Hrows_a; try lia.
      exact Hva.
    + rewrite !get2_set2_other by (right; assumption). apply Hle.
  - rewrite !get2_set2_other by (left; assumption). apply Hle.
Qed.

Lemma backward_induction_dominated (stock : list (list R))
  (lower upper : list (list R) * list (list float64)) :
  dominated (Binomial.steps american) lower upper ->
  dominated (Binomial.steps american)
    (Binomial.backward_induction european stock lower)
    (Binomial.backward_induction american stock upper).
Proof.
  unfold Binomial.backward_induction. rewrite <- same_steps.
  apply fold_left_related. intros a b i Hi Hab.
  apply in_range_down in Hi.
  revert a b Hab. apply fold_left_related. intros a b j Hj Hab.
  apply in_range in Hj.
  apply backward_node_dominated; [assumption | lia | assumption].
Qed.

End EarlyExercisePremium.

Lemma binomial_price_option_value (self : Binomial.Binomialmodell)
  (option_type : string) (payoffs : list R) :
  Binomial.calculate_payoffs self (Binomial.build_stock_price_tree self)
    option_type = Ok payoffs ->
  exists t,
    Binomial.price_option self option_type
    = Ok (t,
          get2 0
            (fst (Binomial.backward_induction self
                    (Binomial.build_stock_price_tree self)
                    (set_last_row
                       (zeros2 0 (Binomial.steps self + 1)
                          (Binomial.steps self + 1)) payoffs,
                     zeros2 (Fin 0) (Binomial.steps self)
                       (Binomial.steps self)))) 0 0).
Proof.
  intros Hpay. unfold Binomial.price_option, Binomial.init_full_tree.
  rewrite Hpay. simpl.
  destruct (Binomial.backward_induction self _ _) as [opt delta].
  simpl. eexists. reflexivity.
Qed.

Lemma binomial_vanilla_payoffs (self : Binomial.Binomialmodell)
  (option_type : string) :
  option_type = "european"%string \/ option_type = "american"%string ->
  exists payoffs,
    Binomial.calculate_payoffs self (Binomial.build_stock_price_tree self)
      option_type = Ok payoffs
    /\ length payoffs = (Binomial.steps self + 1)%nat.
Proof.
  intros Htype.
  assert (Hwidth : length (last_row (Binomial.build_stock_price_tree self))
                   = (Binomial.steps self + 1)%nat).
  { destruct (binomial_stock_shaped self) as [Hlen Hrows].
    rewrite last_row_nth, Hlen. apply Hrows. lia. }
  unfold Binomial.calculate_payoffs.
  destruct Htype as [-> | ->]; simpl;
    destruct (Binomial.is_call self); eexists;
    (split; [reflexivity | rewrite length_map; exact Hwidth]).
Qed.

(** C8.  Two binomial puts built from the same constructor inputs, one
    American ([is_am], priced as 'american') and one European (priced as
    'european'): when qu, qd and df are non-negative, both prices exist and
    the American price is at least the European price. *)
Theorem american_put_at_least_european :
  forall (S0 K T r : R) (N : Z) (sigma : option R) (div : R) (K2 : option R)
         (exponent : nat) (pu pd : option R) (payoff : R)
         (american european : Binomial.Binomialmodell),
    Binomial.init S0 K T r N sigma div true K2 exponent pu pd true payoff
    = Ok american ->
    Binomial.init S0 K T r N sigma div true K2 exponent pu pd false payoff
    = Ok european ->
    0 <= Binomial.qu american ->
    0 <= Binomial.qd american ->
    0 <= Binomial.df american ->
    exists t_am price_am t_eu price_eu,
      Binomial.price_option american "american" = Ok (t_am, price_am)
      /\ Binomial.price_option european "european" = Ok (t_eu, price_eu)
      /\ price_eu <= price_am.
Proof.
  intros * Ham Heu Hqu Hqd Hdf.
  unfold Binomial.init in Ham, Heu. inv_bind Ham. inv_bind Heu.
  rewrite Ha in Ha0. inversion Ha0; subst a0. clear Ha0.
  inversion Ham; subst american. inversion Heu; subst european.
  clear Ham Heu. simpl in Hqu, Hqd, Hdf.
  match goal with
  | |- context [Binomial.price_option ?am "american"] => set (american := am)
  end.
  match goal with
  | |- context [Binomial.price_option ?eu "european"] => set (european := eu)
  end.
  destruct (binomial_vanilla_payoffs european "european" (or_introl eq_refl))
    as (payoffs & Hpay_eu & Hlen).
  assert (Hstock : Binomial.build_stock_price_tree american
                   = Binomial.build_stock_price_tree european) by reflexivity.
  assert (Hpay_am : Binomial.calculate_payoffs american
                      (Binomial.build_stock_price_tree american) "american"
                    = Ok payoffs).
  { rewrite Hstock. rewrite <- Hpay_eu. reflexivity. }
  destruct (binomial_price_option_value american "american" payoffs Hpay_am)
    as (t_am & Hprice_am).
  destruct (binomial_price_option_value european "european" payoffs Hpay_eu)
    as (t_eu & Hprice_eu).
  do 4 eexists. split; [exact Hprice_am |]. split; [exact Hprice_eu |].
  assert (Hstart :
            dominated (Binomial.steps american)
              (set_last_row
                 (zeros2 0 (Binomial.steps european + 1)
                    (Binomial.steps european + 1)) payoffs,
               zeros2 (Fin 0) (Binomial.steps european)
                 (Binomial.steps european))
              (set_last_row
                 (zeros2 0 (Binomial.steps american + 1)
                    (Binomial.steps american + 1)) payoffs,
               zeros2 (Fin 0) (Binomial.steps american)
                 (Binomial.steps american))).
  { change (Binomial.steps european) with (Binomial.steps american) in *.
    assert (Hshape : shaped (Binomial.steps american + 1)
                       (Binomial.steps american + 1)
                       (set_last_row
                          (zeros2 0 (Binomial.steps american + 1)
                             (Binomial.steps american + 1)) payoffs))
      by (apply shaped_set_last_row; [apply shaped_zeros2 | exact Hlen]).
    split; [exact Hshape |]. split; [exact Hshape |].
    intros i j. apply Rle_refl. }
  pose proof (backward_induction_dominated american european
                eq_refl eq_refl eq_refl eq_refl eq_refl Hqu Hqd Hdf
                (Binomial.build_stock_price_tree european) _ _ Hstart)
    as (_ & _ & Hle).
  rewrite Hstock. apply Hle.
Qed.

Lemma american_put_at_least_european_witness :
  exists american european t_am price_am t_eu price_eu,
    Binomial.init 50 52 1 0 2 None 0 true None 2
      (Some (1 / 2)) (Some (1 / 2)) true 1 = Ok american
    /\ Binomial.init 50 52 1 0 2 None 0 true None 2
         (Some (1 / 2)) (Some (1 / 2)) false 1 = Ok european
    /\ Binomial.price_option american "american" = Ok (t_am, price_am)
    /\ Binomial.price_option european "european" = Ok (t_eu, price_eu)
    /\ price_eu <= price_am.
Proof.
  pose proof (binomial_half_half 50 52 1 2 true None 2 true 1) as Ham.
  pose proof (binomial_half_half 50 52 1 2 true None 2 false 1) as Heu.
  assert (Hhalf : 0 <= 1 / 2) by lra.
  assert (Hone : 0 <= 1) by lra.
  destruct (american_put_at_least_european _ _ _ _ _ _ _ _ _ _ _ _ _ _
              Ham Heu Hhalf Hhalf Hone)
    as (t_am & price_am & t_eu & price_eu & Hpa & Hpe & Hle).
  do 6 eexists.
  split; [exact Ham |]. split; [exact Heu |].
  split; [exact Hpa |]. split; [exact Hpe | exact Hle].
Defined.

(** The two prices of that example, as the code computes them. *)
Example american_put_two_steps :
  exists american european t_am t_eu,
    Binomial.init 50 52 1 0 2 None 0 true None 2
      (Some (1 / 2)) (Some (1 / 2)) true 1 = Ok american
    /\ Binomial.init 50 52 1 0 2 None 0 true None 2
         (Some (1 / 2)) (Some (1 / 2)) false 1 = Ok european
    /\ Binomial.price_option american "american" = Ok (t_am, 79 / 2)
    /\ Binomial.price_option european "european" = Ok (t_eu, 137 / 8).
Proof.
  do 4 eexists.
  split; [apply binomial_half_half |]. split; [apply binomial_half_half |].
  split.
  - lattice_eval. rmax_eval. do 2 f_equal. lra.
  - lattice_eval. rmax_eval. do 2 f_equal. lra.
Qed.

(** ** Delta *)

(** The trinomial loop guards its division: what it stores is always a
    finite value, and 0 when the two adjacent prices coincide. *)
Lemma trinomial_delta_guarded (up down stock_up stock_down : R) :
  exists x,
    (if Req_dec_T stock_up stock_down then Fin 0
     else np_truediv (up - down) (stock_up - stock_down)) = Fin x
    /\ (stock_up = stock_down -> x = 0)
    /\ (stock_up <> stock_down -> x = (up - down) / (stock_up - stock_down)).
Proof.
  destruct (Req_dec_T stock_up stock_down) as [Heq | Hne].
  - exists 0. split; [reflexivity |]. split; intros H; [reflexivity | contradiction].
  - exists ((up - down) / (stock_up - stock_down)).
    unfold np_truediv.
    destruct (Req_dec_T (stock_up - stock_down) 0) as [H0 | _];
      [exfalso; apply Hne; lra |].
    split; [reflexivity |]. split; intros H; [contradiction | reflexivity].
Qed.

(** C9.  The code at a binomial model with S0 = 0 (one step, u = 3/2,
    d = 1/2): both child prices are 0, both child values are 0, and the
    unguarded numpy division stores nan in the delta lattice, where the
    claim wants 0. *)
Theorem binomial_delta_at_equal_prices :
  exists self t price,
    Binomial.init 0 100 1 0 1 None 0 false None 2
      (Some (1 / 2)) (Some (1 / 2)) false 1 = Ok self
    /\ Binomial.price_option self "european" = Ok (t, price)
    /\ get2 0 (Binomial.stock_price_tree t) 1 0
       = get2 0 (Binomial.stock_price_tree t) 1 1
    /\ get2 (Fin 0) (Binomial.delta_tree t) 0 0 = NaN.
Proof.
  do 3 eexists. split; [apply binomial_half_half |].
  split; [lattice_eval; reflexivity |].
  lattice_eval. split; [lra |].
  rmax_eval. decide_reals.
Qed.

(** ** End states *)

Section FillLoop.

Context {A : Type}.

Lemma set1_at_length (l1 l2 : list A) (z v : A) (k : nat) :
  length l1 = k -> set1 (l1 ++ z :: l2) k v = l1 ++ v :: l2.
Proof.
  intros <-. induction l1 as [| h t IH]; simpl; [reflexivity |].
  f_equal. exact IH.
Qed.

Lemma fill_prefix (f : nat -> A) (z : A) (n k : nat) :
  (k <= n)%nat ->
  fold_left (fun p i => set1 p i (f i)) (seq 0 k) (repeat z n)
  = map f (seq 0 k) ++ repeat z (n - k).
Proof.
  induction k as [| k IH]; intros Hk.
  - simpl. rewrite Nat.sub_0_r. reflexivity.
  - rewrite seq_S, fold_left_app, IH by lia. simpl.
    replace (n - k)%nat with (S (n - S k)) by lia. simpl.
    rewrite set1_at_length by (rewrite length_map, length_seq; reflexivity).
    rewrite map_app, <- app_assoc. reflexivity.
Qed.

(** A loop [for i in range(n): a[i] = f(i)] over a fresh array. *)
Lemma fill_loop (f : nat -> A) (z : A) (n : nat) :
  fold_left (fun p i => set1 p i (f i)) (range n) (zeros z n)
  = map f (range n).
Proof.
  unfold range, zeros. rewrite fill_prefix by lia.
  rewrite Nat.sub_diag. simpl. apply app_nil_r.
Qed.

End FillLoop.

Lemma total_app (p q : list R) : total (p ++ q) = total p + total q.
Proof.
  unfold total. induction p as [| x p IH]; simpl; [lra |].
  rewrite IH. lra.
Qed.

Lemma total_range (f : nat -> R) (n : nat) :
  total (map f (range (n + 1))) = sum_f_R0 f n.
Proof.
  unfold range. induction n as [| n IH].
  - simpl. lra.
  - replace (S n + 1)%nat with (S (n + 1)) by lia.
    rewrite seq_S, map_app, total_app, IH. simpl.
    replace (n + 1)%nat with (S n) by lia. lra.
Qed.

Lemma entry_below_total (p : list R) :
  Forall (fun x => 0 <= x) p -> Forall (fun x => x <= total p) p.
Proof.
  intros Hpos.
  assert (Htot : forall q, Forall (fun x => 0 <= x) q -> 0 <= total q).
  { induction 1 as [| x q Hx _ IH]; simpl; lra. }
  induction Hpos as [| x p Hx Hp IH]; constructor; simpl.
  - specialize (Htot p Hp). lra.
  - eapply Forall_impl; [| exact IH]. simpl. intros y Hy. lra.
Qed.

Lemma combos_binomial_coefficient (n k : nat) : Binomial.combos n k = C n k.
Proof.
  unfold Binomial.combos, C, factorial. f_equal. apply Rmult_comm.
Qed.

Lemma combos_nonneg (n k : nat) : 0 <= Binomial.combos n k.
Proof.
  unfold Binomial.combos, factorial.
  pose proof (INR_fact_lt_0 n). pose proof (INR_fact_lt_0 (n - k)).
  pose proof (INR_fact_lt_0 k).
  apply Rlt_le, Rdiv_lt_0_compat; [assumption |].
  apply Rmult_lt_0_compat; assumption.
Qed.

Lemma binomial_end_states_closed_form (self : Binomial.Binomialmodell) :
  Binomial.build_end_state_probabilities self
  = map (fun k =>
           Binomial.combos (Binomial.steps self) k * Binomial.qu self ^ k
           * Binomial.qd self ^ (Binomial.steps self - k))
      (range (Binomial.steps self + 1)).
Proof.
  unfold Binomial.build_end_state_probabilities. apply fill_loop.
Qed.

Lemma binomial_end_states_total (self : Binomial.Binomialmodell) :
  total (Binomial.build_end_state_probabilities self)
  = (Binomial.qu self + Binomial.qd self) ^ Binomial.steps self.
Proof.
  rewrite binomial_end_states_closed_form, total_range, binomial.
  apply sum_eq. intros k _. rewrite combos_binomial_coefficient. reflexivity.
Qed.

Lemma binomial_end_states_nonneg (self : Binomial.Binomialmodell) :
  0 <= Binomial.qu self -> 0 <= Binomial.qd self ->
  Forall (fun x => 0 <= x) (Binomial.build_end_state_probabilities self).
Proof.
  intros Hu Hd. rewrite binomial_end_states_closed_form.
  apply Forall_forall. intros x Hx. apply in_map_iff in Hx.
  destruct Hx as (k & <- & _).
  apply Rmult_le_pos; [apply Rmult_le_pos |].
  - apply combos_nonneg.
  - apply pow_le. assumption.
  - apply pow_le. assumption.
Qed.

Lemma binomial_init_full_tree_end_states (self : Binomial.Binomialmodell)
  (option_type : string) (t : Binomial.Trees) :
  Binomial.init_full_tree self option_type = Ok t ->
  Binomial.end_state_probabilities t
  = Binomial.build_end_state_probabilities self.
Proof.
  unfold Binomial.init_full_tree. intros H. inv_bind H.
  destruct (Binomial.backward_induction self _ _) as [opt delta].
  inversion H. reflexivity.
Qed.

Lemma state_eqb_eq (a b : state) : state_eqb a b = true -> a = b.
Proof.
  destruct a as [[a1 a2] a3], b as [[b1 b2] b3]. simpl. intros H.
  apply andb_prop in H. destruct H as [H H3].
  apply andb_prop in H. destruct H as [H1 H2].
  apply Nat.eqb_eq in H1, H2, H3. subst. reflexivity.
Qed.

Lemma dict_set_entries {V : Type} (P : state * V -> Prop)
  (d : list (state * V)) (k : state) (v : V) :
  Forall P d -> P (k, v) -> Forall P (dict_set d k v).
Proof.
  intros Hd Hkv. induction Hd as [| [k' v'] d Hk' Hd IH]; simpl.
  - constructor; [assumption | constructor].
  - destruct (state_eqb k' k) eqn:Heq.
    + apply state_eqb_eq in Heq. subst. constructor; assumption.
    + constructor; assumption.
Qed.

(** Whatever end states the tally finds, each is given the multinomial term
    of its own move counts. *)
Lemma trinomial_end_state_values (self : Trinomial.Trinomialmodell)
  (dist : list (state * R)) :
  Trinomial.calculate_end_state_probabilities self = Ok dist ->
  Forall (fun entry =>
            let '(up, mid, down, p) := entry in
            p = Trinomial.pu self ^ up * Trinomial.pm self ^ mid
                * Trinomial.pd self ^ down
                * (factorial (Trinomial.steps self)
                   / (factorial up * factorial mid * factorial down)))
    dist.
Proof.
  unfold Trinomial.calculate_end_state_probabilities.
  destruct (Trinomial.N self <? 0)%Z; [discriminate |].
  intros H. inversion H. clear H H1.
  apply fold_left_preserves; [| constructor].
  intros d [[[up mid] down] c] _ Hd. simpl fst.
  apply dict_set_entries; [assumption |]. reflexivity.
Qed.

Lemma trinomial_one_step_end_states (self : Trinomial.Trinomialmodell) :
  Trinomial.N self = 1%Z ->
  exists dist,
    Trinomial.calculate_end_state_probabilities self = Ok dist
    /\ keys dist = [(1, 0, 0); (0, 1, 0); (0, 0, 1)]%nat
    /\ values dist
       = [Trinomial.pu self; Trinomial.pm self; Trinomial.pd self].
Proof.
  intros HN. destruct self. simpl in HN. subst.
  eexists. split; [lattice_eval; reflexivity |].
  split; [reflexivity |].
  lattice_eval. repeat f_equal; lra.
Qed.

(** C1 (as amended).  Exact real arithmetic throughout.  Binomial model,
    any step count: the end-state vector has N + 1 entries that sum to 1,
    and each entry lies in [0, 1] when qu does.  Trinomial model: each end
    state of the returned mapping carries the multinomial term of its move
    counts; for N = 1 the end states are exactly (1,0,0), (0,1,0), (0,0,1)
    with probabilities pu, pm, pd, which sum to pu + pm + pd, so they sum
    to 1 and lie in [0, 1] when the three transition probabilities are
    non-negative and sum to 1. *)
Theorem end_state_distribution :
  (forall (S0 K T r : R) (N : Z) (sigma : option R) (div : R) (is_put : bool)
          (K2 : option R) (exponent : nat) (pu pd : option R) (is_am : bool)
          (payoff : R) (self : Binomial.Binomialmodell)
          (option_type : string) (t : Binomial.Trees),
      Binomial.init S0 K T r N sigma div is_put K2 exponent pu pd is_am payoff
      = Ok self ->
      Binomial.init_full_tree self option_type = Ok t ->
      length (Binomial.end_state_probabilities t)
      = (Binomial.steps self + 1)%nat
      /\ total (Binomial.end_state_probabilities t) = 1
      /\ (0 <= Binomial.qu self <= 1 ->
          Forall (fun p => 0 <= p <= 1) (Binomial.end_state_probabilities t)))
  /\
  (forall (self : Trinomial.Trinomialmodell) (dist : list (state * R)),
      Trinomial.calculate_end_state_probabilities self = Ok dist ->
      Forall (fun entry =>
                let '(up, mid, down, p) := entry in
                p = Trinomial.pu self ^ up * Trinomial.pm self ^ mid
                    * Trinomial.pd self ^ down
                    * (factorial (Trinomial.steps self)
                       / (factorial up * factorial mid * factorial down)))
        dist)
  /\
  (forall self : Trinomial.Trinomialmodell,
      Trinomial.N self = 1%Z ->
      exists dist,
        Trinomial.calculate_end_state_probabilities self = Ok dist
        /\ keys dist = [(1, 0, 0); (0, 1, 0); (0, 0, 1)]%nat
        /\ values dist
           = [Trinomial.pu self; Trinomial.pm self; Trinomial.pd self]
        /\ total (values dist)
           = Trinomial.pu self + Trinomial.pm self + Trinomial.pd self
        /\ (0 <= Trinomial.pu self -> 0 <= Trinomial.pm self ->
            0 <= Trinomial.pd self ->
            Trinomial.pu self + Trinomial.pm self + Trinomial.pd self = 1 ->
            total (values dist) = 1
            /\ Forall (fun p => 0 <= p <= 1) (values dist))).
Proof.
  split; [| split].
  - intros * Hinit Htree.
    pose proof (binomial_init_sum _ _ _ _ _ _ _ _ _ _ _ _ _ _ _ Hinit) as Hsum.
    rewrite (binomial_init_full_tree_end_states _ _ _ Htree).
    assert (Htotal : total (Binomial.build_end_state_probabilities self) = 1).
    { rewrite binomial_end_states_total, Hsum. apply pow1. }
    split; [| split].
    + rewrite binomial_end_states_closed_form, length_map.
      unfold range. apply length_seq.
    + exact Htotal.
    + intros [Hlo Hhi].
      assert (Hpos : Forall (fun x => 0 <= x)
                       (Binomial.build_end_state_probabilities self))
        by (apply binomial_end_states_nonneg; lra).
      pose proof (entry_below_total _ Hpos) as Hle. rewrite Htotal in Hle.
      rewrite Forall_forall in *. intros p Hp.
      split; [apply Hpos | apply Hle]; assumption.
  - exact trinomial_end_state_values.
  - intros self HN.
    destruct (trinomial_one_step_end_states self HN) as (dist & Hd & Hk & Hv).
    exists dist. rewrite Hv.
    split; [assumption |]. split; [assumption |]. split; [reflexivity |].
    split; [simpl; lra |].
    intros Hu Hm Hd' Hsum. split; [simpl; lra |].
    repeat (apply Forall_cons; [lra |]). apply Forall_nil.
Qed.

Lemma end_state_distribution_witness :
  exists self t,
    Binomial.init 100 100 1 0 2 None 0 false None 2
      (Some (1 / 2)) (Some (1 / 2)) false 1 = Ok self
    /\ Binomial.init_full_tree self "european" = Ok t
    /\ length (Binomial.end_state_probabilities t) = 3%nat
    /\ total (Binomial.end_state_probabilities t) = 1
    /\ Forall (fun p => 0 <= p <= 1) (Binomial.end_state_probabilities t).
Proof.
  pose proof (binomial_half_half 100 100 1 2 false None 2 false 1) as Hinit.
  match type of Hinit with
  | _ = Ok ?m =>
      assert (Htree : exists t,
                 Binomial.init_full_tree m "european"%string = Ok t)
        by (lattice_eval; eexists; reflexivity);
      destruct Htree as [t Htree];
      destruct (proj1 end_state_distribution _ _ _ _ _ _ _ _ _ _ _ _ _ _
                  m "european"%string t Hinit Htree)
        as (Hlen & Htotal & Hrange);
      exists m, t
  end.
  split; [exact Hinit |]. split; [exact Htree |].
  split; [exact Hlen |]. split; [exact Htotal |].
  apply Hrange. simpl. lra.
Defined.

(** C1, the claim as stated fails: a one-step trinomial model built from the
    direct parameters pu = pm = pd = 0.5 returns the probabilities 0.5, 0.5,
    0.5, whose sum is 1.5. *)
Lemma trinomial_end_states_unnormalised :
  exists self dist,
    Trinomial.init 100 100 1 0 1 None 0 false None
      (Some (1 / 2)) (Some (1 / 2)) (Some (1 / 2))
      (Some 2) (Some (1 / 2)) (Some 1) false 2 = Ok self
    /\ Trinomial.calculate_end_state_probabilities self = Ok dist
    /\ keys dist = [(1, 0, 0); (0, 1, 0); (0, 0, 1)]%nat
    /\ total (values dist) = 3 / 2
    /\ total (values dist) <> 1.
Proof.
  assert (H1 : 1%Z <> 0%Z) by discriminate.
  pose proof (trinomial_direct 100 100 1 1 false None
                (1 / 2) (1 / 2) (1 / 2) 2 (1 / 2) 1 false 2 H1) as Hinit.
  match type of Hinit with
  | _ = Ok ?m =>
      destruct (trinomial_one_step_end_states m eq_refl)
        as (dist & Hdist & Hkeys & Hvalues);
      exists m, dist
  end.
  split; [exact Hinit |]. split; [exact Hdist |]. split; [exact Hkeys |].
  rewrite Hvalues. simpl. split; lra.
Qed.

Lemma risk_neutral_above_one (e u : R) :
  1 < u -> u < e -> u - 1 / u <> 0 /\ 1 < (e - 1 / u) / (u - 1 / u).
Proof.
  intros Hu He.
  assert (Hd : 1 / u < 1).
  { assert (Hinv : u * (1 / u) = 1) by (field; lra).
    assert (0 < 1 / u) by (apply Rdiv_lt_0_compat; lra). nra. }
  split; [lra |].
  replace ((e - 1 / u) / (u - 1 / u)) with (1 + (e - u) / (u - 1 / u))
    by (field; split; nra).
  assert (0 < (e - u) / (u - 1 / u)) by (apply Rdiv_lt_0_compat; lra).
  lra.
Qed.

(** The binomial range condition is needed: on the volatility path a rate
    of 5% with a volatility of 1% gives qu > 1, and an end-state
    probability above 1. *)
Lemma binomial_end_state_above_one :
  exists self t p,
    Binomial.init 100 100 1 (1 / 20) 1 (Some (1 / 100)) 0 false None 2
      None None false 1 = Ok self
    /\ Binomial.init_full_tree self "european" = Ok t
    /\ 1 < Binomial.qu self
    /\ In p (Binomial.end_state_probabilities t)
    /\ 1 < p.
Proof.
  assert (Hdt : 1 / IZR (Z.max 1 1) = 1) by (change (Z.max 1 1) with 1%Z; lra).
  assert (Hu : 1 < exp (1 / 100 * sqrt (1 / IZR (Z.max 1 1)))).
  { rewrite Hdt, sqrt_1.
    pose proof (exp_increasing 0 (1 / 100 * 1)) as Hinc.
    rewrite exp_0 in Hinc. apply Hinc. lra. }
  assert (He : exp (1 / 100 * sqrt (1 / IZR (Z.max 1 1)))
               < exp ((1 / 20 - 0) * (1 / IZR (Z.max 1 1)))).
  { rewrite Hdt, sqrt_1. apply exp_increasing. lra. }
  destruct (risk_neutral_above_one _ _ Hu He) as [Hden Hqu].
  assert (Hinit : exists self,
             Binomial.init 100 100 1 (1 / 20) 1 (Some (1 / 100)) 0 false None
               2 None None false 1 = Ok self
             /\ Binomial.N self = 1%Z
             /\ 1 < Binomial.qu self).
  { unfold Binomial.init, Binomial.setup_parameters_with_sigma.
    rewrite truediv_ok by apply floored_steps_nonzero. simpl bind.
    rewrite math_sqrt_ok by (rewrite Hdt; lra). simpl bind.
    rewrite truediv_ok by (pose proof (exp_pos (1 / 100 * sqrt (1 / IZR (Z.max 1 1)))); lra).
    simpl bind.
    rewrite truediv_ok by exact Hden. simpl bind.
    eexists. split; [reflexivity |]. split; [reflexivity | exact Hqu]. }
  destruct Hinit as (self & Hinit & HN & Hq).
  destruct (binomial_vanilla_payoffs self "european" (or_introl eq_refl))
    as (payoffs & Hpay & _).
  destruct (binomial_terminal_row self "european" payoffs Hpay)
    as (t & Ht & _ & _).
  exists self, t, (Binomial.combos 1 1 * Binomial.qu self ^ 1 * Binomial.qd self ^ (1 - 1)).
  split; [exact Hinit |]. split; [exact Ht |]. split; [exact Hq |].
  split.
  - rewrite (binomial_init_full_tree_end_states _ _ _ Ht).
    rewrite binomial_end_states_closed_form.
    unfold Binomial.steps. rewrite HN. simpl. right. left. reflexivity.
  - unfold Binomial.combos, factorial. simpl. lra.
Qed.

Lemma count_zfill (c : ascii) (k : nat) (s : string) :
  count c (zfill k s)
  = ((if Ascii.eqb "0" c then k else 0) + count c s)%nat.
Proof.
  induction k as [| k IH]; cbn [zfill count].
  - destruct (Ascii.eqb "0" c); reflexivity.
  - rewrite IH. destruct (Ascii.eqb "0" c); lia.
Qed.

Lemma end_state_of_fourth_path (n : nat) :
  Trinomial.end_state_of_path (format_0o n 3) = ((n - 1)%nat, 0%nat, 0%nat).
Proof.
  unfold Trinomial.end_state_of_path, format_0o.
  change (oct 3) with "3"%string.
  rewrite !count_zfill.
  change (String.length "3") with 1%nat.
  change (count "0" "3") with 0%nat.
  change (count "1" "3") with 0%nat.
  change (count "2" "3") with 0%nat.
  change (Ascii.eqb "0" "0") with true.
  change (Ascii.eqb "0" "1") with false.
  change (Ascii.eqb "0" "2") with false.
  rewrite !Nat.add_0_r. reflexivity.
Qed.

Lemma state_eqb_refl (k : state) : state_eqb k k = true.
Proof.
  destruct k as [[a b] c]. simpl. rewrite !Nat.eqb_refl. reflexivity.
Qed.

Lemma dict_set_keeps_keys {V : Type} (d : list (state * V)) (k k' : state)
  (v : V) :
  In k' (keys d) -> In k' (keys (dict_set d k v)).
Proof.
  unfold keys. induction d as [| [k0 v0] d IH]; simpl; [tauto |].
  intros [<- | Hin]; destruct (state_eqb k0 k); simpl; auto.
Qed.

Lemma dict_set_has_key {V : Type} (d : list (state * V)) (k : state) (v : V) :
  In k (keys (dict_set d k v)).
Proof.
  unfold keys. induction d as [| [k0 v0] d IH]; simpl; [auto |].
  destruct (state_eqb k0 k) eqn:Heq; simpl.
  - left. apply state_eqb_eq. assumption.
  - right. assumption.
Qed.

Lemma fold_left_collects_keys {X V : Type} (key : X -> state)
  (step : list (state * V) -> X -> list (state * V)) (l : list X) :
  (forall d x, In (key x) (keys (step d x))) ->
  (forall d x k, In k (keys d) -> In k (keys (step d x))) ->
  forall d,
    (forall k, In k (keys d) -> In k (keys (fold_left step l d)))
    /\ (forall x, In x l -> In (key x) (keys (fold_left step l d))).
Proof.
  intros Hnew Hkeep. induction l as [| y l IH]; intros d; simpl.
  - split; [auto | contradiction].
  - destruct (IH (step d y)) as [IHkeep IHnew]. split.
    + intros k Hk. apply IHkeep, Hkeep. assumption.
    + intros x [<- | Hx]; [apply IHkeep, Hnew | apply IHnew; assumption].
Qed.

Lemma tally_paths_has_key (n i : nat) :
  (i < 3 ^ n)%nat ->
  In (Trinomial.end_state_of_path (format_0o n i)) (keys (Trinomial.tally_paths n)).
Proof.
  intros Hi. unfold Trinomial.tally_paths.
  match goal with
  | |- In _ (keys (fold_left ?f _ _)) => set (step := f)
  end.
  assert (Hnew : forall d x,
             In (Trinomial.end_state_of_path (format_0o n x))
               (keys (step d x))).
  { intros d x. subst step. cbv beta zeta.
    destruct (dict_get d _); apply dict_set_has_key. }
  assert (Hkeep : forall d x k, In k (keys d) -> In k (keys (step d x))).
  { intros d x k Hk. subst step. cbv beta zeta.
    destruct (dict_get d _); apply dict_set_keeps_keys; assumption. }
  apply (proj2 (fold_left_collects_keys _ step (range (3 ^ n)) Hnew Hkeep [])).
  apply in_range. assumption.
Qed.

Lemma end_state_keys_cover_tally (self : Trinomial.Trinomialmodell)
  (dist : list (state * R)) (k : state) :
  Trinomial.calculate_end_state_probabilities self = Ok dist ->
  In k (keys (Trinomial.tally_paths (Trinomial.steps self))) ->
  In k (keys dist).
Proof.
  unfold Trinomial.calculate_end_state_probabilities.
  destruct (Trinomial.N self <? 0)%Z; [discriminate |].
  intros H Hk. inversion H. clear H H1.
  unfold keys in Hk. apply in_map_iff in Hk. destruct Hk as (item & <- & Hitem).
  match goal with
  | |- In _ (keys (fold_left ?f _ _)) => set (step := f)
  end.
  assert (Hnew : forall d (x : state * nat), In (fst x) (keys (step d x)))
    by (intros d x; apply dict_set_has_key).
  assert (Hkeep : forall d (x : state * nat) k,
             In k (keys d) -> In k (keys (step d x)))
    by (intros d x k Hk; apply dict_set_keeps_keys; assumption).
  apply (proj2 (fold_left_collects_keys _ step _ Hnew Hkeep [])).
  assumption.
Qed.

(** For every N >= 2 the returned mapping has the key (N - 1, 0, 0). *)
Lemma end_states_hold_a_short_path (self : Trinomial.Trinomialmodell)
  (dist : list (state * R)) :
  (2 <= Trinomial.N self)%Z ->
  Trinomial.calculate_end_state_probabilities self = Ok dist ->
  In ((Trinomial.steps self - 1)%nat, 0%nat, 0%nat) (keys dist).
Proof.
  intros HN Hdist.
  apply (end_state_keys_cover_tally self dist _ Hdist).
  rewrite <- end_state_of_fourth_path.
  apply tally_paths_has_key.
  assert (Hsteps : (2 <= Trinomial.steps self)%nat)
    by (unfold Trinomial.steps; lia).
  pose proof (Nat.pow_le_mono_r 3 2 (Trinomial.steps self)) as Hpow.
  simpl in Hpow. lia.
Qed.

(** With one step the three octal digits 0, 1, 2 are the three moves, and
    the mapping is the multinomial distribution (listed in reverse). *)
Lemma end_states_of_one_step (self : Trinomial.Trinomialmodell) :
  Trinomial.N self = 1%Z ->
  exists dist,
    Trinomial.calculate_end_state_probabilities self = Ok dist
    /\ keys (rev dist)
       = keys (multinomial_distribution 1 (Trinomial.pu self)
                 (Trinomial.pm self) (Trinomial.pd self))
    /\ values (rev dist)
       = values (multinomial_distribution 1 (Trinomial.pu self)
                   (Trinomial.pm self) (Trinomial.pd self)).
Proof.
  intros HN. destruct self. simpl in HN. subst.
  eexists. split; [lattice_eval; reflexivity |].
  split; [reflexivity |].
  lattice_eval. repeat (apply f_equal2; [lra |]). reflexivity.
Qed.

(** C6.  The code at N = 2: the nine paths are written in octal
    ([format(i, '02o')] gives 00 .. 07, 10), so digits 3 to 7 are counted as
    no move at all.  The mapping returned has four keys, among them
    (1, 0, 0) whose counts do not sum to 2, and lacks (0, 2, 0), (0, 1, 1)
    and (0, 0, 2), which the multinomial distribution has. *)
Theorem end_states_of_two_steps :
  exists self dist,
    Trinomial.init 100 100 1 0 2 None 0 false None
      (Some (1 / 4)) (Some (1 / 4)) (Some (1 / 2))
      (Some 2) (Some (1 / 2)) (Some 1) false 2 = Ok self
    /\ Trinomial.calculate_end_state_probabilities self = Ok dist
    /\ keys dist = [(2, 0, 0); (1, 1, 0); (1, 0, 1); (1, 0, 0)]%nat
    /\ dict_get dist (1, 0, 0)%nat = Some (1 / 2)
    /\ dict_get dist (0, 0, 2)%nat = None
    /\ keys (multinomial_distribution 2 (1 / 4) (1 / 2) (1 / 4))
       = [(0, 0, 2); (0, 1, 1); (0, 2, 0); (1, 0, 1); (1, 1, 0); (2, 0, 0)]%nat
    /\ dict_get (multinomial_distribution 2 (1 / 4) (1 / 2) (1 / 4))
         (0, 0, 2)%nat = Some (1 / 16).
Proof.
  assert (H2 : 2%Z <> 0%Z) by discriminate.
  do 2 eexists.
  split; [apply (trinomial_direct _ _ _ _ _ _ _ _ _ _ _ _ _ _ H2) |].
  split; [lattice_eval; reflexivity |].
  split; [reflexivity |].
  split; [lattice_eval; f_equal; lra |].
  split; [reflexivity |].
  split; [reflexivity |].
  lattice_eval. f_equal. lra.
Qed.

(** * The lattices, node by node *)

(** ** Loop nests *)

Section Sweep.

Context {A : Type} (z : A).

Lemma sweep_row_spec (f : list (list A) -> nat -> A) (i : nat) (l : list nat) :
  (forall a1 a2, (forall k, k <> i -> nth k a1 [] = nth k a2 []) ->
                 forall j, f a1 j = f a2 j) ->
  forall a,
    (i < length a)%nat ->
    (forall j, In j l -> (j < length (nth i a []))%nat) ->
    let a' := fold_left (fun a j => set2 a i j (f a j)) l a in
    length a' = length a
    /\ (forall k, length (nth k a' []) = length (nth k a []))
    /\ (forall k, k <> i -> nth k a' [] = nth k a [])
    /\ (forall j, In j l -> get2 z a' i j = f a j)
    /\ (forall j, ~ In j l -> get2 z a' i j = get2 z a i j).
Proof.
  intros Hlocal. induction l as [| j0 l IH]; intros a Hi Hl; simpl.
  - repeat split; auto. intros j [].
  - set (a1 := set2 a i j0 (f a j0)).
    assert (Hrows1 : forall k, k <> i -> nth k a1 [] = nth k a [])
      by (intros k Hk; apply row_set2_other; auto).
    assert (Hf1 : forall j, f a1 j = f a j)
      by (apply Hlocal; assumption).
    destruct (IH a1) as (Hlen & Hwidth & Hrows & Hin & Hout).
    { unfold a1. rewrite length_set2. assumption. }
    { intros j Hj. unfold a1. rewrite row_length_set2. apply Hl. right.
      assumption. }
    split; [rewrite Hlen; apply length_set2 |].
    split; [intros k; rewrite Hwidth; apply row_length_set2 |].
    split; [intros k Hk; rewrite Hrows by assumption; apply Hrows1; assumption |].
    split.
    + intros j Hj. destruct (in_dec Nat.eq_dec j l) as [Hjl | Hjl].
      * rewrite Hin by assumption. apply Hf1.
      * destruct Hj as [<- | Hj]; [| contradiction].
        rewrite Hout by assumption. unfold a1.
        apply get2_set2_same; [assumption | apply Hl; left; reflexivity].
    + intros j Hj. rewrite Hout by (intros H; apply Hj; right; assumption).
      unfold a1. apply get2_set2_other. right. intros ->. apply Hj. left.
      reflexivity.
Qed.

Lemma sweep_spec (dep : nat -> nat -> Prop) (cols : nat -> list nat)
  (F : list (list A) -> nat -> nat -> A) (rows : list nat) :
  (forall i a1 a2, In i rows ->
                   (forall k, dep i k -> nth k a1 [] = nth k a2 []) ->
                   forall j, F a1 i j = F a2 i j) ->
  ordered dep rows ->
  forall a,
    (forall i, In i rows ->
               (i < length a)%nat
               /\ forall j, In j (cols i) -> (j < length (nth i a []))%nat) ->
    let a' := sweep cols F rows a in
    length a' = length a
    /\ (forall k, length (nth k a' []) = length (nth k a []))
    /\ (forall k, ~ In k rows -> nth k a' [] = nth k a [])
    /\ (forall i j, In i rows -> In j (cols i) -> get2 z a' i j = F a' i j)
    /\ (forall i j, In i rows -> ~ In j (cols i) ->
                    get2 z a' i j = get2 z a i j).
Proof.
  induction rows as [| i rows IH]; intros Hlocal Hord a Hbounds; simpl.
  - repeat split; auto; intros ? ? [].
  - destruct Hord as (Hdep & Hnotin & Hord).
    assert (Hlocal' : forall i' a1 a2, In i' rows ->
              (forall k, dep i' k -> nth k a1 [] = nth k a2 []) ->
              forall j, F a1 i' j = F a2 i' j)
      by (intros i' a1 a2 Hi'; apply Hlocal; right; assumption).
    specialize (IH Hlocal').
    specialize (Hlocal i).
    set (a1 := fold_left (fun a j => set2 a i j (F a i j)) (cols i) a).
    destruct (Hbounds i (or_introl eq_refl)) as [Hi Hcols].
    destruct (sweep_row_spec (fun a j => F a i j) i (cols i)) with (a := a)
      as (Hlen1 & Hwidth1 & Hrows1 & Hin1 & Hout1); try assumption.
    { intros b1 b2 Hb. apply Hlocal; [left; reflexivity |].
      intros k Hk. apply Hb. apply (Hdep k). assumption. }
    fold a1 in Hlen1, Hwidth1, Hrows1, Hin1, Hout1.
    destruct (IH Hord a1) as (Hlen & Hwidth & Hrows & Hin & Hout).
    { intros i' Hi'. destruct (Hbounds i' (or_intror Hi')) as [Hb1 Hb2].
      rewrite Hlen1. split; [assumption |].
      intros j Hj. rewrite Hwidth1. apply Hb2. assumption. }
    fold (sweep cols F rows a1) in *.
    set (a' := sweep cols F rows a1) in *.
    split; [congruence |].
    split; [intros k; rewrite Hwidth; apply Hwidth1 |].
    split.
    { intros k Hk. rewrite Hrows by tauto. apply Hrows1. intros ->. tauto. }
    assert (Hrowi : nth i a' [] = nth i a1 []) by (apply Hrows; assumption).
    split.
    + intros i' j [<- | Hi'] Hj.
      * unfold get2 at 1. rewrite Hrowi. fold (get2 z a1 i j).
        rewrite Hin1 by assumption. apply Hlocal; [left; reflexivity |].
        intros k Hk. destruct (Hdep k Hk) as [Hki Hkrows].
        rewrite Hrows by assumption. symmetry. apply Hrows1. assumption.
      * apply Hin; assumption.
    + intros i' j [<- | Hi'] Hj.
      * unfold get2 at 1. rewrite Hrowi. fold (get2 z a1 i j).
        apply Hout1. assumption.
      * rewrite Hout by assumption. unfold get2.
        rewrite Hrows1; [reflexivity |]. intros ->. contradiction.
Qed.

End Sweep.

Lemma range_down_succ (n : nat) : range_down (S n) = n :: range_down n.
Proof. unfold range_down. rewrite seq_S, rev_app_distr. reflexivity. Qed.

Lemma ordered_range_down (n : nat) :
  ordered (fun i k => k = (i + 1)%nat) (range_down n).
Proof.
  induction n as [| n IH]; [exact I |].
  rewrite range_down_succ. simpl. split; [| split; [| exact IH]].
  - intros k ->. split; [lia |]. rewrite in_range_down. lia.
  - rewrite in_range_down. lia.
Qed.

Lemma ordered_seq (dep : nat -> nat -> Prop) (len start : nat) :
  (forall i k, dep i k -> (k < i)%nat) ->
  ordered dep (seq start len).
Proof.
  intros Hdep. revert start. induction len as [| len IH]; intros start; [exact I |].
  simpl. split; [| split; [| apply IH]].
  - intros k Hk. apply Hdep in Hk. split; [lia |]. rewrite in_seq. lia.
  - rewrite in_seq. lia.
Qed.

(** ** The binomial lattices as sweeps *)

Lemma fold_left_fst {S1 S2 X : Type} (step : S1 * S2 -> X -> S1 * S2)
  (step1 : S1 -> X -> S1) (l : list X) :
  (forall st x, fst (step st x) = step1 (fst st) x) ->
  forall st, fst (fold_left step l st) = fold_left step1 l (fst st).
Proof.
  intros Hstep. induction l as [| x l IH]; intros st; simpl; [reflexivity |].
  rewrite IH, Hstep. reflexivity.
Qed.

Lemma get2_zeros2 {A : Type} (z : A) (rows cols i j : nat) :
  get2 z (zeros2 z rows cols) i j = z.
Proof.
  unfold get2, zeros2.
  destruct (Nat.lt_ge_cases i rows) as [Hi | Hi].
  - rewrite nth_repeat_lt by assumption.
    destruct (Nat.lt_ge_cases j cols) as [Hj | Hj].
    + apply nth_repeat_lt. assumption.
    + apply nth_overflow. rewrite repeat_length. assumption.
  - rewrite (nth_overflow (repeat _ _)) by (rewrite repeat_length; assumption).
    destruct j; reflexivity.
Qed.

Lemma binomial_stock_is_sweep (self : Binomial.Binomialmodell) :
  Binomial.build_stock_price_tree self
  = sweep (fun i => range (i + 1))
      (fun _ i j =>
         Binomial.S0 self * Binomial.u self ^ (i - j) * Binomial.d self ^ j)
      (range (Binomial.steps self + 1))
      (zeros2 0 (Binomial.steps self + 1) (Binomial.steps self + 1)).
Proof. reflexivity. Qed.

(** The price lattice in closed form. *)
Lemma binomial_stock_price_at (self : Binomial.Binomialmodell)
  (i j : nat) :
  (i <= Binomial.steps self)%nat ->
  get2 0 (Binomial.build_stock_price_tree self) i j
  = if (j <=? i)%nat
    then Binomial.S0 self * Binomial.u self ^ (i - j) * Binomial.d self ^ j
    else 0.
Proof.
  intros Hi. rewrite binomial_stock_is_sweep.
  set (n := Binomial.steps self) in *.
  destruct (sweep_spec 0 (fun _ _ => False) (fun i => range (i + 1))
              (fun _ i j =>
                 Binomial.S0 self * Binomial.u self ^ (i - j)
                 * Binomial.d self ^ j)
              (range (n + 1)))
    with (a := zeros2 0 (n + 1) (n + 1))
    as (_ & _ & _ & Hin & Hout).
  - intros; reflexivity.
  - apply ordered_seq. intros ? ? [].
  - intros i' Hi'. apply in_range in Hi'.
    rewrite length_zeros2, row_zeros2 by assumption. rewrite repeat_length.
    split; [assumption |]. intros j' Hj'. apply in_range in Hj'. lia.
  - destruct (Nat.leb_spec j i) as [Hj | Hj].
    + apply Hin; apply in_range; lia.
    + rewrite Hout; [apply get2_zeros2 | apply in_range; lia |].
      rewrite in_range. lia.
Qed.

Lemma binomial_backward_node_fst (self : Binomial.Binomialmodell)
  (stock : list (list R)) (st : list (list R) * list (list float64))
  (i j : nat) :
  fst (Binomial.backward_node self stock st i j)
  = set2 (fst st) i j (binomial_node_value self stock (fst st) i j).
Proof.
  destruct st as [opt delta]. unfold Binomial.backward_node,
    binomial_node_value. simpl.
  destruct (Binomial.is_am self); reflexivity.
Qed.

Lemma binomial_backward_is_sweep (self : Binomial.Binomialmodell)
  (stock : list (list R)) (st : list (list R) * list (list float64)) :
  fst (Binomial.backward_induction self stock st)
  = sweep (fun i => range (i + 1)) (binomial_node_value self stock)
      (range_down (Binomial.steps self)) (fst st).
Proof.
  unfold Binomial.backward_induction, sweep.
  apply fold_left_fst. intros st' i.
  apply (fold_left_fst
           (fun st0 j => Binomial.backward_node self stock st0 i j)
           (fun a j => set2 a i j (binomial_node_value self stock a i j))).
  intros st'' j. apply binomial_backward_node_fst.
Qed.

Lemma binomial_node_value_local (self : Binomial.Binomialmodell)
  (stock a1 a2 : list (list R)) (i : nat) :
  (forall k, k = (i + 1)%nat -> nth k a1 [] = nth k a2 []) ->
  forall j, binomial_node_value self stock a1 i j
            = binomial_node_value self stock a2 i j.
Proof.
  intros H j. unfold binomial_node_value, get2.
  rewrite (H (i + 1)%nat eq_refl). reflexivity.
Qed.

(** The option lattice [init_full_tree] leaves behind, node by node. *)
Lemma binomial_final_lattice (self : Binomial.Binomialmodell)
  (stock : list (list R)) (payoffs : list R) (delta0 : list (list float64)) :
  length payoffs = (Binomial.steps self + 1)%nat ->
  let n := Binomial.steps self in
  let opt :=
    fst (Binomial.backward_induction self stock
           (set_last_row (zeros2 0 (n + 1) (n + 1)) payoffs, delta0)) in
  shaped (n + 1) (n + 1) opt
  /\ nth n opt [] = payoffs
  /\ (forall i j, (i < n)%nat -> (j <= i)%nat ->
                  get2 0 opt i j = binomial_node_value self stock opt i j)
  /\ (forall i j, (i < n)%nat -> (i < j)%nat -> get2 0 opt i j = 0).
Proof.
  intros Hlen n opt.
  assert (Hstart : shaped (n + 1) (n + 1)
                     (set_last_row (zeros2 0 (n + 1) (n + 1)) payoffs))
    by (apply shaped_set_last_row; [apply shaped_zeros2 | exact Hlen]).
  destruct Hstart as [Hrows Hcols].
  assert (Hrow_n : nth n (set_last_row (zeros2 0 (n + 1) (n + 1)) payoffs) []
                   = payoffs)
    by (apply row_set_last_row_at, length_zeros2).
  subst opt. rewrite binomial_backward_is_sweep. simpl fst.
  change (Binomial.steps self) with n.
  destruct (sweep_spec 0 (fun i k => k = (i + 1)%nat)
              (fun i => range (i + 1)) (binomial_node_value self stock)
              (range_down n))
    with (a := set_last_row (zeros2 0 (n + 1) (n + 1)) payoffs)
    as (Hlen' & Hwidth' & Hkeep & Hin & Hout).
  - intros i a1 a2 _ H. apply binomial_node_value_local. assumption.
  - apply ordered_range_down.
  - intros i Hi. apply in_range_down in Hi. rewrite Hrows, Hcols by lia.
    split; [lia |]. intros j Hj. apply in_range in Hj. lia.
  - split; [split |].
    + rewrite Hlen'. exact Hrows.
    + intros k Hk. rewrite Hwidth'. apply Hcols. assumption.
    + split; [| split].
      * rewrite Hkeep; [exact Hrow_n |]. rewrite in_range_down. lia.
      * intros i j Hi Hj. apply Hin; [apply in_range_down | apply in_range]; lia.
      * intros i j Hi Hj.
        rewrite Hout; [| apply in_range_down; lia | rewrite in_range; lia].
        unfold set_last_row, get2.
        rewrite nth_set1_other by (rewrite length_zeros2; lia).
        apply get2_zeros2.
Qed.

(** ** The binomial calibration *)

Lemma binomial_init_fields S0 K T r N sigma div is_put K2 exponent pu pd is_am
  payoff (self : Binomial.Binomialmodell) :
  Binomial.init S0 K T r N sigma div is_put K2 exponent pu pd is_am payoff
  = Ok self ->
  exists c,
    match sigma with
    | Some s => Binomial.setup_parameters_with_sigma T r (Z.max 1 N) s div
    | None => Binomial.setup_parameters_without_sigma T r (Z.max 1 N) div pu pd
    end = Ok c
    /\ self = Binomial.mkBinomialmodell S0 K
                (match K2 with Some k2 => k2 | None => K end) r T (Z.max 1 N)
                div sigma is_put (negb is_put) exponent is_am payoff
                (Binomial.c_dt c) (Binomial.c_df c) (Binomial.c_u c)
                (Binomial.c_d c) (Binomial.c_qu c) (Binomial.c_qd c).
Proof.
  unfold Binomial.init. intros H. inv_bind H. inversion H. eauto.
Qed.

Lemma binomial_calibration_facts (c : Binomial.Calibration) T r N div sigma
  pu pd :
  match sigma with
  | Some s => Binomial.setup_parameters_with_sigma T r N s div
  | None => Binomial.setup_parameters_without_sigma T r N div pu pd
  end = Ok c ->
  IZR N <> 0
  /\ Binomial.c_dt c = T / IZR N
  /\ Binomial.c_df c = exp (- (r - div) * Binomial.c_dt c)
  /\ Binomial.c_u c <> Binomial.c_d c
  /\ Binomial.c_qu c
     = (exp ((r - div) * Binomial.c_dt c) - Binomial.c_d c)
       / (Binomial.c_u c - Binomial.c_d c)
  /\ Binomial.c_qd c = 1 - Binomial.c_qu c
  /\ match sigma with
     | Some s => 0 <= Binomial.c_dt c
                 /\ Binomial.c_u c = exp (s * sqrt (Binomial.c_dt c))
                 /\ Binomial.c_d c = 1 / Binomial.c_u c
     | None => Some (Binomial.c_u c - 1) = pu /\ Some (1 - Binomial.c_d c) = pd
     end.
Proof.
  destruct sigma as [s |]; intros H.
  - unfold Binomial.setup_parameters_with_sigma in H.
    do 4 inv_bind H. inversion H; subst; simpl. clear H.
    apply truediv_inv in Ha. destruct Ha as [HN ->].
    apply truediv_inv in Ha2. destruct Ha2 as [Hden ->].
    apply truediv_inv in Ha1. destruct Ha1 as [Hu ->].
    unfold math_sqrt in Ha0. destruct (Rlt_dec (T / IZR N) 0); [discriminate |].
    inversion Ha0; subst.
    repeat split; try reflexivity; try assumption; lra.
  - unfold Binomial.setup_parameters_without_sigma in H.
    do 4 inv_bind H. inversion H; subst; simpl. clear H.
    apply truediv_inv in Ha. destruct Ha as [HN ->].
    apply truediv_inv in Ha2. destruct Ha2 as [Hden ->].
    destruct pu as [pu' |]; [| discriminate].
    destruct pd as [pd' |]; [| discriminate].
    inversion Ha0; inversion Ha1; subst.
    repeat split; try reflexivity; try assumption; try lra;
      f_equal; lra.
Qed.

(** One step is a martingale after discounting. *)
Lemma binomial_one_step_martingale (c : Binomial.Calibration) T r N div sigma
  pu pd :
  match sigma with
  | Some s => Binomial.setup_parameters_with_sigma T r N s div
  | None => Binomial.setup_parameters_without_sigma T r N div pu pd
  end = Ok c ->
  Binomial.c_df c
  * (Binomial.c_qu c * Binomial.c_u c + Binomial.c_qd c * Binomial.c_d c) = 1.
Proof.
  intros H. apply binomial_calibration_facts in H.
  destruct H as (_ & _ & Hdf & Hne & Hqu & Hqd & _).
  set (e := exp ((r - div) * Binomial.c_dt c)) in *.
  assert (Hdrift : Binomial.c_qu c * Binomial.c_u c
                   + Binomial.c_qd c * Binomial.c_d c = e).
  { rewrite Hqd, Hqu. field. lra. }
  rewrite Hdrift, Hdf. unfold e. rewrite <- exp_plus.
  replace (- (r - div) * Binomial.c_dt c + (r - div) * Binomial.c_dt c)
    with 0 by ring.
  apply exp_0.
Qed.

Lemma exp_pow_nat (x : R) (n : nat) : exp x ^ n = exp (INR n * x).
Proof.
  induction n as [| n IH].
  - simpl. rewrite Rmult_0_l, exp_0. reflexivity.
  - rewrite S_INR. simpl pow. rewrite IH, <- exp_plus. f_equal. ring.
Qed.

Lemma binomial_payoffs_length (self : Binomial.Binomialmodell)
  (stock : list (list R)) (option_type : string) (payoffs : list R) :
  Binomial.calculate_payoffs self stock option_type = Ok payoffs ->
  length payoffs = length (last_row stock).
Proof.
  unfold Binomial.calculate_payoffs.
  destruct (_ || _)%bool.
  { destruct (Binomial.is_call self); intros H; inversion H;
      apply length_map. }
  destruct (String.eqb option_type "digital").
  { destruct (Binomial.is_put self); intros H; inversion H;
      apply length_map. }
  destruct (String.eqb option_type "power").
  { destruct (Binomial.is_put self); intros H; inversion H;
      apply length_map. }
  destruct (String.eqb option_type "strangle"); [| discriminate].
  intros H. inversion H. rewrite np_add_map. apply length_map.
Qed.

Lemma binomial_last_row_width (self : Binomial.Binomialmodell) :
  last_row (Binomial.build_stock_price_tree self)
  = nth (Binomial.steps self) (Binomial.build_stock_price_tree self) []
  /\ length (last_row (Binomial.build_stock_price_tree self))
     = (Binomial.steps self + 1)%nat.
Proof.
  destruct (binomial_stock_shaped self) as [Hlen Hrows].
  rewrite last_row_nth, Hlen.
  replace (Binomial.steps self + 1 - 1)%nat with (Binomial.steps self) by lia.
  split; [reflexivity | apply Hrows; lia].
Qed.

(** Everything [price_option] leaves behind when the payoff family is
    known. *)
Lemma binomial_priced (self : Binomial.Binomialmodell) (option_type : string)
  (payoffs : list R) :
  Binomial.calculate_payoffs self (Binomial.build_stock_price_tree self)
    option_type = Ok payoffs ->
  let n := Binomial.steps self in
  exists t,
    Binomial.price_option self option_type
    = Ok (t, get2 0 (Binomial.option_price_tree t) 0 0)
    /\ Binomial.stock_price_tree t = Binomial.build_stock_price_tree self
    /\ shaped (n + 1) (n + 1) (Binomial.option_price_tree t)
    /\ nth n (Binomial.option_price_tree t) [] = payoffs
    /\ (forall i j, (i < n)%nat -> (j <= i)%nat ->
          get2 0 (Binomial.option_price_tree t) i j
          = binomial_node_value self (Binomial.stock_price_tree t)
              (Binomial.option_price_tree t) i j)
    /\ (forall i j, (i < n)%nat -> (i < j)%nat ->
          get2 0 (Binomial.option_price_tree t) i j = 0).
Proof.
  intros Hpay n.
  assert (Hlen : length payoffs = (n + 1)%nat).
  { rewrite (binomial_payoffs_length _ _ _ _ Hpay).
    apply binomial_last_row_width. }
  pose proof (binomial_final_lattice self
                (Binomial.build_stock_price_tree self) payoffs
                (zeros2 (Fin 0) n n) Hlen) as Hfinal.
  unfold Binomial.price_option, Binomial.init_full_tree.
  rewrite Hpay. simpl bind. fold n.
  fold n in Hfinal. simpl in Hfinal.
  destruct (Binomial.backward_induction self _ _) as [opt delta].
  simpl in Hfinal. simpl.
  exists (Binomial.mkTrees (Binomial.build_stock_price_tree self) opt delta
            (Binomial.build_end_state_probabilities self)).
  split; [reflexivity |]. split; [reflexivity |]. exact Hfinal.
Qed.

(** ** Put-call parity on the binomial lattice *)

Lemma level_induction (n : nat) (P : nat -> nat -> Prop) :
  (forall j, (j <= n)%nat -> P n j) ->
  (forall i, (i < n)%nat ->
             (forall j, (j <= i + 1)%nat -> P (i + 1)%nat j) ->
             forall j, (j <= i)%nat -> P i j) ->
  forall i j, (i <= n)%nat -> (j <= i)%nat -> P i j.
Proof.
  intros Hbase Hstep.
  assert (H : forall m i, (i + m = n)%nat -> forall j, (j <= i)%nat -> P i j).
  { induction m as [| m IH]; intros i Him j Hj.
    - replace i with n by lia. apply Hbase. lia.
    - apply Hstep; [lia | | assumption].
      intros j' Hj'. apply IH; lia. }
  intros i j Hi Hj. apply (H (n - i)%nat); [lia | assumption].
Qed.

Lemma binomial_stock_children (self : Binomial.Binomialmodell) (i j : nat) :
  (i < Binomial.steps self)%nat -> (j <= i)%nat ->
  let stock := Binomial.build_stock_price_tree self in
  get2 0 stock (i + 1) j = Binomial.u self * get2 0 stock i j
  /\ get2 0 stock (i + 1) (j + 1) = Binomial.d self * get2 0 stock i j.
Proof.
  intros Hi Hj stock. subst stock.
  rewrite !binomial_stock_price_at by lia.
  destruct (Nat.leb_spec j (i + 1)); [| lia].
  destruct (Nat.leb_spec (j + 1) (i + 1)); [| lia].
  destruct (Nat.leb_spec j i); [| lia].
  replace (i + 1 - j)%nat with (S (i - j)) by lia.
  replace (i + 1 - (j + 1))%nat with (i - j)%nat by lia.
  replace (j + 1)%nat with (S j) by lia.
  simpl. split; ring.
Qed.

Lemma binomial_terminal_of_priced (self : Binomial.Binomialmodell)
  (f : R -> R) (t : Binomial.Trees) :
  Binomial.stock_price_tree t = Binomial.build_stock_price_tree self ->
  nth (Binomial.steps self) (Binomial.option_price_tree t) []
  = map f (last_row (Binomial.build_stock_price_tree self)) ->
  forall j, (j <= Binomial.steps self)%nat ->
    get2 0 (Binomial.option_price_tree t) (Binomial.steps self) j
    = f (get2 0 (Binomial.stock_price_tree t) (Binomial.steps self) j).
Proof.
  intros Hstock Hrow j Hj.
  destruct (binomial_last_row_width self) as [Hlast Hwidth].
  unfold get2. rewrite Hrow, Hstock, <- Hlast.
  apply nth_map_in_range. lia.
Qed.

Lemma vanilla_difference (k s : R) : Rmax 0 (s - k) - Rmax 0 (k - s) = s - k.
Proof.
  unfold Rmax. destruct (Rle_dec 0 (s - k)), (Rle_dec 0 (k - s)); lra.
Qed.

Section EuropeanPair.

(** A call and a put of European style over one calibration. *)
Variables call put : Binomial.Binomialmodell.

Hypothesis same_N : Binomial.N call = Binomial.N put.
Hypothesis same_S0 : Binomial.S0 call = Binomial.S0 put.
Hypothesis same_K : Binomial.K call = Binomial.K put.
Hypothesis same_u : Binomial.u call = Binomial.u put.
Hypothesis same_d : Binomial.d call = Binomial.d put.
Hypothesis same_qu : Binomial.qu call = Binomial.qu put.
Hypothesis same_qd : Binomial.qd call = Binomial.qd put.
Hypothesis same_df : Binomial.df call = Binomial.df put.
Hypothesis call_side : Binomial.is_call call = true.
Hypothesis put_side : Binomial.is_call put = false.
Hypothesis call_european : Binomial.is_am call = false.
Hypothesis put_european : Binomial.is_am put = false.
Hypothesis probabilities : Binomial.qu call + Binomial.qd call = 1.

Lemma pair_steps : Binomial.steps call = Binomial.steps put.
Proof. unfold Binomial.steps. rewrite same_N. reflexivity. Qed.

Lemma pair_stock :
  Binomial.build_stock_price_tree call = Binomial.build_stock_price_tree put.
Proof.
  unfold Binomial.build_stock_price_tree.
  rewrite pair_steps, same_S0, same_u, same_d. reflexivity.
Qed.

Lemma put_call_parity_lattice :
  exists t_call t_put,
    Binomial.price_option call "european"
    = Ok (t_call, get2 0 (Binomial.option_price_tree t_call) 0 0)
    /\ Binomial.price_option put "european"
       = Ok (t_put, get2 0 (Binomial.option_price_tree t_put) 0 0)
    /\ forall i j, (i <= Binomial.steps call)%nat -> (j <= i)%nat ->
         get2 0 (Binomial.option_price_tree t_call) i j
         - get2 0 (Binomial.option_price_tree t_put) i j
         = get2 0 (Binomial.build_stock_price_tree call) i j
           * (Binomial.df call
              * (Binomial.qu call * Binomial.u call
                 + Binomial.qd call * Binomial.d call))
             ^ (Binomial.steps call - i)
           - Binomial.K call * Binomial.df call ^ (Binomial.steps call - i).
Proof.
  assert (Hpc : Binomial.calculate_payoffs call
                  (Binomial.build_stock_price_tree call) "european"
                = Ok (map (fun s => Rmax 0 (s - Binomial.K call))
                        (last_row (Binomial.build_stock_price_tree call)))).
  { unfold Binomial.calculate_payoffs. simpl. rewrite call_side. reflexivity. }
  assert (Hpp : Binomial.calculate_payoffs put
                  (Binomial.build_stock_price_tree put) "european"
                = Ok (map (fun s => Rmax 0 (Binomial.K put - s))
                        (last_row (Binomial.build_stock_price_tree put)))).
  { unfold Binomial.calculate_payoffs. simpl. rewrite put_side. reflexivity. }
  destruct (binomial_priced call "european" _ Hpc)
    as (tc & Hprice_c & Hstock_c & _ & Hrow_c & Hrec_c & _).
  destruct (binomial_priced put "european" _ Hpp)
    as (tp & Hprice_p & Hstock_p & _ & Hrow_p & Hrec_p & _).
  exists tc, tp. split; [exact Hprice_c |]. split; [exact Hprice_p |].
  pose proof (binomial_terminal_of_priced call _ tc Hstock_c Hrow_c) as Hterm_c.
  pose proof (binomial_terminal_of_priced put _ tp Hstock_p Hrow_p) as Hterm_p.
  set (n := Binomial.steps call) in *.
  assert (Hn : Binomial.steps put = n) by (symmetry; apply pair_steps).
  rewrite Hn in *.
  apply (level_induction n
           (fun i j =>
              get2 0 (Binomial.option_price_tree tc) i j
              - get2 0 (Binomial.option_price_tree tp) i j
              = get2 0 (Binomial.build_stock_price_tree call) i j
                * (Binomial.df call
                   * (Binomial.qu call * Binomial.u call
                      + Binomial.qd call * Binomial.d call)) ^ (n - i)
                - Binomial.K call * Binomial.df call ^ (n - i))).
  - intros j Hj. rewrite Hterm_c, Hterm_p by assumption.
    rewrite Hstock_c, Hstock_p, <- pair_stock, <- same_K.
    rewrite vanilla_difference, Nat.sub_diag. simpl. ring.
  - intros i Hi IH j Hj.
    rewrite Hrec_c, Hrec_p by assumption.
    unfold binomial_node_value. rewrite call_european, put_european.
    rewrite <- same_qu, <- same_qd, <- same_df.
    pose proof (IH j ltac:(lia)) as IH1.
    pose proof (IH (j + 1)%nat ltac:(lia)) as IH2.
    destruct (binomial_stock_children call i j Hi Hj) as [Hup Hdown].
    simpl in Hup, Hdown. rewrite Hup in IH1. rewrite Hdown in IH2.
    replace (n - i)%nat with (S (n - (i + 1))) by lia.
    set (m := (n - (i + 1))%nat) in *.
    set (vc1 := get2 0 (Binomial.option_price_tree tc) (i + 1) j) in *.
    set (vc2 := get2 0 (Binomial.option_price_tree tc) (i + 1) (j + 1)) in *.
    set (vp1 := get2 0 (Binomial.option_price_tree tp) (i + 1) j) in *.
    set (vp2 := get2 0 (Binomial.option_price_tree tp) (i + 1) (j + 1)) in *.
    simpl pow.
    replace ((Binomial.qu call * vc1 + Binomial.qd call * vc2)
             * Binomial.df call
             - (Binomial.qu call * vp1 + Binomial.qd call * vp2)
               * Binomial.df call)
      with (Binomial.df call
            * (Binomial.qu call * (vc1 - vp1)
               + Binomial.qd call * (vc2 - vp2))) by ring.
    rewrite IH1, IH2.
    replace (Binomial.qd call) with (1 - Binomial.qu call) by lra.
    ring.
Qed.

End EuropeanPair.

Lemma INR_to_nat (z : Z) : (0 <= z)%Z -> INR (Z.to_nat z) = IZR z.
Proof. intros Hz. rewrite INR_IZR_INZ, Z2Nat.id by assumption. reflexivity. Qed.

(** The discount factor of the whole life of the option. *)
Lemma binomial_total_discount (c : Binomial.Calibration) T r N div sigma pu pd :
  (1 <= N)%Z ->
  match sigma with
  | Some s => Binomial.setup_parameters_with_sigma T r N s div
  | None => Binomial.setup_parameters_without_sigma T r N div pu pd
  end = Ok c ->
  Binomial.c_df c ^ Z.to_nat N = exp (- (r - div) * T).
Proof.
  intros HN H. apply binomial_calibration_facts in H.
  destruct H as (HN0 & Hdt & Hdf & _).
  rewrite Hdf, Hdt, exp_pow_nat, INR_to_nat by lia. f_equal. field. assumption.
Qed.

(** ** European prices as expectations *)

Lemma C_n_0 (n : nat) : C n 0 = 1.
Proof.
  unfold C. rewrite Nat.sub_0_r. simpl fact. simpl INR.
  field. apply INR_fact_neq_0.
Qed.

Lemma C_n_n (n : nat) : C n n = 1.
Proof.
  unfold C. rewrite Nat.sub_diag. simpl fact. simpl INR.
  field. apply INR_fact_neq_0.
Qed.

Lemma binomial_expectation_step (qu qd : R) (m : nat) (f : nat -> R) :
  binomial_expectation qu qd (S m) f
  = qu * binomial_expectation qu qd m f
    + qd * binomial_expectation qu qd m (fun k => f (S k)).
Proof.
  unfold binomial_expectation. destruct m as [| m].
  - simpl. rewrite !C_n_0, (C_n_n 1). ring.
  - rewrite (decomp_sum _ (S (S m))) by lia.
    rewrite (tech5 _ m).
    rewrite (decomp_sum (fun k => C (S m) k * qu ^ (S m - k) * qd ^ k * f k)
               (S m)) by lia.
    rewrite (tech5 (fun k => C (S m) k * qu ^ (S m - k) * qd ^ k * f (S k)) m).
    simpl pred.
    rewrite !Rmult_plus_distr_l, !scal_sum.
    rewrite !C_n_0, !C_n_n, !Nat.sub_0_r, !Nat.sub_diag.
    match goal with
    | |- ?t0 + (?s + ?tn) = (?u0 + ?s1) + (?s2 + ?un) =>
        assert (H0 : t0 = u0) by (simpl; ring);
        assert (Hn : tn = un) by (simpl; ring);
        assert (Hs : s = s1 + s2)
    end.
    { rewrite <- sum_plus. apply sum_eq. intros k Hk.
      rewrite <- (pascal (S m) k) by lia.
      replace (S (S m) - S k)%nat with (S (S m - S k)) by lia.
      replace (S m - k)%nat with (S (S m - S k)) by lia.
      simpl. ring. }
    rewrite H0, Hn, Hs. ring.
Qed.

Lemma binomial_expectation_ext (qu qd : R) (m : nat) (f g : nat -> R) :
  (forall k, (k <= m)%nat -> f k = g k) ->
  binomial_expectation qu qd m f = binomial_expectation qu qd m g.
Proof.
  intros H. unfold binomial_expectation. apply sum_eq. intros k Hk.
  rewrite H by assumption. reflexivity.
Qed.

Lemma binomial_price_option_inv (self : Binomial.Binomialmodell)
  (option_type : string) (t : Binomial.Trees) (p : R) :
  Binomial.price_option self option_type = Ok (t, p) ->
  let n := Binomial.steps self in
  exists payoffs,
    Binomial.calculate_payoffs self (Binomial.build_stock_price_tree self)
      option_type = Ok payoffs
    /\ p = get2 0 (Binomial.option_price_tree t) 0 0
    /\ Binomial.stock_price_tree t = Binomial.build_stock_price_tree self
    /\ Binomial.end_state_probabilities t
       = Binomial.build_end_state_probabilities self
    /\ shaped (n + 1) (n + 1) (Binomial.option_price_tree t)
    /\ nth n (Binomial.option_price_tree t) [] = payoffs
    /\ (forall i j, (i < n)%nat -> (j <= i)%nat ->
          get2 0 (Binomial.option_price_tree t) i j
          = binomial_node_value self (Binomial.stock_price_tree t)
              (Binomial.option_price_tree t) i j)
    /\ (forall i j, (i < n)%nat -> (i < j)%nat ->
          get2 0 (Binomial.option_price_tree t) i j = 0).
Proof.
  intros Hprice n.
  destruct (Binomial.calculate_payoffs self
              (Binomial.build_stock_price_tree self) option_type)
    as [payoffs | e] eqn:Hpay.
  - destruct (binomial_priced self option_type payoffs Hpay)
      as (t' & Hprice' & Hstock & Hfacts).
    rewrite Hprice in Hprice'. inversion Hprice'; subst.
    exists payoffs. split; [reflexivity |]. split; [reflexivity |].
    split; [exact Hstock |]. split; [| exact Hfacts].
    unfold Binomial.price_option in Hprice. inv_bind Hprice.
    inversion Hprice; subst.
    eapply binomial_init_full_tree_end_states. eassumption.
  - unfold Binomial.price_option, Binomial.init_full_tree in Hprice.
    rewrite Hpay in Hprice. discriminate.
Qed.

Lemma european_lattice_expectation (self : Binomial.Binomialmodell)
  (option_type : string) (t : Binomial.Trees) (p : R) :
  Binomial.is_am self = false ->
  Binomial.price_option self option_type = Ok (t, p) ->
  forall i j, (i <= Binomial.steps self)%nat -> (j <= i)%nat ->
    get2 0 (Binomial.option_price_tree t) i j
    = Binomial.df self ^ (Binomial.steps self - i)
      * binomial_expectation (Binomial.qu self) (Binomial.qd self)
          (Binomial.steps self - i)
          (fun k => get2 0 (Binomial.option_price_tree t)
                      (Binomial.steps self) (j + k)).
Proof.
  intros Heu Hprice.
  destruct (binomial_price_option_inv _ _ _ _ Hprice)
    as (payoffs & _ & _ & _ & _ & _ & _ & Hrec & _).
  set (n := Binomial.steps self) in *.
  apply (level_induction n
           (fun i j =>
              get2 0 (Binomial.option_price_tree t) i j
              = Binomial.df self ^ (n - i)
                * binomial_expectation (Binomial.qu self) (Binomial.qd self)
                    (n - i)
                    (fun k => get2 0 (Binomial.option_price_tree t) n (j + k)))).
  - intros j Hj. rewrite Nat.sub_diag. unfold binomial_expectation. simpl.
    rewrite C_n_0, Nat.add_0_r. ring.
  - intros i Hi IH j Hj. rewrite Hrec by assumption.
    unfold binomial_node_value. rewrite Heu.
    rewrite (IH j) by lia. rewrite (IH (j + 1)%nat) by lia.
    replace (n - i)%nat with (S (n - (i + 1))) by lia.
    rewrite binomial_expectation_step.
    rewrite (binomial_expectation_ext _ _ _
               (fun k => get2 0 (Binomial.option_price_tree t) n (j + 1 + k))
               (fun k => get2 0 (Binomial.option_price_tree t) n (j + S k)))
      by (intros k _; f_equal; lia).
    simpl pow. ring.
Qed.

Lemma end_state_probability_at (self : Binomial.Binomialmodell) (k : nat) :
  (k <= Binomial.steps self)%nat ->
  nth (Binomial.steps self - k) (Binomial.build_end_state_probabilities self) 0
  = C (Binomial.steps self) k * Binomial.qu self ^ (Binomial.steps self - k)
    * Binomial.qd self ^ k.
Proof.
  intros Hk. rewrite binomial_end_states_closed_form.
  set (n := Binomial.steps self) in *.
  rewrite (nth_map_in_range _ _ _ 0%nat)
    by (unfold range; rewrite length_seq; lia).
  unfold range. rewrite seq_nth by lia. simpl.
  rewrite combos_binomial_coefficient, <- (pascal_step1 n k) by assumption.
  replace (n - (n - k))%nat with k by lia. reflexivity.
Qed.

(** The European price is the discounted expectation of the terminal row
    under [end_state_probabilities], whose entry N - k weighs terminal
    node k. *)
Lemma binomial_expectation_of_priced :
  forall (self : Binomial.Binomialmodell) (option_type : string)
         (t : Binomial.Trees) (p : R),
    Binomial.is_am self = false ->
    Binomial.price_option self option_type = Ok (t, p) ->
    p = Binomial.df self ^ Binomial.steps self
        * sum_f_R0
            (fun k =>
               nth (Binomial.steps self - k)
                 (Binomial.end_state_probabilities t) 0
               * get2 0 (Binomial.option_price_tree t)
                   (Binomial.steps self) k)
            (Binomial.steps self).
Proof.
  intros self option_type t p Heu Hprice.
  pose proof (european_lattice_expectation _ _ _ _ Heu Hprice 0%nat 0%nat
                ltac:(lia) ltac:(lia)) as Hroot.
  destruct (binomial_price_option_inv _ _ _ _ Hprice)
    as (payoffs & _ & -> & _ & Hesp & _).
  rewrite Hroot, Nat.sub_0_r, Hesp. f_equal.
  unfold binomial_expectation. apply sum_eq. intros k Hk.
  rewrite end_state_probability_at by assumption. reflexivity.
Qed.

(** ** Strangles *)

Lemma binomial_expectation_plus (qu qd : R) (m : nat) (f g : nat -> R) :
  binomial_expectation qu qd m (fun k => f k + g k)
  = binomial_expectation qu qd m f + binomial_expectation qu qd m g.
Proof.
  unfold binomial_expectation. rewrite <- sum_plus. apply sum_eq.
  intros k _. ring.
Qed.

Lemma binomial_priced_terminal (self : Binomial.Binomialmodell)
  (option_type : string) (f : R -> R) (t : Binomial.Trees) (p : R) :
  (forall stock,
      Binomial.calculate_payoffs self stock option_type
      = Ok (map f (last_row stock))) ->
  Binomial.price_option self option_type = Ok (t, p) ->
  forall j, (j <= Binomial.steps self)%nat ->
    get2 0 (Binomial.option_price_tree t) (Binomial.steps self) j
    = f (get2 0 (Binomial.build_stock_price_tree self)
           (Binomial.steps self) j).
Proof.
  intros Hpay Hprice j Hj.
  destruct (binomial_price_option_inv _ _ _ _ Hprice)
    as (payoffs & Hp & _ & Hstock & _ & _ & Hrow & _).
  rewrite Hpay in Hp. inversion Hp; subst payoffs.
  rewrite <- Hstock.
  apply binomial_terminal_of_priced;
    [assumption | symmetry; assumption | assumption].
Qed.

Lemma binomial_vanilla_payoff_rule (self : Binomial.Binomialmodell)
  (stock : list (list R)) :
  Binomial.calculate_payoffs self stock "european"
  = Ok (map (fun s => if Binomial.is_call self
                      then Rmax 0 (s - Binomial.K self)
                      else Rmax 0 (Binomial.K self - s)) (last_row stock)).
Proof.
  unfold Binomial.calculate_payoffs. simpl.
  destruct (Binomial.is_call self); reflexivity.
Qed.

(** A European strangle is worth its call leg plus its put leg. *)
Lemma binomial_strangle_of_priced :
  forall (S0 K T r : R) (N : Z) (sigma : option R) (div : R) (is_put : bool)
         (K2 : option R) (exponent : nat) (pu pd : option R) (payoff : R)
         (strangle call put : Binomial.Binomialmodell)
         (t_s t_c t_p : Binomial.Trees) (p_s p_c p_p : R),
    Binomial.init S0 K T r N sigma div is_put K2 exponent pu pd false payoff
    = Ok strangle ->
    Binomial.init S0 K T r N sigma div false K2 exponent pu pd false payoff
    = Ok call ->
    Binomial.init S0 (match K2 with Some k2 => k2 | None => K end) T r N sigma
      div true K2 exponent pu pd false payoff = Ok put ->
    Binomial.price_option strangle "strangle" = Ok (t_s, p_s) ->
    Binomial.price_option call "european" = Ok (t_c, p_c) ->
    Binomial.price_option put "european" = Ok (t_p, p_p) ->
    p_s = p_c + p_p.
Proof.
  intros * Hs Hc Hp Hps Hpc Hpp.
  apply binomial_init_fields in Hs, Hc, Hp.
  destruct Hs as (c & Hcal & Hs). destruct Hc as (c1 & Hcal1 & Hc).
  destruct Hp as (c2 & Hcal2 & Hp).
  rewrite Hcal in Hcal1, Hcal2. inversion Hcal1; inversion Hcal2; subst c1 c2.
  clear Hcal1 Hcal2.
  assert (Hstock_c : Binomial.build_stock_price_tree call
                     = Binomial.build_stock_price_tree strangle)
    by (subst; reflexivity).
  assert (Hstock_p : Binomial.build_stock_price_tree put
                     = Binomial.build_stock_price_tree strangle)
    by (subst; reflexivity).
  assert (Hn_c : Binomial.steps call = Binomial.steps strangle)
    by (subst; reflexivity).
  assert (Hn_p : Binomial.steps put = Binomial.steps strangle)
    by (subst; reflexivity).
  pose proof (binomial_priced_terminal strangle "strangle" _ t_s p_s
                (binomial_strangle_payoffs strangle) Hps) as Hts.
  pose proof (binomial_priced_terminal call "european" _ t_c p_c
                (binomial_vanilla_payoff_rule call) Hpc) as Htc.
  pose proof (binomial_priced_terminal put "european" _ t_p p_p
                (binomial_vanilla_payoff_rule put) Hpp) as Htp.
  rewrite Hn_c, Hstock_c in Htc. rewrite Hn_p, Hstock_p in Htp.
  pose proof (european_lattice_expectation strangle _ _ _
                ltac:(subst; reflexivity) Hps 0%nat 0%nat
                ltac:(lia) ltac:(lia)) as Es.
  pose proof (european_lattice_expectation call _ _ _
                ltac:(subst; reflexivity) Hpc 0%nat 0%nat
                ltac:(lia) ltac:(lia)) as Ec.
  pose proof (european_lattice_expectation put _ _ _
                ltac:(subst; reflexivity) Hpp 0%nat 0%nat
                ltac:(lia) ltac:(lia)) as Ep.
  destruct (binomial_price_option_inv _ _ _ _ Hps) as (_ & _ & -> & _).
  destruct (binomial_price_option_inv _ _ _ _ Hpc) as (_ & _ & -> & _).
  destruct (binomial_price_option_inv _ _ _ _ Hpp) as (_ & _ & -> & _).
  rewrite Es, Ec, Ep, Hn_c, Hn_p.
  replace (Binomial.df call) with (Binomial.df strangle) by (subst; reflexivity).
  replace (Binomial.df put) with (Binomial.df strangle) by (subst; reflexivity).
  replace (Binomial.qu call) with (Binomial.qu strangle) by (subst; reflexivity).
  replace (Binomial.qu put) with (Binomial.qu strangle) by (subst; reflexivity).
  replace (Binomial.qd call) with (Binomial.qd strangle) by (subst; reflexivity).
  replace (Binomial.qd put) with (Binomial.qd strangle) by (subst; reflexivity).
  rewrite <- Rmult_plus_distr_l, <- binomial_expectation_plus. f_equal.
  apply binomial_expectation_ext. intros k Hk. rewrite Nat.sub_0_r in Hk.
  simpl Nat.add. rewrite Hts, Htc, Htp by assumption.
  replace (Binomial.is_call call) with true by (subst; reflexivity).
  replace (Binomial.is_call put) with false by (subst; reflexivity).
  replace (Binomial.K call) with (Binomial.K strangle) by (subst; reflexivity).
  replace (Binomial.K put) with (Binomial.K2 strangle) by (subst; reflexivity).
  reflexivity.
Qed.

(** ** Which families are priced; signs and floors *)

Lemma binomial_payoffs_known (self : Binomial.Binomialmodell)
  (stock : list (list R)) (option_type : string) :
  if known_option_type option_type
  then exists payoffs,
      Binomial.calculate_payoffs self stock option_type = Ok payoffs
  else Binomial.calculate_payoffs self stock option_type = Raise ValueError.
Proof.
  unfold known_option_type, Binomial.calculate_payoffs.
  destruct (String.eqb option_type "european"),
    (String.eqb option_type "american"),
    (String.eqb option_type "digital"),
    (String.eqb option_type "power"),
    (String.eqb option_type "strangle"); simpl;
    try reflexivity;
    try (destruct (Binomial.is_call self); eexists; reflexivity);
    try (destruct (Binomial.is_put self); eexists; reflexivity);
    eexists; reflexivity.
Qed.

Lemma binomial_known_priced (self : Binomial.Binomialmodell)
  (option_type : string) :
  known_option_type option_type = true ->
  exists t p, Binomial.price_option self option_type = Ok (t, p).
Proof.
  intros Hknown.
  pose proof (binomial_payoffs_known self
                (Binomial.build_stock_price_tree self) option_type) as H.
  rewrite Hknown in H. destruct H as [payoffs Hpay].
  destruct (binomial_priced self option_type payoffs Hpay) as (t & Ht & _).
  eauto.
Qed.

Lemma binomial_payoffs_nonneg (self : Binomial.Binomialmodell)
  (stock : list (list R)) (option_type : string) (payoffs : list R) :
  (option_type = "digital"%string -> 0 <= Binomial.payoff self) ->
  Binomial.calculate_payoffs self stock option_type = Ok payoffs ->
  Forall (fun x => 0 <= x) payoffs.
Proof.
  intros Hdigital. unfold Binomial.calculate_payoffs.
  destruct (_ || _)%bool.
  { destruct (Binomial.is_call self); intros H; inversion H;
      apply Forall_forall; intros x Hx; apply in_map_iff in Hx;
      destruct Hx as (s & <- & _); apply Rmax_l. }
  destruct (String.eqb_spec option_type "digital") as [-> | _].
  { specialize (Hdigital eq_refl).
    destruct (Binomial.is_put self); intros H; inversion H;
      apply Forall_forall; intros x Hx; apply in_map_iff in Hx;
      destruct Hx as (s & <- & _).
    - destruct (Rle_dec _ _); lra.
    - destruct (Rgt_dec _ _); lra. }
  destruct (String.eqb option_type "power").
  { destruct (Binomial.is_put self); intros H; inversion H;
      apply Forall_forall; intros x Hx; apply in_map_iff in Hx;
      destruct Hx as (s & <- & _).
    - destruct (Rlt_dec _ _); [apply pow_le |]; lra.
    - destruct (Rgt_dec _ _); [apply pow_le |]; lra. }
  destruct (String.eqb option_type "strangle"); [| discriminate].
  intros H. inversion H. rewrite np_add_map.
  apply Forall_forall. intros x Hx. apply in_map_iff in Hx.
  destruct Hx as (s & <- & _).
  destruct (Rgt_dec _ _), (Rlt_dec _ _); lra.
Qed.

Lemma binomial_node_value_lower (self : Binomial.Binomialmodell)
  (stock opt : list (list R)) (i j : nat) :
  (Binomial.qu self * get2 0 opt (i + 1) j
   + Binomial.qd self * get2 0 opt (i + 1) (j + 1)) * Binomial.df self
  <= binomial_node_value self stock opt i j.
Proof.
  unfold binomial_node_value.
  destruct (Binomial.is_am self); [apply Rmax_l | apply Rle_refl].
Qed.

(** With non-negative probabilities and discount factor no node of the
    option lattice is negative, early exercise or not. *)
Lemma binomial_nonneg_of_priced :
  forall (self : Binomial.Binomialmodell) (option_type : string)
         (t : Binomial.Trees) (p : R),
    0 <= Binomial.qu self -> 0 <= Binomial.qd self -> 0 <= Binomial.df self ->
    (option_type = "digital"%string -> 0 <= Binomial.payoff self) ->
    Binomial.price_option self option_type = Ok (t, p) ->
    0 <= p
    /\ forall i j, (i <= Binomial.steps self)%nat -> (j <= i)%nat ->
         0 <= get2 0 (Binomial.option_price_tree t) i j.
Proof.
  intros self option_type t p Hqu Hqd Hdf Hdigital Hprice.
  destruct (binomial_price_option_inv _ _ _ _ Hprice)
    as (payoffs & Hpay & -> & _ & _ & Hshape & Hrow & Hrec & _).
  pose proof (binomial_payoffs_nonneg _ _ _ _ Hdigital Hpay) as Hpos.
  assert (Hall : forall i j, (i <= Binomial.steps self)%nat -> (j <= i)%nat ->
                   0 <= get2 0 (Binomial.option_price_tree t) i j).
  { apply level_induction.
    - intros j Hj. unfold get2. rewrite Hrow.
      rewrite Forall_forall in Hpos. apply Hpos. apply nth_In.
      rewrite <- Hrow. destruct Hshape as [_ Hcols]. rewrite Hcols; lia.
    - intros i Hi IH j Hj. rewrite Hrec by assumption.
      eapply Rle_trans; [| apply binomial_node_value_lower].
      pose proof (IH j ltac:(lia)). pose proof (IH (j + 1)%nat ltac:(lia)).
      apply Rmult_le_pos; [| assumption].
      apply Rplus_le_le_0_compat; apply Rmult_le_pos; assumption. }
  split; [apply Hall; lia | exact Hall].
Qed.

(** With [is_am] the price is at least the terminal value of the extreme
    node, undiscounted: the all-up node for a call, the all-down node for a
    put. *)
Lemma binomial_floor_of_priced :
  forall (self : Binomial.Binomialmodell) (option_type : string)
         (t : Binomial.Trees) (p : R),
    Binomial.is_am self = true ->
    Binomial.price_option self option_type = Ok (t, p) ->
    let n := Binomial.steps self in
    get2 0 (Binomial.option_price_tree t) n
      (if Binomial.is_call self then 0 else n) <= p.
Proof.
  intros self option_type t p Ham Hprice n.
  destruct (binomial_price_option_inv _ _ _ _ Hprice)
    as (payoffs & _ & -> & _ & _ & _ & _ & Hrec & _).
  fold n in Hrec.
  destruct (Binomial.is_call self) eqn:Hside.
  - assert (Hchain : forall i j, (i <= n)%nat -> (j <= i)%nat ->
              get2 0 (Binomial.option_price_tree t) n 0
              <= get2 0 (Binomial.option_price_tree t) i 0).
    { apply (level_induction n
               (fun i (_ : nat) =>
                  get2 0 (Binomial.option_price_tree t) n 0
                  <= get2 0 (Binomial.option_price_tree t) i 0)).
      - intros _ _. apply Rle_refl.
      - intros i Hi IH _ _.
        eapply Rle_trans; [apply (IH 0%nat); lia |].
        rewrite (Hrec i 0%nat) by lia.
        unfold binomial_node_value, Binomial.check_early_exercise.
        rewrite Ham, Hside.
        eapply Rle_trans; [| apply Rmax_r]. apply Rmax_l. }
    apply (Hchain 0%nat 0%nat); lia.
  - assert (Hchain : forall i j, (i <= n)%nat -> (j <= i)%nat ->
              get2 0 (Binomial.option_price_tree t) n n
              <= get2 0 (Binomial.option_price_tree t) i i).
    { apply (level_induction n
               (fun i (_ : nat) =>
                  get2 0 (Binomial.option_price_tree t) n n
                  <= get2 0 (Binomial.option_price_tree t) i i)).
      - intros _ _. apply Rle_refl.
      - intros i Hi IH _ _.
        eapply Rle_trans; [apply (IH 0%nat); lia |].
        rewrite (Hrec i i) by lia.
        unfold binomial_node_value, Binomial.check_early_exercise.
        rewrite Ham, Hside.
        eapply Rle_trans; [| apply Rmax_r]. apply Rmax_l. }
    apply (Hchain 0%nat 0%nat); lia.
Qed.

(** ** Two lattices in one sweep *)

Lemma fold_left_ext_in {S0 X : Type} (f g : S0 -> X -> S0) (l : list X) :
  (forall s x, In x l -> f s x = g s x) ->
  forall s, fold_left f l s = fold_left g l s.
Proof.
  induction l as [| x l IH]; intros H s; simpl; [reflexivity |].
  rewrite H by (left; reflexivity). apply IH.
  intros s' y Hy. apply H. right. assumption.
Qed.

Section PairSweep.

Context {A B : Type} (za : A) (zb : B).
Variable F : list (list A) -> nat -> nat -> A.
Variable G : list (list A) -> nat -> nat -> B.

Lemma pair_sweep_fst (cols : nat -> list nat) (rows : list nat)
  (st : list (list A) * list (list B)) :
  fst (pair_sweep F G cols rows st) = sweep cols F rows (fst st).
Proof.
  unfold pair_sweep, sweep. apply fold_left_fst. intros st' i.
  apply (fold_left_fst (fun st0 j => pair_step F G st0 i j)
           (fun a j => set2 a i j (F a i j))).
  intros st'' j. reflexivity.
Qed.

Lemma pair_row_spec (i : nat) (l : list nat) :
  (forall a1 a2, (forall k, k <> i -> nth k a1 [] = nth k a2 []) ->
                 forall j, G a1 i j = G a2 i j) ->
  forall st,
    (i < length (snd st))%nat ->
    (forall j, In j l -> (j < length (nth i (snd st) []))%nat) ->
    let st' := fold_left (fun st j => pair_step F G st i j) l st in
    length (snd st') = length (snd st)
    /\ (forall k, length (nth k (snd st') []) = length (nth k (snd st) []))
    /\ (forall k, k <> i -> nth k (snd st') [] = nth k (snd st) [])
    /\ (forall j, In j l -> get2 zb (snd st') i j = G (fst st) i j)
    /\ (forall j, ~ In j l -> get2 zb (snd st') i j = get2 zb (snd st) i j).
Proof.
  intros Hlocal. induction l as [| j0 l IH]; intros st Hi Hl; simpl.
  - repeat split; auto. intros j [].
  - set (st1 := pair_step F G st i j0).
    assert (HG1 : forall j, G (fst st1) i j = G (fst st) i j).
    { apply Hlocal. intros k Hk. unfold st1, pair_step. simpl.
      apply row_set2_other. auto. }
    destruct (IH st1) as (Hlen & Hwidth & Hrows & Hin & Hout).
    { unfold st1, pair_step. simpl. rewrite length_set2. assumption. }
    { intros j Hj. unfold st1, pair_step. simpl. rewrite row_length_set2.
      apply Hl. right. assumption. }
    assert (Hs1 : snd st1 = set2 (snd st) i j0 (G (fst st) i j0))
      by reflexivity.
    rewrite Hs1 in Hlen, Hwidth, Hrows, Hout.
    split; [rewrite Hlen; apply length_set2 |].
    split; [intros k; rewrite Hwidth; apply row_length_set2 |].
    split; [intros k Hk; rewrite Hrows by assumption;
            apply row_set2_other; auto |].
    split.
    + intros j Hj. destruct (in_dec Nat.eq_dec j l) as [Hjl | Hjl].
      * rewrite Hin by assumption. apply HG1.
      * destruct Hj as [<- | Hj]; [| contradiction].
        rewrite Hout by assumption.
        apply get2_set2_same; [assumption | apply Hl; left; reflexivity].
    + intros j Hj. rewrite Hout by (intros H; apply Hj; right; assumption).
      apply get2_set2_other. right. intros ->. apply Hj. left. reflexivity.
Qed.

Lemma pair_sweep_spec (dep : nat -> nat -> Prop) (cols : nat -> list nat)
  (rows : list nat) :
  (forall i a1 a2, In i rows ->
                   (forall k, dep i k -> nth k a1 [] = nth k a2 []) ->
                   forall j, F a1 i j = F a2 i j) ->
  (forall i a1 a2, In i rows ->
                   (forall k, dep i k -> nth k a1 [] = nth k a2 []) ->
                   forall j, G a1 i j = G a2 i j) ->
  ordered dep rows ->
  forall st,
    (forall i, In i rows ->
               (i < length (fst st))%nat
               /\ forall j, In j (cols i) ->
                            (j < length (nth i (fst st) []))%nat) ->
    (forall i, In i rows ->
               (i < length (snd st))%nat
               /\ forall j, In j (cols i) ->
                            (j < length (nth i (snd st) []))%nat) ->
    let st' := pair_sweep F G cols rows st in
    length (snd st') = length (snd st)
    /\ (forall k, length (nth k (snd st') []) = length (nth k (snd st) []))
    /\ (forall k, ~ In k rows -> nth k (snd st') [] = nth k (snd st) [])
    /\ (forall i j, In i rows -> In j (cols i) ->
                    get2 zb (snd st') i j = G (fst st') i j)
    /\ (forall i j, In i rows -> ~ In j (cols i) ->
                    get2 zb (snd st') i j = get2 zb (snd st) i j).
Proof.
  induction rows as [| i rows IH]; intros HlocalF HlocalG Hord st Ha Hb; simpl.
  - repeat split; auto; intros ? ? [].
  - destruct Hord as (Hdep & Hnotin & Hord).
    assert (HlocalF' : forall i' a1 a2, In i' rows ->
              (forall k, dep i' k -> nth k a1 [] = nth k a2 []) ->
              forall j, F a1 i' j = F a2 i' j)
      by (intros i' a1 a2 Hi'; apply HlocalF; right; assumption).
    assert (HlocalG' : forall i' a1 a2, In i' rows ->
              (forall k, dep i' k -> nth k a1 [] = nth k a2 []) ->
              forall j, G a1 i' j = G a2 i' j)
      by (intros i' a1 a2 Hi'; apply HlocalG; right; assumption).
    specialize (IH HlocalF' HlocalG' Hord).
    set (st1 := fold_left (fun st j => pair_step F G st i j) (cols i) st).
    destruct (Ha i (or_introl eq_refl)) as [Hai Hacols].
    destruct (Hb i (or_introl eq_refl)) as [Hbi Hbcols].
    assert (Hfst1 : fst st1
                    = fold_left (fun a j => set2 a i j (F a i j)) (cols i)
                        (fst st)).
    { unfold st1.
      apply (fold_left_fst (fun st0 j => pair_step F G st0 i j)
               (fun a j => set2 a i j (F a i j))).
      intros; reflexivity. }
    destruct (sweep_row_spec za (fun a j => F a i j) i (cols i))
      with (a := fst st) as (Hlen1 & Hwidth1 & Hrows1 & _ & _);
      try assumption.
    { intros b1 b2 Hb12. apply HlocalF; [left; reflexivity |].
      intros k Hk. apply Hb12. apply (Hdep k). assumption. }
    rewrite <- Hfst1 in Hlen1, Hwidth1, Hrows1.
    destruct (pair_row_spec i (cols i)) with (st := st)
      as (Hblen1 & Hbwidth1 & Hbrows1 & Hbin1 & Hbout1); try assumption.
    { intros b1 b2 Hb12. apply HlocalG; [left; reflexivity |].
      intros k Hk. apply Hb12. apply (Hdep k). assumption. }
    fold st1 in Hblen1, Hbwidth1, Hbrows1, Hbin1, Hbout1.
    destruct (IH st1) as (Hlen & Hwidth & Hrows & Hin & Hout).
    { intros i' Hi'. destruct (Ha i' (or_intror Hi')) as [H1 H2].
      rewrite Hlen1. split; [assumption |].
      intros j Hj. rewrite Hwidth1. apply H2. assumption. }
    { intros i' Hi'. destruct (Hb i' (or_intror Hi')) as [H1 H2].
      rewrite Hblen1. split; [assumption |].
      intros j Hj. rewrite Hbwidth1. apply H2. assumption. }
    fold (pair_sweep F G cols rows st1) in *.
    set (st' := pair_sweep F G cols rows st1) in *.
    split; [congruence |].
    split; [intros k; rewrite Hwidth; apply Hbwidth1 |].
    split.
    { intros k Hk. rewrite Hrows by tauto. apply Hbrows1. intros ->. tauto. }
    assert (Hrowi : nth i (snd st') [] = nth i (snd st1) [])
      by (apply Hrows; assumption).
    split.
    + intros i' j [<- | Hi'] Hj.
      * unfold get2 at 1. rewrite Hrowi. fold (get2 zb (snd st1) i j).
        rewrite Hbin1 by assumption.
        apply HlocalG; [left; reflexivity |].
        intros k Hk. destruct (Hdep k Hk) as [Hki Hkrows].
        unfold st'. rewrite pair_sweep_fst.
        destruct (sweep_spec za dep cols F rows HlocalF' Hord (fst st1))
          as (_ & _ & Hkeep & _).
        { intros i' Hi'. destruct (Ha i' (or_intror Hi')) as [H1 H2].
          rewrite Hlen1. split; [assumption |].
          intros j' Hj'. rewrite Hwidth1. apply H2. assumption. }
        rewrite Hkeep by assumption. symmetry. apply Hrows1. assumption.
      * apply Hin; assumption.
    + intros i' j [<- | Hi'] Hj.
      * unfold get2 at 1. rewrite Hrowi. fold (get2 zb (snd st1) i j).
        apply Hbout1. assumption.
      * rewrite Hout by assumption. unfold get2.
        rewrite Hbrows1; [reflexivity |]. intros ->. contradiction.
Qed.

End PairSweep.

(** ** The binomial delta lattice *)

Lemma binomial_backward_is_pair_sweep (self : Binomial.Binomialmodell)
  (stock : list (list R)) (st : list (list R) * list (list float64)) :
  Binomial.backward_induction self stock st
  = pair_sweep (binomial_node_value self stock) (binomial_node_delta stock)
      (fun i => range (i + 1)) (range_down (Binomial.steps self)) st.
Proof.
  unfold Binomial.backward_induction, pair_sweep.
  apply fold_left_ext_in. intros st' i Hi. apply in_range_down in Hi.
  apply fold_left_ext_in. intros [opt delta] j _.
  unfold pair_step, binomial_node_delta. simpl fst. simpl snd.
  pose proof (binomial_backward_node_fst self stock (opt, delta) i j) as Hfst.
  unfold Binomial.backward_node in *. simpl fst in Hfst.
  destruct (Nat.eqb_spec i (Binomial.steps self)) as [-> | _]; [lia |].
  simpl negb. cbv iota.
  destruct (Binomial.is_am self); simpl in Hfst |- *;
    rewrite <- Hfst; f_equal; f_equal;
    rewrite !get2_set2_other by (left; lia); reflexivity.
Qed.

Lemma binomial_price_option_delta (self : Binomial.Binomialmodell)
  (option_type : string) (t : Binomial.Trees) (p : R) :
  Binomial.price_option self option_type = Ok (t, p) ->
  forall i j, (i < Binomial.steps self)%nat -> (j <= i)%nat ->
    get2 (Fin 0) (Binomial.delta_tree t) i j
    = binomial_node_delta (Binomial.stock_price_tree t)
        (Binomial.option_price_tree t) i j.
Proof.
  intros Hprice i j Hi Hj.
  destruct (binomial_price_option_inv _ _ _ _ Hprice)
    as (payoffs & Hpay & _ & Hstock & _).
  assert (Hlen : length payoffs = (Binomial.steps self + 1)%nat).
  { rewrite (binomial_payoffs_length _ _ _ _ Hpay).
    apply binomial_last_row_width. }
  unfold Binomial.price_option, Binomial.init_full_tree in Hprice.
  rewrite Hpay in Hprice. simpl bind in Hprice.
  rewrite binomial_backward_is_pair_sweep in Hprice.
  set (n := Binomial.steps self) in *.
  set (st0 := (set_last_row (zeros2 0 (n + 1) (n + 1)) payoffs,
               zeros2 (Fin 0) n n)) in *.
  assert (Hshape : shaped (n + 1) (n + 1) (fst st0))
    by (apply shaped_set_last_row; [apply shaped_zeros2 | exact Hlen]).
  destruct Hshape as [Hrows Hcols].
  destruct (pair_sweep_spec 0 (Fin 0)
              (binomial_node_value self (Binomial.build_stock_price_tree self))
              (binomial_node_delta (Binomial.build_stock_price_tree self))
              (fun i k => k = (i + 1)%nat) (fun i => range (i + 1))
              (range_down n))
    with (st := st0) as (_ & _ & _ & Hin & _).
  - intros i' a1 a2 _ H. apply binomial_node_value_local. assumption.
  - intros i' a1 a2 _ H j'. unfold binomial_node_delta, get2.
    rewrite (H (i' + 1)%nat eq_refl). reflexivity.
  - apply ordered_range_down.
  - intros i' Hi'. apply in_range_down in Hi'. rewrite Hrows, Hcols by lia.
    split; [lia |]. intros j' Hj'. apply in_range in Hj'. lia.
  - intros i' Hi'. apply in_range_down in Hi'. simpl snd.
    rewrite length_zeros2, row_zeros2 by assumption. rewrite repeat_length.
    split; [lia |]. intros j' Hj'. apply in_range in Hj'. lia.
  - destruct (pair_sweep _ _ _ _ st0) as [opt delta] eqn:Hsweep.
    simpl in Hprice. inversion Hprice; subst t. simpl in *.
    apply Hin; [apply in_range_down | apply in_range]; lia.
Qed.

(** The hedge ratio of every interior node; it is finite exactly where the
    node's own price is not 0. *)
Lemma binomial_delta_of_priced :
  forall (self : Binomial.Binomialmodell) (option_type : string)
         (t : Binomial.Trees) (p : R),
    Binomial.u self <> Binomial.d self ->
    Binomial.price_option self option_type = Ok (t, p) ->
    forall i j, (i < Binomial.steps self)%nat -> (j <= i)%nat ->
      let v_up := get2 0 (Binomial.option_price_tree t) (i + 1) j in
      let v_down := get2 0 (Binomial.option_price_tree t) (i + 1) (j + 1) in
      let s_up := get2 0 (Binomial.stock_price_tree t) (i + 1) j in
      let s_down := get2 0 (Binomial.stock_price_tree t) (i + 1) (j + 1) in
      let delta := get2 (Fin 0) (Binomial.delta_tree t) i j in
      (get2 0 (Binomial.stock_price_tree t) i j <> 0 ->
       s_up <> s_down /\ delta = Fin ((v_up - v_down) / (s_up - s_down)))
      /\ (get2 0 (Binomial.stock_price_tree t) i j = 0 ->
          s_up = s_down /\ delta = (if Req_dec_T (v_up - v_down) 0
                                    then NaN else Inf)).
Proof.
  intros self option_type t p Hud Hprice i j Hi Hj.
  pose proof (binomial_price_option_delta _ _ _ _ Hprice i j Hi Hj) as Hdelta.
  destruct (binomial_price_option_inv _ _ _ _ Hprice)
    as (_ & _ & _ & Hstock & _).
  destruct (binomial_stock_children self i j Hi Hj) as [Hup Hdown].
  simpl in Hup, Hdown. rewrite <- Hstock in Hup, Hdown.
  simpl. rewrite Hdelta. unfold binomial_node_delta, np_truediv.
  rewrite Hup, Hdown.
  set (s := get2 0 (Binomial.stock_price_tree t) i j).
  split; intros Hs.
  - assert (Hne : Binomial.u self * s <> Binomial.d self * s).
    { intros Heq. apply Hud.
      apply (Rmult_eq_reg_r s); assumption. }
    split; [exact Hne |].
    destruct (Req_dec_T (Binomial.u self * s - Binomial.d self * s) 0);
      [exfalso; apply Hne; lra | reflexivity].
  - rewrite Hs, !Rmult_0_r. split; [reflexivity |].
    destruct (Req_dec_T (0 - 0) 0); [reflexivity | lra].
Qed.

(** ** The Cox-Ross-Rubinstein lattice *)

Lemma exp_ge_1 (x : R) : 0 <= x -> 1 <= exp x.
Proof.
  intros [Hx | <-]; [| rewrite exp_0; lra].
  rewrite <- exp_0. apply Rlt_le, exp_increasing. assumption.
Qed.

(** ** The trinomial price lattice *)

Lemma trinomial_stock_is_sweep (self : Trinomial.Trinomialmodell) :
  Trinomial.build_stock_price_tree self
  = sweep (fun i => range_from (Trinomial.steps self - i)
                      (Trinomial.steps self + i + 1))
      (trinomial_stock_value self)
      (range_from 1 (Trinomial.steps self + 1))
      (set2 (zeros2 0 (Trinomial.steps self + 1) (2 * Trinomial.steps self + 1))
         0 (Trinomial.steps self) (Trinomial.S0 self)).
Proof. reflexivity. Qed.

Lemma trinomial_stock_start (n : nat) (s0 : R) (i j : nat) :
  get2 0 (set2 (zeros2 0 (n + 1) (2 * n + 1)) 0 n s0) i j
  = if ((i =? 0) && (j =? n))%nat then s0 else 0.
Proof.
  destruct (Nat.eqb_spec i 0) as [-> | Hi]; simpl andb.
  - destruct (Nat.eqb_spec j n) as [-> | Hj].
    + apply get2_set2_same.
      * rewrite length_zeros2. lia.
      * rewrite row_zeros2 by lia. rewrite repeat_length. lia.
    + rewrite get2_set2_other by (right; auto). apply get2_zeros2.
  - rewrite get2_set2_other by (left; auto). apply get2_zeros2.
Qed.

(** The trinomial price lattice in closed form; the middle multiplier [m]
    plays no part in it. *)
Lemma trinomial_stock_price_at (self : Trinomial.Trinomialmodell)
  (i j : nat) :
  (i <= Trinomial.steps self)%nat ->
  get2 0 (Trinomial.build_stock_price_tree self) i j = trinomial_price self i j.
Proof.
  rewrite trinomial_stock_is_sweep.
  set (n := Trinomial.steps self).
  set (a0 := set2 (zeros2 0 (n + 1) (2 * n + 1)) 0 n (Trinomial.S0 self)).
  destruct (sweep_spec 0 (fun i k => (k + 1)%nat = i)
              (fun i => range_from (n - i) (n + i + 1))
              (trinomial_stock_value self) (range_from 1 (n + 1)))
    with (a := a0) as (_ & _ & Hkeep & Hin & Hout).
  { intros i' a1 a2 Hi' H j'. apply in_range_from in Hi'.
    unfold trinomial_stock_value, get2.
    rewrite (H (i' - 1)%nat) by lia. reflexivity. }
  { unfold range_from. apply ordered_seq. intros i' k Hk. lia. }
  { intros i' Hi'. apply in_range_from in Hi'. unfold a0.
    rewrite length_set2, row_length_set2, length_zeros2.
    rewrite row_zeros2 by lia. rewrite repeat_length.
    split; [lia |]. intros j' Hj'. apply in_range_from in Hj'. lia. }
  fold n.
  set (tree := sweep _ _ _ a0) in *.
  revert j. induction i as [| i IH]; intros j Hi.
  - unfold get2. rewrite Hkeep by (rewrite in_range_from; lia).
    fold (get2 0 a0 0 j). unfold a0. rewrite trinomial_stock_start.
    unfold trinomial_price. fold n. simpl Nat.eqb. simpl andb.
    rewrite Nat.sub_0_r, Nat.add_0_r.
    destruct (Nat.eqb_spec j n) as [-> | Hj].
    + rewrite Nat.leb_refl, Nat.ltb_irrefl. reflexivity.
    + destruct (Nat.leb_spec n j), (Nat.leb_spec j n); simpl; try reflexivity.
      lia.
  - unfold trinomial_price. fold n.
    destruct (Nat.leb_spec (n - S i) j) as [Hlo | Hlo];
      [destruct (Nat.leb_spec j (n + S i)) as [Hhi | Hhi] |]; simpl andb.
    + rewrite Hin by (apply in_range_from; lia).
      unfold trinomial_stock_value. fold n.
      replace (S i - 1)%nat with i by lia.
      destruct (Nat.ltb_spec n j) as [Hj | Hj].
      * rewrite IH by lia. unfold trinomial_price. fold n.
        destruct (Nat.leb_spec (n - i) (j - 1)); [| lia].
        destruct (Nat.leb_spec (j - 1) (n + i)); [| lia]. simpl andb.
        destruct (Nat.ltb_spec n (j - 1)).
        -- replace (j - n)%nat with (S (j - 1 - n)) by lia. simpl. ring.
        -- destruct (Nat.ltb_spec (j - 1) n); [lia |].
           replace (j - n)%nat with 1%nat by lia. simpl. ring.
      * destruct (Nat.ltb_spec j n) as [Hj' | Hj'].
        -- rewrite IH by lia. unfold trinomial_price. fold n.
           destruct (Nat.leb_spec (n - i) (j + 1)); [| lia].
           destruct (Nat.leb_spec (j + 1) (n + i)); [| lia]. simpl andb.
           destruct (Nat.ltb_spec n (j + 1)); [lia |].
           destruct (Nat.ltb_spec (j + 1) n).
           ++ replace (n - j)%nat with (S (n - (j + 1))) by lia. simpl. ring.
           ++ replace (n - j)%nat with 1%nat by lia. simpl. ring.
        -- rewrite IH by lia. unfold trinomial_price. fold n.
           destruct (Nat.leb_spec (n - i) j); [| lia].
           destruct (Nat.leb_spec j (n + i)); [| lia]. simpl andb.
           destruct (Nat.ltb_spec n j); [lia |].
           destruct (Nat.ltb_spec j n); [lia | reflexivity].
    + rewrite Hout; [| apply in_range_from; lia | rewrite in_range_from; lia].
      unfold a0. rewrite trinomial_stock_start. reflexivity.
    + rewrite Hout; [| apply in_range_from; lia | rewrite in_range_from; lia].
      unfold a0. rewrite trinomial_stock_start. reflexivity.
Qed.

(** ** The trinomial option and delta lattices *)

Lemma trinomial_backward_is_pair_sweep (self : Trinomial.Trinomialmodell)
  (stock : list (list R)) (st : list (list R) * list (list float64)) :
  Trinomial.backward_induction self stock st
  = pair_sweep (trinomial_node_value self) (trinomial_node_delta stock)
      (fun i => range_from (Trinomial.steps self - i)
                  (Trinomial.steps self + i + 1))
      (range_down (Trinomial.steps self)) st.
Proof.
  unfold Trinomial.backward_induction, pair_sweep.
  apply fold_left_ext_in. intros st' i _.
  apply fold_left_ext_in. intros [opt delta] j _. reflexivity.
Qed.

Lemma trinomial_payoffs_length (self : Trinomial.Trinomialmodell)
  (stock : list (list R)) (option_type : string) (payoffs : list R) :
  Trinomial.calculate_payoffs self stock option_type = Ok payoffs ->
  length payoffs = length (last_row stock).
Proof.
  unfold Trinomial.calculate_payoffs.
  destruct (_ || _)%bool.
  { destruct (Trinomial.is_put self); intros H; inversion H;
      apply length_map. }
  destruct (String.eqb option_type "power").
  { destruct (Trinomial.is_put self); intros H; inversion H;
      apply length_map. }
  destruct (String.eqb option_type "digital").
  { destruct (Trinomial.is_put self); intros H; inversion H;
      apply length_map. }
  destruct (String.eqb option_type "strangle"); [| discriminate].
  intros H. inversion H. rewrite np_add_map. apply length_map.
Qed.

Lemma trinomial_last_row_width (self : Trinomial.Trinomialmodell) :
  last_row (Trinomial.build_stock_price_tree self)
  = nth (Trinomial.steps self) (Trinomial.build_stock_price_tree self) []
  /\ length (last_row (Trinomial.build_stock_price_tree self))
     = (2 * Trinomial.steps self + 1)%nat.
Proof.
  destruct (trinomial_stock_shaped self) as [Hlen Hrows].
  rewrite last_row_nth, Hlen.
  replace (Trinomial.steps self + 1 - 1)%nat with (Trinomial.steps self)
    by lia.
  split; [reflexivity | apply Hrows; lia].
Qed.

(** Everything [price_option] leaves behind when it returns. *)
Lemma trinomial_price_option_inv (self : Trinomial.Trinomialmodell)
  (option_type : string) (t : Trinomial.Trees) (p : R) :
  Trinomial.price_option self option_type = Ok (t, p) ->
  let n := Trinomial.steps self in
  (0 <= Trinomial.N self)%Z
  /\ exists payoffs,
      Trinomial.calculate_payoffs self (Trinomial.build_stock_price_tree self)
        option_type = Ok payoffs
      /\ p = get2 0 (Trinomial.option_price_tree t) 0 n
      /\ Trinomial.stock_price_tree t = Trinomial.build_stock_price_tree self
      /\ shaped (n + 1) (2 * n + 1) (Trinomial.option_price_tree t)
      /\ nth n (Trinomial.option_price_tree t) [] = payoffs
      /\ (forall i j, (i < n)%nat -> (n - i <= j <= n + i)%nat ->
            get2 0 (Trinomial.option_price_tree t) i j
            = trinomial_node_value self (Trinomial.option_price_tree t) i j)
      /\ (forall i j, (i < n)%nat -> ~ (n - i <= j <= n + i)%nat ->
            get2 0 (Trinomial.option_price_tree t) i j = 0)
      /\ (forall i j, (i < n)%nat -> (n - i <= j <= n + i)%nat ->
            get2 (Fin 0) (Trinomial.delta_tree t) i j
            = trinomial_node_delta (Trinomial.stock_price_tree t)
                (Trinomial.option_price_tree t) i j)
      /\ (forall i j, ~ ((i < n)%nat /\ (n - i <= j <= n + i)%nat) ->
            get2 (Fin 0) (Trinomial.delta_tree t) i j = Fin 0).
Proof.
  intros Hprice n.
  unfold Trinomial.price_option, Trinomial.init_full_tree in Hprice.
  destruct (Z.ltb_spec (Trinomial.N self) 0) as [Hneg | HN];
    [discriminate |].
  split; [exact HN |].
  destruct (Trinomial.calculate_payoffs self
              (Trinomial.build_stock_price_tree self) option_type)
    as [payoffs | e] eqn:Hpay; [| discriminate].
  exists payoffs. split; [reflexivity |].
  assert (Hlen : length payoffs = (2 * n + 1)%nat).
  { rewrite (trinomial_payoffs_length _ _ _ _ Hpay).
    apply trinomial_last_row_width. }
  cbv beta iota zeta delta [bind] in Hprice.
  rewrite trinomial_backward_is_pair_sweep in Hprice. fold n in Hprice.
  set (stock := Trinomial.build_stock_price_tree self) in *.
  set (st0 := (set_last_row (zeros2 0 (n + 1) (2 * n + 1)) payoffs,
               zeros2 (Fin 0) (n + 1) (2 * n + 1))) in *.
  assert (Hshape : shaped (n + 1) (2 * n + 1) (fst st0))
    by (apply shaped_set_last_row; [apply shaped_zeros2 | exact Hlen]).
  destruct Hshape as [Hrows Hcols].
  assert (Hbounds_a : forall i, In i (range_down n) ->
            (i < length (fst st0))%nat
            /\ forall j, In j (range_from (n - i) (n + i + 1)) ->
                 (j < length (nth i (fst st0) []))%nat).
  { intros i Hi. apply in_range_down in Hi. rewrite Hrows, Hcols by lia.
    split; [lia |]. intros j Hj. apply in_range_from in Hj. lia. }
  assert (Hbounds_b : forall i, In i (range_down n) ->
            (i < length (snd st0))%nat
            /\ forall j, In j (range_from (n - i) (n + i + 1)) ->
                 (j < length (nth i (snd st0) []))%nat).
  { intros i Hi. apply in_range_down in Hi. simpl snd.
    rewrite length_zeros2, row_zeros2 by lia. rewrite repeat_length.
    split; [lia |]. intros j Hj. apply in_range_from in Hj. lia. }
  assert (HlocalF : forall i a1 a2, In i (range_down n) ->
            (forall k, k = (i + 1)%nat -> nth k a1 [] = nth k a2 []) ->
            forall j, trinomial_node_value self a1 i j
                      = trinomial_node_value self a2 i j).
  { intros i a1 a2 _ H j. unfold trinomial_node_value, get2.
    rewrite (H (i + 1)%nat eq_refl). reflexivity. }
  assert (HlocalG : forall i a1 a2, In i (range_down n) ->
            (forall k, k = (i + 1)%nat -> nth k a1 [] = nth k a2 []) ->
            forall j, trinomial_node_delta stock a1 i j
                      = trinomial_node_delta stock a2 i j).
  { intros i a1 a2 _ H j. unfold trinomial_node_delta, get2.
    rewrite (H (i + 1)%nat eq_refl). reflexivity. }
  pose proof (pair_sweep_fst (trinomial_node_value self)
                (trinomial_node_delta stock)
                (fun i => range_from (n - i) (n + i + 1)) (range_down n) st0)
    as Hfst.
  destruct (sweep_spec 0 (fun i k => k = (i + 1)%nat)
              (fun i => range_from (n - i) (n + i + 1))
              (trinomial_node_value self) (range_down n) HlocalF
              (ordered_range_down n) (fst st0) Hbounds_a)
    as (Hlen_a & Hwidth_a & Hkeep_a & Hin_a & Hout_a).
  destruct (pair_sweep_spec 0 (Fin 0) (trinomial_node_value self)
              (trinomial_node_delta stock) (fun i k => k = (i + 1)%nat)
              (fun i => range_from (n - i) (n + i + 1)) (range_down n)
              HlocalF HlocalG (ordered_range_down n) st0 Hbounds_a Hbounds_b)
    as (_ & _ & Hkeep_b & Hin_b & Hout_b).
  rewrite <- Hfst in Hlen_a, Hwidth_a, Hkeep_a, Hin_a, Hout_a.
  destruct (pair_sweep _ _ _ _ st0) as [opt delta] eqn:Hsweep.
  cbv beta iota zeta delta [bind] in Hprice. injection Hprice as <- <-.
  cbn [fst snd Trinomial.option_price_tree Trinomial.delta_tree
       Trinomial.stock_price_tree] in *.
  split; [reflexivity |]. split; [reflexivity |].
  split.
  { split; [rewrite Hlen_a; exact Hrows |].
    intros k Hk. rewrite Hwidth_a. apply Hcols. assumption. }
  split.
  { rewrite Hkeep_a by (rewrite in_range_down; lia).
    apply row_set_last_row_at, length_zeros2. }
  split.
  { intros i j Hi Hj. apply Hin_a; [apply in_range_down | apply in_range_from];
      lia. }
  split.
  { intros i j Hi Hj.
    rewrite Hout_a; [| apply in_range_down; lia | rewrite in_range_from; lia].
    unfold st0. cbn [fst]. unfold set_last_row, get2.
    rewrite nth_set1_other by (rewrite length_zeros2; lia).
    apply get2_zeros2. }
  split.
  { intros i j Hi Hj. apply Hin_b; [apply in_range_down | apply in_range_from];
      lia. }
  intros i j Hnot.
  destruct (Nat.lt_ge_cases i n) as [Hi | Hi].
  - rewrite Hout_b; [apply get2_zeros2 | apply in_range_down; lia |].
    rewrite in_range_from. lia.
  - unfold get2. rewrite Hkeep_b by (rewrite in_range_down; lia).
    apply (get2_zeros2 (Fin 0)).
Qed.

Lemma trinomial_payoffs_known (self : Trinomial.Trinomialmodell)
  (stock : list (list R)) (option_type : string) :
  if known_option_type option_type
  then exists payoffs,
      Trinomial.calculate_payoffs self stock option_type = Ok payoffs
  else Trinomial.calculate_payoffs self stock option_type = Raise ValueError.
Proof.
  unfold known_option_type, Trinomial.calculate_payoffs.
  destruct (String.eqb option_type "european"),
    (String.eqb option_type "american"),
    (String.eqb option_type "digital"),
    (String.eqb option_type "power"),
    (String.eqb option_type "strangle"); simpl;
    try reflexivity;
    try (destruct (Trinomial.is_put self); eexists; reflexivity);
    eexists; reflexivity.
Qed.

Lemma trinomial_priced (self : Trinomial.Trinomialmodell)
  (option_type : string) (payoffs : list R) :
  (0 <= Trinomial.N self)%Z ->
  Trinomial.calculate_payoffs self (Trinomial.build_stock_price_tree self)
    option_type = Ok payoffs ->
  exists t,
    Trinomial.price_option self option_type
    = Ok (t, get2 0 (Trinomial.option_price_tree t) 0 (Trinomial.steps self)).
Proof.
  intros HN Hpay. unfold Trinomial.price_option, Trinomial.init_full_tree.
  destruct (Z.ltb_spec (Trinomial.N self) 0) as [Hneg | _]; [lia |].
  rewrite Hpay. cbv beta iota zeta delta [bind].
  destruct (Trinomial.backward_induction _ _ _) as [opt delta].
  eexists. reflexivity.
Qed.

Lemma trinomial_known_priced (self : Trinomial.Trinomialmodell)
  (option_type : string) :
  (0 <= Trinomial.N self)%Z ->
  known_option_type option_type = true ->
  exists t p, Trinomial.price_option self option_type = Ok (t, p).
Proof.
  intros HN Hknown.
  pose proof (trinomial_payoffs_known self
                (Trinomial.build_stock_price_tree self) option_type) as H.
  rewrite Hknown in H. destruct H as [payoffs Hpay].
  destruct (trinomial_priced self option_type payoffs HN Hpay) as (t & Ht).
  eauto.
Qed.

(** The trinomial model has no early exercise: the family "american" and
    the flag [is_am] change nothing, lattice by lattice. *)
Lemma trinomial_flag_unused :
  forall (S0 K T r : R) (N : Z) (sigma : option R) (div : R) (is_put : bool)
         (K2 pu pd pm u d m : option R) (exponent : nat)
         (american european : Trinomial.Trinomialmodell),
    Trinomial.init S0 K T r N sigma div is_put K2 pu pd pm u d m true exponent
    = Ok american ->
    Trinomial.init S0 K T r N sigma div is_put K2 pu pd pm u d m false exponent
    = Ok european ->
    Trinomial.price_option american "american"
    = Trinomial.price_option european "european".
Proof.
  intros * Ha He. unfold Trinomial.init in Ha, He.
  inv_bind Ha. inv_bind Ha. inversion Ha; subst american. clear Ha.
  inv_bind He. inv_bind He. inversion He; subst european. clear He.
  assert (a1 = a) by congruence. subst a1.
  assert (a2 = a0) by congruence. subst a2.
  reflexivity.
Qed.

(** Every entry of the trinomial delta lattice is a finite number: 0 at the
    nodes the loops do not visit and where the two outer child prices
    coincide, the difference quotient elsewhere. *)
Lemma trinomial_delta_of_priced :
  forall (self : Trinomial.Trinomialmodell) (option_type : string)
         (t : Trinomial.Trees) (p : R),
    Trinomial.price_option self option_type = Ok (t, p) ->
    let n := Trinomial.steps self in
    forall i j,
      let v_up := get2 0 (Trinomial.option_price_tree t) (i + 1) (j + 1) in
      let v_down := get2 0 (Trinomial.option_price_tree t) (i + 1) (j - 1) in
      let s_up := get2 0 (Trinomial.stock_price_tree t) (i + 1) (j + 1) in
      let s_down := get2 0 (Trinomial.stock_price_tree t) (i + 1) (j - 1) in
      get2 (Fin 0) (Trinomial.delta_tree t) i j
      = Fin (if (i <? n)%nat && (n - i <=? j)%nat && (j <=? n + i)%nat
             then if Req_dec_T s_up s_down then 0
                  else (v_up - v_down) / (s_up - s_down)
             else 0).
Proof.
  intros self option_type t p Hprice n i j v_up v_down s_up s_down.
  destruct (trinomial_price_option_inv _ _ _ _ Hprice)
    as (_ & payoffs & _ & _ & _ & _ & _ & _ & _ & Hin & Hout).
  fold n in Hin, Hout.
  destruct (Nat.ltb_spec i n) as [Hi | Hi];
    destruct (Nat.leb_spec (n - i) j) as [Hj1 | Hj1];
    destruct (Nat.leb_spec j (n + i)) as [Hj2 | Hj2]; simpl;
    try (apply Hout; lia).
  rewrite Hin by lia. unfold trinomial_node_delta.
  fold s_up s_down v_up v_down.
  destruct (Req_dec_T s_up s_down) as [Heq | Hne]; [reflexivity |].
  unfold np_truediv.
  destruct (Req_dec_T (s_up - s_down) 0); [exfalso; apply Hne; lra |].
  reflexivity.
Qed.

(** ** Put-call parity on the trinomial lattice *)

Lemma band_induction (n : nat) (P : nat -> nat -> Prop) :
  (forall j, (j <= 2 * n)%nat -> P n j) ->
  (forall i, (i < n)%nat ->
             (forall j, (n - (i + 1) <= j <= n + (i + 1))%nat ->
                        P (i + 1)%nat j) ->
             forall j, (n - i <= j <= n + i)%nat -> P i j) ->
  forall i j, (i <= n)%nat -> (n - i <= j <= n + i)%nat -> P i j.
Proof.
  intros Hbase Hstep.
  assert (H : forall m i, (i + m = n)%nat ->
                forall j, (n - i <= j <= n + i)%nat -> P i j).
  { induction m as [| m IH]; intros i Him j Hj.
    - replace i with n by lia. apply Hbase. lia.
    - apply Hstep; [lia | | assumption].
      intros j' Hj'. apply IH; lia. }
  intros i j Hi Hj. apply (H (n - i)%nat); [lia | assumption].
Qed.

(** With [u * d = 1] the three children of a node carry its price times
    [u], times 1 and times [d]. *)
Lemma trinomial_stock_children (self : Trinomial.Trinomialmodell) (i j : nat) :
  Trinomial.u self * Trinomial.d self = 1 ->
  (i < Trinomial.steps self)%nat ->
  (Trinomial.steps self - i <= j <= Trinomial.steps self + i)%nat ->
  let stock := Trinomial.build_stock_price_tree self in
  get2 0 stock (i + 1) (j + 1) = Trinomial.u self * get2 0 stock i j
  /\ get2 0 stock (i + 1) j = get2 0 stock i j
  /\ get2 0 stock (i + 1) (j - 1) = Trinomial.d self * get2 0 stock i j.
Proof.
  intros Hud Hi Hj stock. subst stock.
  rewrite !trinomial_stock_price_at by lia.
  unfold trinomial_price. set (n := Trinomial.steps self) in *.
  destruct (Nat.leb_spec (n - (i + 1)) (j + 1)); [| lia].
  destruct (Nat.leb_spec (j + 1) (n + (i + 1))); [| lia].
  destruct (Nat.leb_spec (n - (i + 1)) j); [| lia].
  destruct (Nat.leb_spec j (n + (i + 1))); [| lia].
  destruct (Nat.leb_spec (n - (i + 1)) (j - 1)); [| lia].
  destruct (Nat.leb_spec (j - 1) (n + (i + 1))); [| lia].
  destruct (Nat.leb_spec (n - i) j); [| lia].
  destruct (Nat.leb_spec j (n + i)); [| lia].
  cbn [andb].
  destruct (lt_eq_lt_dec j n) as [[Hlt | Heq] | Hgt].
  - destruct (Nat.ltb_spec n j); [lia |].
    destruct (Nat.ltb_spec j n); [| lia].
    destruct (Nat.ltb_spec n (j - 1)); [lia |].
    destruct (Nat.ltb_spec (j - 1) n); [| lia].
    destruct (Nat.ltb_spec n (j + 1)); [lia |].
    replace (n - (j - 1))%nat with (S (n - j)) by lia.
    split; [| split; [reflexivity | simpl; ring]].
    destruct (Nat.ltb_spec (j + 1) n).
    + replace (n - j)%nat with (S (n - (j + 1))) by lia. simpl.
      transitivity (Trinomial.S0 self * Trinomial.d self ^ (n - (j + 1))
                    * (Trinomial.u self * Trinomial.d self)); [| ring].
      rewrite Hud. ring.
    + replace (n - j)%nat with 1%nat by lia. simpl.
      transitivity (Trinomial.S0 self
                    * (Trinomial.u self * Trinomial.d self)); [| ring].
      rewrite Hud. ring.
  - subst j.
    destruct (Nat.ltb_spec n n); [lia |].
    destruct (Nat.ltb_spec n (n + 1)); [| lia].
    destruct (Nat.ltb_spec n (n - 1)); [lia |].
    destruct (Nat.ltb_spec (n - 1) n); [| lia].
    replace (n + 1 - n)%nat with 1%nat by lia.
    replace (n - (n - 1))%nat with 1%nat by lia.
    simpl. repeat split; ring.
  - destruct (Nat.ltb_spec n j); [| lia].
    destruct (Nat.ltb_spec n (j + 1)); [| lia].
    destruct (Nat.ltb_spec (j - 1) n); [lia |].
    replace (j + 1 - n)%nat with (S (j - n)) by lia.
    split; [simpl; ring | split; [reflexivity |]].
    destruct (Nat.ltb_spec n (j - 1)).
    + replace (j - n)%nat with (S (j - 1 - n)) by lia. simpl.
      transitivity (Trinomial.S0 self * Trinomial.u self ^ (j - 1 - n)
                    * (Trinomial.u self * Trinomial.d self)); [| ring].
      rewrite Hud. ring.
    + replace (j - n)%nat with 1%nat by lia. simpl.
      transitivity (Trinomial.S0 self
                    * (Trinomial.u self * Trinomial.d self)); [| ring].
      rewrite Hud. ring.
Qed.

Lemma trinomial_terminal_of_priced (self : Trinomial.Trinomialmodell)
  (f : R -> R) (t : Trinomial.Trees) :
  Trinomial.stock_price_tree t = Trinomial.build_stock_price_tree self ->
  nth (Trinomial.steps self) (Trinomial.option_price_tree t) []
  = map f (last_row (Trinomial.build_stock_price_tree self)) ->
  forall j, (j <= 2 * Trinomial.steps self)%nat ->
    get2 0 (Trinomial.option_price_tree t) (Trinomial.steps self) j
    = f (get2 0 (Trinomial.stock_price_tree t) (Trinomial.steps self) j).
Proof.
  intros Hstock Hrow j Hj.
  destruct (trinomial_last_row_width self) as [Hlast Hwidth].
  unfold get2. rewrite Hrow, Hstock, <- Hlast.
  apply nth_map_in_range. lia.
Qed.

Lemma vanilla_difference_flipped (k s : R) :
  Rmax (s - k) 0 - Rmax (k - s) 0 = s - k.
Proof.
  unfold Rmax. destruct (Rle_dec (s - k) 0), (Rle_dec (k - s) 0); lra.
Qed.

Section TrinomialEuropeanPair.

(** A call and a put over one lattice whose up and down factors cancel. *)
Variables call put : Trinomial.Trinomialmodell.

Hypothesis tri_steps_counted : (0 <= Trinomial.N call)%Z.
Hypothesis tri_same_N : Trinomial.N call = Trinomial.N put.
Hypothesis tri_same_S0 : Trinomial.S0 call = Trinomial.S0 put.
Hypothesis tri_same_K : Trinomial.K call = Trinomial.K put.
Hypothesis tri_same_u : Trinomial.u call = Trinomial.u put.
Hypothesis tri_same_d : Trinomial.d call = Trinomial.d put.
Hypothesis tri_same_pu : Trinomial.pu call = Trinomial.pu put.
Hypothesis tri_same_pm : Trinomial.pm call = Trinomial.pm put.
Hypothesis tri_same_pd : Trinomial.pd call = Trinomial.pd put.
Hypothesis tri_same_df : Trinomial.df call = Trinomial.df put.
Hypothesis tri_call_side : Trinomial.is_put call = false.
Hypothesis tri_put_side : Trinomial.is_put put = true.
Hypothesis tri_recombining : Trinomial.u call * Trinomial.d call = 1.

Lemma trinomial_pair_steps : Trinomial.steps call = Trinomial.steps put.
Proof. unfold Trinomial.steps. rewrite tri_same_N. reflexivity. Qed.

Lemma trinomial_pair_stock :
  Trinomial.build_stock_price_tree call = Trinomial.build_stock_price_tree put.
Proof.
  unfold Trinomial.build_stock_price_tree.
  rewrite trinomial_pair_steps, tri_same_S0, tri_same_u, tri_same_d. reflexivity.
Qed.

Lemma trinomial_parity_lattice :
  exists t_call t_put,
    Trinomial.price_option call "european"
    = Ok (t_call, get2 0 (Trinomial.option_price_tree t_call) 0
                    (Trinomial.steps call))
    /\ Trinomial.price_option put "european"
       = Ok (t_put, get2 0 (Trinomial.option_price_tree t_put) 0
                      (Trinomial.steps call))
    /\ forall i j, (i <= Trinomial.steps call)%nat ->
         (Trinomial.steps call - i <= j <= Trinomial.steps call + i)%nat ->
         get2 0 (Trinomial.option_price_tree t_call) i j
         - get2 0 (Trinomial.option_price_tree t_put) i j
         = get2 0 (Trinomial.build_stock_price_tree call) i j
           * (Trinomial.df call
              * (Trinomial.pu call * Trinomial.u call + Trinomial.pm call
                 + Trinomial.pd call * Trinomial.d call))
             ^ (Trinomial.steps call - i)
           - Trinomial.K call
             * (Trinomial.df call
                * (Trinomial.pu call + Trinomial.pm call + Trinomial.pd call))
               ^ (Trinomial.steps call - i).
Proof.
  assert (Hpc : Trinomial.calculate_payoffs call
                  (Trinomial.build_stock_price_tree call) "european"
                = Ok (map (fun s => Rmax (s - Trinomial.K call) 0)
                        (last_row (Trinomial.build_stock_price_tree call)))).
  { unfold Trinomial.calculate_payoffs. simpl. rewrite tri_call_side.
    reflexivity. }
  assert (Hpp : Trinomial.calculate_payoffs put
                  (Trinomial.build_stock_price_tree put) "european"
                = Ok (map (fun s => Rmax (Trinomial.K put - s) 0)
                        (last_row (Trinomial.build_stock_price_tree put)))).
  { unfold Trinomial.calculate_payoffs. simpl. rewrite tri_put_side.
    reflexivity. }
  assert (HNp : (0 <= Trinomial.N put)%Z) by (rewrite <- tri_same_N; assumption).
  destruct (trinomial_priced call "european" _ tri_steps_counted Hpc)
    as (tc & Hprice_c).
  destruct (trinomial_priced put "european" _ HNp Hpp) as (tp & Hprice_p).
  destruct (trinomial_price_option_inv _ _ _ _ Hprice_c)
    as (_ & pc & Hpc' & _ & Hstock_c & _ & Hrow_c & Hrec_c & _).
  destruct (trinomial_price_option_inv _ _ _ _ Hprice_p)
    as (_ & pp & Hpp' & _ & Hstock_p & _ & Hrow_p & Hrec_p & _).
  rewrite Hpc in Hpc'. injection Hpc' as Hpc'. rewrite <- Hpc' in Hrow_c.
  rewrite Hpp in Hpp'. injection Hpp' as Hpp'. rewrite <- Hpp' in Hrow_p.
  exists tc, tp. split; [exact Hprice_c |].
  split; [rewrite trinomial_pair_steps; exact Hprice_p |].
  pose proof (trinomial_terminal_of_priced call _ tc Hstock_c Hrow_c)
    as Hterm_c.
  pose proof (trinomial_terminal_of_priced put _ tp Hstock_p Hrow_p)
    as Hterm_p.
  set (n := Trinomial.steps call) in *.
  assert (Hn : Trinomial.steps put = n) by (symmetry; apply trinomial_pair_steps).
  rewrite Hn in *.
  set (up := Trinomial.df call
             * (Trinomial.pu call * Trinomial.u call + Trinomial.pm call
                + Trinomial.pd call * Trinomial.d call)).
  set (flat := Trinomial.df call
               * (Trinomial.pu call + Trinomial.pm call + Trinomial.pd call)).
  apply (band_induction n
           (fun i j =>
              get2 0 (Trinomial.option_price_tree tc) i j
              - get2 0 (Trinomial.option_price_tree tp) i j
              = get2 0 (Trinomial.build_stock_price_tree call) i j
                * up ^ (n - i) - Trinomial.K call * flat ^ (n - i))).
  - intros j Hj. rewrite Hterm_c, Hterm_p by assumption.
    rewrite Hstock_c, Hstock_p, <- trinomial_pair_stock, <- tri_same_K.
    rewrite vanilla_difference_flipped, Nat.sub_diag. simpl. ring.
  - intros i Hi IH j Hj.
    rewrite Hrec_c, Hrec_p by assumption.
    unfold trinomial_node_value.
    rewrite <- tri_same_pu, <- tri_same_pm, <- tri_same_pd, <- tri_same_df.
    pose proof (IH (j + 1)%nat ltac:(lia)) as IH1.
    pose proof (IH j ltac:(lia)) as IH2.
    pose proof (IH (j - 1)%nat ltac:(lia)) as IH3.
    destruct (trinomial_stock_children call i j tri_recombining Hi Hj)
      as (Hup & Hmid & Hdown).
    simpl in Hup, Hmid, Hdown.
    rewrite Hup in IH1. rewrite Hmid in IH2. rewrite Hdown in IH3.
    replace (n - i)%nat with (S (n - (i + 1))) by lia.
    set (k := (n - (i + 1))%nat) in *.
    set (vc1 := get2 0 (Trinomial.option_price_tree tc) (i + 1) (j + 1)) in *.
    set (vc2 := get2 0 (Trinomial.option_price_tree tc) (i + 1) j) in *.
    set (vc3 := get2 0 (Trinomial.option_price_tree tc) (i + 1) (j - 1)) in *.
    set (vp1 := get2 0 (Trinomial.option_price_tree tp) (i + 1) (j + 1)) in *.
    set (vp2 := get2 0 (Trinomial.option_price_tree tp) (i + 1) j) in *.
    set (vp3 := get2 0 (Trinomial.option_price_tree tp) (i + 1) (j - 1)) in *.
    simpl pow.
    replace ((Trinomial.pu call * vc1 + Trinomial.pm call * vc2
              + Trinomial.pd call * vc3) * Trinomial.df call
             - (Trinomial.pu call * vp1 + Trinomial.pm call * vp2
                + Trinomial.pd call * vp3) * Trinomial.df call)
      with (Trinomial.df call
            * (Trinomial.pu call * (vc1 - vp1)
               + Trinomial.pm call * (vc2 - vp2)
               + Trinomial.pd call * (vc3 - vp3))) by ring.
    rewrite IH1, IH2, IH3. unfold up, flat. ring.
Qed.

End TrinomialEuropeanPair.

(** ** The trinomial calibration *)

Lemma math_sqrt_inv (x y : R) : math_sqrt x = Ok y -> 0 <= x /\ y = sqrt x.
Proof.
  unfold math_sqrt. destruct (Rlt_dec x 0); intros H; inversion H.
  split; [lra | reflexivity].
Qed.

Lemma sqrt_twice (dt : R) : 0 <= dt -> sqrt (2 * dt) = 2 * sqrt (dt / 2).
Proof.
  intros Hdt.
  assert (Hh : 0 <= sqrt (dt / 2)) by apply sqrt_pos.
  replace (2 * dt) with ((2 * sqrt (dt / 2)) * (2 * sqrt (dt / 2))).
  - apply sqrt_square. lra.
  - transitivity (4 * (sqrt (dt / 2) * sqrt (dt / 2))); [ring |].
    rewrite sqrt_sqrt by lra. field.
Qed.

Lemma exp_half_gap (x : R) : x <> 0 -> exp x - exp (- x) <> 0.
Proof.
  intros Hx.
  destruct (Rtotal_order x 0) as [Hneg | [H0 | Hpos]]; [| contradiction |].
  - pose proof (exp_increasing x (- x) ltac:(lra)). lra.
  - pose proof (exp_increasing (- x) x ltac:(lra)). lra.
Qed.

(** What [setup_parameters] of the trinomial model computes: factors that
    cancel, probabilities that sum to 1, and a one-step mean of
    exp((r - div) dt). *)
Lemma trinomial_calibration_facts (c : Trinomial.Calibration) (r div dt s : R) :
  Trinomial.setup_parameters r div dt s = Ok c ->
  0 <= dt
  /\ s * sqrt (dt / 2) <> 0
  /\ Trinomial.c_u c = exp (s * sqrt (2 * dt))
  /\ Trinomial.c_u c * Trinomial.c_d c = 1
  /\ Trinomial.c_m c = 1
  /\ Trinomial.c_pu c + Trinomial.c_pm c + Trinomial.c_pd c = 1
  /\ Trinomial.c_pu c * Trinomial.c_u c + Trinomial.c_pm c
     + Trinomial.c_pd c * Trinomial.c_d c = exp ((r - div) * dt).
Proof.
  unfold Trinomial.setup_parameters. intros H.
  inv_bind H. apply math_sqrt_inv in Ha. destruct Ha as [Hdt ->].
  inv_bind H. apply truediv_inv in Ha. destruct Ha as [Hu ->].
  inv_bind H. apply math_sqrt_inv in Ha. destruct Ha as [_ ->].
  inv_bind H. apply truediv_inv in Ha. destruct Ha as [Hgap ->].
  inv_bind H. apply truediv_inv in Ha. destruct Ha as [_ ->].
  inversion H; subst c; clear H. simpl.
  assert (Hdt' : 0 <= dt) by lra.
  rewrite (sqrt_twice dt Hdt') in *.
  set (h := sqrt (dt / 2)) in *.
  assert (Hsh : s * h <> 0).
  { intros H0. apply Hgap. replace (- s * h) with (- (s * h)) by ring.
    rewrite H0, Ropp_0. lra. }
  set (a := exp (s * h)) in *.
  assert (Hb : exp (- s * h) = / a).
  { replace (- s * h) with (- (s * h)) by ring. apply exp_Ropp. }
  assert (Ha0 : 0 < a) by apply exp_pos.
  assert (Hu2 : exp (s * (2 * h)) = a * a).
  { unfold a. rewrite <- exp_plus. f_equal. ring. }
  set (e := exp ((r - div) * dt / 2)).
  assert (He : exp ((r - div) * dt) = e * e).
  { unfold e. rewrite <- exp_plus. f_equal. field. }
  rewrite Hb in Hgap. rewrite Hb, Hu2, He.
  assert (Haa : a * a - 1 <> 0).
  { intros H0. apply Hgap.
    replace (a - / a) with ((a * a - 1) / a) by (field; lra).
    rewrite H0. field. lra. }
  repeat split; try assumption; try reflexivity;
    try (field; repeat split; lra).
Qed.

Lemma trinomial_init_fields (S0 K T r : R) (N : Z) (sigma : option R)
  (div : R) (is_put : bool) (K2 pu pd pm u d m : option R) (is_am : bool)
  (exponent : nat) (self : Trinomial.Trinomialmodell) :
  Trinomial.init S0 K T r N sigma div is_put K2 pu pd pm u d m is_am exponent
  = Ok self ->
  N <> 0%Z
  /\ exists c,
      match sigma with
      | Some s => Trinomial.setup_parameters r div (T / IZR N) s
      | None =>
          match u, d, m, pu, pd, pm with
          | Some u', Some d', Some m', Some pu', Some pd', Some pm' =>
              Ok (Trinomial.mkCalibration u' d' m' pu' pd' pm')
          | _, _, _, _, _, _ => Raise ValueError
          end
      end = Ok c
      /\ self = Trinomial.mkTrinomialmodell S0 K
                  (match K2 with Some k2 => k2 | None => K end) r T N div
                  is_put (negb is_put) is_am (T / IZR N)
                  (exp (- r * (T / IZR N))) exponent sigma
                  (Trinomial.c_u c) (Trinomial.c_d c) (Trinomial.c_m c)
                  (Trinomial.c_pu c) (Trinomial.c_pd c) (Trinomial.c_pm c).
Proof.
  unfold Trinomial.init. intros H.
  inv_bind H. apply truediv_inv in Ha. destruct Ha as [HN ->].
  inv_bind H. inversion H; subst self.
  split; [intros ->; apply HN; reflexivity |].
  exists a. split; [assumption | reflexivity].
Qed.

Lemma trinomial_volatility_returns (S0 K T r : R) (N : Z) (s div : R)
  (is_put : bool) (K2 pu pd pm u d m : option R) (is_am : bool)
  (exponent : nat) :
  N <> 0%Z -> 0 < T / IZR N -> s <> 0 ->
  exists self,
    Trinomial.init S0 K T r N (Some s) div is_put K2 pu pd pm u d m is_am
      exponent = Ok self.
Proof.
  intros HN Hdt Hs. unfold Trinomial.init, Trinomial.setup_parameters.
  rewrite truediv_ok by (apply not_0_IZR; assumption). simpl.
  rewrite math_sqrt_ok by lra. simpl.
  rewrite truediv_ok
    by (pose proof (exp_pos (s * sqrt (2 * (T / IZR N)))); lra).
  simpl. rewrite math_sqrt_ok by lra. simpl.
  assert (Hh : 0 < sqrt (T / IZR N / 2)) by (apply sqrt_lt_R0; lra).
  assert (Hgap : exp (s * sqrt (T / IZR N / 2))
                 - exp (- s * sqrt (T / IZR N / 2)) <> 0).
  { replace (- s * sqrt (T / IZR N / 2))
      with (- (s * sqrt (T / IZR N / 2))) by ring.
    apply exp_half_gap. apply Rmult_integral_contrapositive_currified; lra. }
  rewrite !truediv_ok by assumption. simpl. eexists. reflexivity.
Qed.

(** * What the models guarantee *)

(** ** The binomial constructor *)

Lemma binomial_volatility_returns (S0 K T r : R) (N : Z) (s div : R)
  (is_put : bool) (K2 : option R) (exponent : nat) (pu pd : option R)
  (is_am : bool) (payoff : R) :
  0 < T -> s <> 0 ->
  exists self,
    Binomial.init S0 K T r N (Some s) div is_put K2 exponent pu pd is_am payoff
    = Ok self.
Proof.
  intros HT Hs. unfold Binomial.init, Binomial.setup_parameters_with_sigma.
  assert (Hn : 0 < IZR (Z.max 1 N)) by (apply IZR_lt; lia).
  assert (Hdt : 0 < T / IZR (Z.max 1 N)) by (apply Rdiv_lt_0_compat; lra).
  rewrite truediv_ok by lra. simpl.
  rewrite math_sqrt_ok by lra. simpl.
  set (x := s * sqrt (T / IZR (Z.max 1 N))).
  assert (Hx : x <> 0).
  { apply Rmult_integral_contrapositive_currified; [assumption |].
    pose proof (sqrt_lt_R0 _ Hdt). lra. }
  pose proof (exp_pos x) as Hu.
  rewrite truediv_ok by lra. simpl.
  rewrite truediv_ok.
  - simpl. eexists. reflexivity.
  - replace (1 / exp x) with (exp (- x))
      by (rewrite exp_Ropp; field; lra).
    apply exp_half_gap. assumption.
Qed.

(** X1.  The binomial constructor on the volatility path: a negative maturity
    makes [math.sqrt] raise, a zero volatility or maturity makes u = d = 1
    and the division for [qu] raise; otherwise the instance is the
    Cox-Ross-Rubinstein lattice with its risk-neutral probabilities. *)
Theorem binomial_volatility_construction :
  forall (S0 K T r : R) (N : Z) (s div : R) (is_put : bool) (K2 : option R)
         (exponent : nat) (pu pd : option R) (is_am : bool) (payoff : R),
    let construct :=
      Binomial.init S0 K T r N (Some s) div is_put K2 exponent pu pd is_am
        payoff in
    (T < 0 -> construct = Raise ValueError)
    /\ (0 <= T -> s = 0 \/ T = 0 -> construct = Raise ZeroDivisionError)
    /\ (0 < T -> s <> 0 ->
        exists self,
          construct = Ok self
          /\ Binomial.N self = Z.max 1 N
          /\ Binomial.u self = exp (s * sqrt (T / IZR (Z.max 1 N)))
          /\ Binomial.u self * Binomial.d self = 1
          /\ Binomial.qu self + Binomial.qd self = 1
          /\ Binomial.qu self * Binomial.u self
             + Binomial.qd self * Binomial.d self
             = exp ((r - div) * (T / IZR (Z.max 1 N)))).
Proof.
  intros. subst construct.
  assert (Hn : 0 < IZR (Z.max 1 N)) by (apply IZR_lt; lia).
  split; [| split].
  - intros HT. unfold Binomial.init, Binomial.setup_parameters_with_sigma.
    rewrite truediv_ok by lra. simpl.
    rewrite math_sqrt_neg; [reflexivity |].
    apply Rmult_neg_pos; [assumption | apply Rinv_0_lt_compat; assumption].
  - intros HT Hzero.
    unfold Binomial.init, Binomial.setup_parameters_with_sigma.
    rewrite truediv_ok by lra. simpl.
    assert (Hdt : 0 <= T / IZR (Z.max 1 N)).
    { apply Rmult_le_pos; [assumption |].
      apply Rlt_le, Rinv_0_lt_compat. assumption. }
    rewrite math_sqrt_ok by assumption. simpl.
    assert (Hx : s * sqrt (T / IZR (Z.max 1 N)) = 0).
    { destruct Hzero as [-> | ->]; [ring |].
      unfold Rdiv. rewrite Rmult_0_l, sqrt_0. ring. }
    rewrite Hx, exp_0.
    rewrite truediv_ok by lra. simpl.
    rewrite truediv_zero by lra. reflexivity.
  - intros HT Hs.
    destruct (binomial_volatility_returns S0 K T r N s div is_put K2 exponent
                pu pd is_am payoff HT Hs) as [self Hself].
    exists self. split; [exact Hself |].
    apply binomial_init_fields in Hself. destruct Hself as (c & Hc & ->).
    pose proof (binomial_calibration_sum c T r (Z.max 1 N) div (Some s) pu pd
                  Hc) as Hsum.
    apply (binomial_calibration_facts c T r (Z.max 1 N) div (Some s) pu pd)
      in Hc.
    destruct Hc as (_ & Hdt & _ & Hne & Hqu & Hqd & _ & Hu & Hd).
    simpl. rewrite <- Hdt.
    split; [reflexivity |]. split; [exact Hu |].
    assert (Hupos : 0 < Binomial.c_u c) by (rewrite Hu; apply exp_pos).
    split; [rewrite Hd; field; lra |].
    split; [exact Hsum |].
    rewrite Hqd, Hqu. field. lra.
Qed.

Lemma binomial_volatility_construction_witness :
  Binomial.init 100 100 (-1) 0 2 (Some (1 / 5)) 0 false None 2 None None
    false 1 = Raise ValueError
  /\ Binomial.init 100 100 1 0 2 (Some 0) 0 false None 2 None None false 1
     = Raise ZeroDivisionError
  /\ exists self,
      Binomial.init 100 100 1 0 2 (Some (1 / 5)) 0 false None 2 None None
        false 1 = Ok self
      /\ Binomial.u self * Binomial.d self = 1.
Proof.
  split; [| split].
  - destruct (binomial_volatility_construction 100 100 (-1) 0 2 (1 / 5) 0
                false None 2 None None false 1) as (H & _).
    apply H. lra.
  - destruct (binomial_volatility_construction 100 100 1 0 2 0 0 false
                None 2 None None false 1) as (_ & H & _).
    apply H; [lra | left; reflexivity].
  - destruct (binomial_volatility_construction 100 100 1 0 2 (1 / 5) 0 false
                None 2 None None false 1) as (_ & _ & H).
    destruct H as (self & Hself & _ & _ & Hud & _); [lra | lra |].
    exists self. split; [exact Hself | exact Hud].
Defined.

(** X2.  The binomial constructor on the direct path reads [pu] and [pd] as
    the sizes of the up and the down move, not as probabilities: u = 1 +
    pu, d = 1 - pd, and the probabilities are the risk-neutral ones of
    these factors. It raises when the two moves cancel. *)
Theorem binomial_direct_construction :
  forall (S0 K T r : R) (N : Z) (div : R) (is_put : bool) (K2 : option R)
         (exponent : nat) (pu pd : R) (is_am : bool) (payoff : R),
    let construct :=
      Binomial.init S0 K T r N None div is_put K2 exponent (Some pu) (Some pd)
        is_am payoff in
    (pu + pd = 0 -> construct = Raise ZeroDivisionError)
    /\ (pu + pd <> 0 ->
        exists self,
          construct = Ok self
          /\ Binomial.N self = Z.max 1 N
          /\ Binomial.u self = 1 + pu
          /\ Binomial.d self = 1 - pd
          /\ Binomial.qu self
             = (exp ((r - div) * (T / IZR (Z.max 1 N))) - (1 - pd)) / (pu + pd)
          /\ Binomial.qd self = 1 - Binomial.qu self).
Proof.
  intros. subst construct.
  unfold Binomial.init, Binomial.setup_parameters_without_sigma.
  rewrite truediv_ok by apply floored_steps_nonzero. simpl.
  split.
  - intros H0. rewrite truediv_zero by lra. reflexivity.
  - intros Hne. rewrite truediv_ok by lra. simpl.
    eexists. split; [reflexivity |]. simpl.
    repeat split. field. lra.
Qed.

Lemma binomial_direct_construction_witness :
  Binomial.init 100 100 1 0 2 None 0 false None 2 (Some (1 / 2))
    (Some (- (1 / 2))) false 1 = Raise ZeroDivisionError
  /\ exists self,
      Binomial.init 100 100 1 0 2 None 0 false None 2 (Some (1 / 2))
        (Some (1 / 4)) false 1 = Ok self
      /\ Binomial.u self = 1 + 1 / 2.
Proof.
  split.
  - destruct (binomial_direct_construction 100 100 1 0 2 0 false None 2
                (1 / 2) (- (1 / 2)) false 1) as (H & _).
    apply H. lra.
  - destruct (binomial_direct_construction 100 100 1 0 2 0 false None 2
                (1 / 2) (1 / 4) false 1) as (_ & H).
    destruct H as (self & Hself & _ & Hu & _); [lra |].
    exists self. split; [exact Hself | exact Hu].
Defined.

(** X3.  Whatever path built it, a binomial instance is risk neutral in its
    own discounting: the probabilities sum to 1, one discounted step keeps
    the price in the mean, and the step discount factors multiply to
    exp(-(r - div) T) (the dividend yield is taken off the discount rate). *)
Theorem binomial_risk_neutral_calibration :
  forall (S0 K T r : R) (N : Z) (sigma : option R) (div : R) (is_put : bool)
         (K2 : option R) (exponent : nat) (pu pd : option R) (is_am : bool)
         (payoff : R) (self : Binomial.Binomialmodell),
    Binomial.init S0 K T r N sigma div is_put K2 exponent pu pd is_am payoff
    = Ok self ->
    (1 <= Binomial.N self)%Z
    /\ Binomial.dt self = T / IZR (Binomial.N self)
    /\ Binomial.qu self + Binomial.qd self = 1
    /\ Binomial.df self
       * (Binomial.qu self * Binomial.u self
          + Binomial.qd self * Binomial.d self) = 1
    /\ Binomial.df self ^ Binomial.steps self = exp (- (r - div) * T).
Proof.
  intros * Hinit.
  apply binomial_init_fields in Hinit. destruct Hinit as (c & Hc & ->).
  unfold Binomial.steps. simpl.
  split; [lia |].
  split; [apply (binomial_calibration_facts c T r (Z.max 1 N) div sigma pu pd);
          exact Hc |].
  split; [apply (binomial_calibration_sum _ _ _ _ _ _ _ _ Hc) |].
  split; [apply (binomial_one_step_martingale _ _ _ _ _ _ _ _ Hc) |].
  apply (binomial_total_discount c T r (Z.max 1 N) div sigma pu pd);
    [lia | exact Hc].
Qed.

Lemma binomial_risk_neutral_calibration_witness :
  exists self,
    Binomial.init 50 52 1 0 2 None 0 true None 2 (Some (1 / 2)) (Some (1 / 2))
      false 1 = Ok self
    /\ Binomial.df self
       * (Binomial.qu self * Binomial.u self
          + Binomial.qd self * Binomial.d self) = 1.
Proof.
  eexists. split; [apply binomial_half_half |].
  apply (binomial_risk_neutral_calibration 50 52 1 0 2 None 0 true None 2
           (Some (1 / 2)) (Some (1 / 2)) false 1).
  apply binomial_half_half.
Defined.

(** ** The binomial lattices *)

(** X4.  Cox-Ross-Rubinstein calibration: the lattice recombines, and with a
    non-negative volatility and spot its levels are ordered. *)
Theorem binomial_volatility_lattice :
  forall (S0 K T r : R) (N : Z) (s div : R) (is_put : bool) (K2 : option R)
         (exponent : nat) (pu pd : option R) (is_am : bool) (payoff : R)
         (self : Binomial.Binomialmodell),
    Binomial.init S0 K T r N (Some s) div is_put K2 exponent pu pd is_am payoff
    = Ok self ->
    let stock := Binomial.build_stock_price_tree self in
    Binomial.u self * Binomial.d self = 1
    /\ 0 < Binomial.d self
    /\ (forall i j, (i + 2 <= Binomial.steps self)%nat -> (j <= i)%nat ->
          get2 0 stock (i + 2) (j + 1) = get2 0 stock i j)
    /\ (0 <= s -> 0 <= S0 ->
        Binomial.d self <= 1 <= Binomial.u self
        /\ forall i j, (i <= Binomial.steps self)%nat -> (j < i)%nat ->
             get2 0 stock i (j + 1) <= get2 0 stock i j).
Proof.
  intros * Hinit stock.
  apply binomial_init_fields in Hinit. destruct Hinit as (c & Hc & ->).
  apply (binomial_calibration_facts c T r (Z.max 1 N) div (Some s) pu pd)
    in Hc.
  destruct Hc as (_ & _ & _ & _ & _ & _ & Hdt & Hu & Hd).
  subst stock. simpl Binomial.u. simpl Binomial.d.
  set (self := Binomial.mkBinomialmodell _ _ _ _ _ _ _ _ _ _ _ _ _ _ _ _ _ _ _).
  assert (Hupos : 0 < Binomial.c_u c) by (rewrite Hu; apply exp_pos).
  assert (Hud : Binomial.c_u c * Binomial.c_d c = 1)
    by (rewrite Hd; field; lra).
  assert (Hdpos : 0 < Binomial.c_d c)
    by (rewrite Hd; apply Rdiv_lt_0_compat; lra).
  split; [exact Hud |]. split; [exact Hdpos |]. split.
  - intros i j Hi Hj. rewrite !binomial_stock_price_at by lia.
    destruct (Nat.leb_spec (j + 1) (i + 2)); [| lia].
    destruct (Nat.leb_spec j i); [| lia].
    replace (i + 2 - (j + 1))%nat with (S (i - j)) by lia.
    replace (j + 1)%nat with (S j) by lia.
    simpl.
    replace (S0 * (Binomial.c_u c * Binomial.c_u c ^ (i - j))
             * (Binomial.c_d c * Binomial.c_d c ^ j))
      with (S0 * Binomial.c_u c ^ (i - j) * Binomial.c_d c ^ j
            * (Binomial.c_u c * Binomial.c_d c)) by ring.
    rewrite Hud. ring.
  - intros Hs HS0.
    assert (Hu1 : 1 <= Binomial.c_u c).
    { rewrite Hu. apply exp_ge_1. apply Rmult_le_pos; [assumption |].
      apply sqrt_pos. }
    assert (Hd1 : Binomial.c_d c <= 1) by nra.
    split; [split; assumption |].
    intros i j Hi Hj. rewrite !binomial_stock_price_at by lia.
    destruct (Nat.leb_spec (j + 1) i); [| lia].
    destruct (Nat.leb_spec j i); [| lia].
    replace (i - j)%nat with (S (i - (j + 1))) by lia.
    replace (j + 1)%nat with (S j) at 2 by lia.
    simpl.
    set (a := Binomial.c_u c ^ (i - (j + 1))).
    set (b := Binomial.c_d c ^ j).
    assert (Ha : 0 <= a) by (apply pow_le; lra).
    assert (Hb : 0 <= b) by (apply pow_le; lra).
    assert (Hab : 0 <= S0 * a * b)
      by (apply Rmult_le_pos; [apply Rmult_le_pos |]; assumption).
    replace (S0 * a * (Binomial.c_d c * b))
      with (Binomial.c_d c * (S0 * a * b)) by ring.
    replace (S0 * (Binomial.c_u c * a) * b)
      with (Binomial.c_u c * (S0 * a * b)) by ring.
    apply Rmult_le_compat_r; [assumption | lra].
Qed.

Lemma binomial_volatility_lattice_witness :
  exists self,
    Binomial.init 100 100 1 0 2 (Some (1 / 5)) 0 false None 2 None None
      false 1 = Ok self
    /\ Binomial.d self <= 1 <= Binomial.u self.
Proof.
  destruct (binomial_volatility_returns 100 100 1 0 2 (1 / 5) 0 false None 2
              None None false 1) as [self Hself]; [lra | lra |].
  exists self. split; [exact Hself |].
  destruct (binomial_volatility_lattice 100 100 1 0 2 (1 / 5) 0 false None 2
              None None false 1 self Hself) as (_ & _ & _ & H).
  apply H; lra.
Defined.

(** X6.  A price without early exercise is the discounted mean of the terminal
    payoffs under the end-state distribution the same call computes. *)
Theorem binomial_european_price_is_expectation :
  forall (self : Binomial.Binomialmodell) (option_type : string),
    known_option_type option_type = true ->
    Binomial.is_am self = false ->
    exists t p,
      Binomial.price_option self option_type = Ok (t, p)
      /\ p = Binomial.df self ^ Binomial.steps self
             * sum_f_R0
                 (fun k =>
                    nth (Binomial.steps self - k)
                      (Binomial.end_state_probabilities t) 0
                    * get2 0 (Binomial.option_price_tree t)
                        (Binomial.steps self) k)
                 (Binomial.steps self).
Proof.
  intros self option_type Hknown Heu.
  destruct (binomial_known_priced self option_type Hknown) as (t & p & Hprice).
  exists t, p. split; [exact Hprice |].
  apply (binomial_expectation_of_priced self option_type t p Heu Hprice).
Qed.

Lemma binomial_european_price_is_expectation_witness :
  exists t p,
    Binomial.price_option
      (Binomial.mkBinomialmodell 50 52 52 0 1 2 0 None true false 2 false 1
         (1 / 2) 1 (3 / 2) (1 / 2) (1 / 2) (1 / 2)) "european" = Ok (t, p)
    /\ p = 1 ^ 2
           * sum_f_R0
               (fun k =>
                  nth (2 - k) (Binomial.end_state_probabilities t) 0
                  * get2 0 (Binomial.option_price_tree t) 2 k) 2.
Proof.
  apply (binomial_european_price_is_expectation
           (Binomial.mkBinomialmodell 50 52 52 0 1 2 0 None true false 2 false
              1 (1 / 2) 1 (3 / 2) (1 / 2) (1 / 2) (1 / 2)) "european");
    reflexivity.
Defined.

(** X7.  Put-call parity of the binomial lattice: a European call and a
    European put built from the same constructor inputs are both priced,
    and call - put = S0 - K exp(-(r - div) T). The share is not discounted
    by the dividend yield; the yield is taken off the rate that discounts
    the strike. *)
Theorem binomial_put_call_parity :
  forall (S0 K T r : R) (N : Z) (sigma : option R) (div : R) (K2 : option R)
         (exponent : nat) (pu pd : option R) (payoff : R)
         (call put : Binomial.Binomialmodell),
    Binomial.init S0 K T r N sigma div false K2 exponent pu pd false payoff
    = Ok call ->
    Binomial.init S0 K T r N sigma div true K2 exponent pu pd false payoff
    = Ok put ->
    exists t_call price_call t_put price_put,
      Binomial.price_option call "european" = Ok (t_call, price_call)
      /\ Binomial.price_option put "european" = Ok (t_put, price_put)
      /\ price_call - price_put = S0 - K * exp (- (r - div) * T).
Proof.
  intros * Hcall Hput.
  apply binomial_init_fields in Hcall, Hput.
  destruct Hcall as (c & Hc & Hcall). destruct Hput as (c' & Hc' & Hput).
  rewrite Hc in Hc'. inversion Hc'; subst c'. clear Hc'.
  pose proof (binomial_calibration_sum _ _ _ _ _ _ _ _ Hc) as Hsum.
  pose proof (binomial_one_step_martingale _ _ _ _ _ _ _ _ Hc) as Hmart.
  pose proof (binomial_total_discount c T r (Z.max 1 N) div sigma pu pd
                (Z.le_max_l 1 N) Hc) as Hdisc.
  destruct (put_call_parity_lattice call put) as (tc & tp & Hpc & Hpp & Hlat);
    try (subst call put; reflexivity);
    try (subst call; exact Hsum).
  do 4 eexists. split; [exact Hpc |]. split; [exact Hpp |].
  rewrite (Hlat 0%nat 0%nat) by lia.
  rewrite binomial_stock_price_at by lia.
  simpl Nat.leb. cbv iota. unfold Binomial.steps. rewrite Hcall. simpl.
  rewrite Hmart, pow1, Nat.sub_0_r, Hdisc. ring.
Qed.

Lemma binomial_put_call_parity_witness :
  exists call put t_call price_call t_put price_put,
    Binomial.init 50 52 1 0 2 None 0 false None 2 (Some (1 / 2)) (Some (1 / 2))
      false 1 = Ok call
    /\ Binomial.init 50 52 1 0 2 None 0 true None 2 (Some (1 / 2))
         (Some (1 / 2)) false 1 = Ok put
    /\ Binomial.price_option call "european" = Ok (t_call, price_call)
    /\ Binomial.price_option put "european" = Ok (t_put, price_put)
    /\ price_call - price_put = 50 - 52 * exp (- (0 - 0) * 1).
Proof.
  pose proof (binomial_half_half 50 52 1 2 false None 2 false 1) as Hc.
  pose proof (binomial_half_half 50 52 1 2 true None 2 false 1) as Hp.
  destruct (binomial_put_call_parity 50 52 1 0 2 None 0 None 2 (Some (1 / 2))
              (Some (1 / 2)) 1 _ _ Hc Hp)
    as (tc & pc & tp & pp & H1 & H2 & H3).
  do 6 eexists.
  split; [exact Hc |]. split; [exact Hp |].
  split; [exact H1 |]. split; [exact H2 | exact H3].
Defined.

(** X8.  A European digital call and the digital put of the same strike pay
    the fixed amount between them in every end state (the put takes the
    tie at the strike), so their prices add up to the discounted amount. *)
Theorem binomial_digital_parity :
  forall (S0 K T r : R) (N : Z) (sigma : option R) (div : R) (K2 : option R)
         (exponent : nat) (pu pd : option R) (payoff : R)
         (call put : Binomial.Binomialmodell),
    Binomial.init S0 K T r N sigma div false K2 exponent pu pd false payoff
    = Ok call ->
    Binomial.init S0 K T r N sigma div true K2 exponent pu pd false payoff
    = Ok put ->
    exists t_call price_call t_put price_put,
      Binomial.price_option call "digital" = Ok (t_call, price_call)
      /\ Binomial.price_option put "digital" = Ok (t_put, price_put)
      /\ price_call + price_put = payoff * exp (- (r - div) * T).
Proof.
  intros * Hcall Hput.
  destruct (binomial_known_priced call "digital" eq_refl)
    as (tc & pc & Hpc).
  destruct (binomial_known_priced put "digital" eq_refl)
    as (tp & pp & Hpp).
  exists tc, pc, tp, pp. split; [exact Hpc |]. split; [exact Hpp |].
  pose proof (binomial_priced_terminal call "digital" _ tc pc
                (binomial_digital_payoffs call) Hpc) as Hterm_c.
  pose proof (binomial_priced_terminal put "digital" _ tp pp
                (binomial_digital_payoffs put) Hpp) as Hterm_p.
  destruct (binomial_price_option_inv _ _ _ _ Hpc)
    as (_ & _ & -> & _ & _ & _ & _ & Hrec_c & _).
  destruct (binomial_price_option_inv _ _ _ _ Hpp)
    as (_ & _ & -> & _ & _ & _ & _ & Hrec_p & _).
  apply binomial_init_fields in Hcall, Hput.
  destruct Hcall as (c & Hc & Hcall). destruct Hput as (c' & Hc' & Hput).
  rewrite Hc in Hc'. inversion Hc'; subst c'. clear Hc'.
  pose proof (binomial_calibration_sum _ _ _ _ _ _ _ _ Hc) as Hsum.
  pose proof (binomial_total_discount c T r (Z.max 1 N) div sigma pu pd
                (Z.le_max_l 1 N) Hc) as Hdisc.
  set (n := Z.to_nat (Z.max 1 N)) in *.
  assert (Hn_c : Binomial.steps call = n) by (subst call; reflexivity).
  assert (Hn_p : Binomial.steps put = n) by (subst put; reflexivity).
  assert (Hstock : Binomial.build_stock_price_tree put
                   = Binomial.build_stock_price_tree call)
    by (subst call put; reflexivity).
  rewrite Hn_c in *. rewrite Hn_p in *.
  assert (Hall : forall i j, (i <= n)%nat -> (j <= i)%nat ->
            get2 0 (Binomial.option_price_tree tc) i j
            + get2 0 (Binomial.option_price_tree tp) i j
            = payoff * Binomial.c_df c ^ (n - i)).
  { apply level_induction.
    - intros j Hj. rewrite Hterm_c, Hterm_p, Hstock by assumption.
      replace (Binomial.is_put call) with false by (subst call; reflexivity).
      replace (Binomial.is_put put) with true by (subst put; reflexivity).
      replace (Binomial.K put) with (Binomial.K call)
        by (subst call put; reflexivity).
      replace (Binomial.payoff put) with payoff by (subst put; reflexivity).
      replace (Binomial.payoff call) with payoff by (subst call; reflexivity).
      rewrite Nat.sub_diag. simpl.
      destruct (Rgt_dec _ _), (Rle_dec _ _); lra.
    - intros i Hi IH j Hj. rewrite Hrec_c, Hrec_p by assumption.
      unfold binomial_node_value.
      replace (Binomial.is_am call) with false by (subst call; reflexivity).
      replace (Binomial.is_am put) with false by (subst put; reflexivity).
      replace (Binomial.qu put) with (Binomial.c_qu c)
        by (subst put; reflexivity).
      replace (Binomial.qd put) with (Binomial.c_qd c)
        by (subst put; reflexivity).
      replace (Binomial.df put) with (Binomial.c_df c)
        by (subst put; reflexivity).
      replace (Binomial.qu call) with (Binomial.c_qu c)
        by (subst call; reflexivity).
      replace (Binomial.qd call) with (Binomial.c_qd c)
        by (subst call; reflexivity).
      replace (Binomial.df call) with (Binomial.c_df c)
        by (subst call; reflexivity).
      pose proof (IH j ltac:(lia)) as IH1.
      pose proof (IH (j + 1)%nat ltac:(lia)) as IH2.
      replace (n - i)%nat with (S (n - (i + 1))) by lia.
      set (k := (n - (i + 1))%nat) in *.
      set (vc1 := get2 0 (Binomial.option_price_tree tc) (i + 1) j) in *.
      set (vc2 := get2 0 (Binomial.option_price_tree tc) (i + 1) (j + 1)) in *.
      set (vp1 := get2 0 (Binomial.option_price_tree tp) (i + 1) j) in *.
      set (vp2 := get2 0 (Binomial.option_price_tree tp) (i + 1) (j + 1)) in *.
      simpl pow.
      replace ((Binomial.c_qu c * vc1 + Binomial.c_qd c * vc2)
               * Binomial.c_df c
               + (Binomial.c_qu c * vp1 + Binomial.c_qd c * vp2)
                 * Binomial.c_df c)
        with (Binomial.c_df c
              * (Binomial.c_qu c * (vc1 + vp1)
                 + Binomial.c_qd c * (vc2 + vp2))) by ring.
      rewrite IH1, IH2.
      replace (Binomial.c_qd c) with (1 - Binomial.c_qu c) by lra. ring. }
  rewrite (Hall 0%nat 0%nat) by lia. rewrite Nat.sub_0_r, Hdisc.
  reflexivity.
Qed.

Lemma binomial_digital_parity_witness :
  exists call put t_call price_call t_put price_put,
    Binomial.init 50 52 1 0 2 None 0 false None 2 (Some (1 / 2)) (Some (1 / 2))
      false 10 = Ok call
    /\ Binomial.init 50 52 1 0 2 None 0 true None 2 (Some (1 / 2))
         (Some (1 / 2)) false 10 = Ok put
    /\ Binomial.price_option call "digital" = Ok (t_call, price_call)
    /\ Binomial.price_option put "digital" = Ok (t_put, price_put)
    /\ price_call + price_put = 10 * exp (- (0 - 0) * 1).
Proof.
  pose proof (binomial_half_half 50 52 1 2 false None 2 false 10) as Hc.
  pose proof (binomial_half_half 50 52 1 2 true None 2 false 10) as Hp.
  destruct (binomial_digital_parity 50 52 1 0 2 None 0 None 2 (Some (1 / 2))
              (Some (1 / 2)) 10 _ _ Hc Hp)
    as (tc & pc & tp & pp & H1 & H2 & H3).
  do 6 eexists.
  split; [exact Hc |]. split; [exact Hp |].
  split; [exact H1 |]. split; [exact H2 | exact H3].
Defined.

(** X9.  A European strangle is worth its call leg plus its put leg, the put
    struck at the second strike. *)
Theorem binomial_strangle_is_call_plus_put :
  forall (S0 K T r : R) (N : Z) (sigma : option R) (div : R) (is_put : bool)
         (K2 : option R) (exponent : nat) (pu pd : option R) (payoff : R)
         (strangle call put : Binomial.Binomialmodell),
    Binomial.init S0 K T r N sigma div is_put K2 exponent pu pd false payoff
    = Ok strangle ->
    Binomial.init S0 K T r N sigma div false K2 exponent pu pd false payoff
    = Ok call ->
    Binomial.init S0 (match K2 with Some k2 => k2 | None => K end) T r N sigma
      div true K2 exponent pu pd false payoff = Ok put ->
    exists t_s p_s t_c p_c t_p p_p,
      Binomial.price_option strangle "strangle" = Ok (t_s, p_s)
      /\ Binomial.price_option call "european" = Ok (t_c, p_c)
      /\ Binomial.price_option put "european" = Ok (t_p, p_p)
      /\ p_s = p_c + p_p.
Proof.
  intros * Hs Hc Hp.
  destruct (binomial_known_priced strangle "strangle" eq_refl)
    as (t_s & p_s & Hps).
  destruct (binomial_known_priced call "european" eq_refl)
    as (t_c & p_c & Hpc).
  destruct (binomial_known_priced put "european" eq_refl)
    as (t_p & p_p & Hpp).
  exists t_s, p_s, t_c, p_c, t_p, p_p.
  split; [exact Hps |]. split; [exact Hpc |]. split; [exact Hpp |].
  exact (binomial_strangle_of_priced S0 K T r N sigma div is_put K2 exponent
           pu pd payoff strangle call put t_s t_c t_p p_s p_c p_p
           Hs Hc Hp Hps Hpc Hpp).
Qed.

Lemma binomial_strangle_is_call_plus_put_witness :
  exists strangle call put t_s p_s t_c p_c t_p p_p,
    Binomial.init 50 52 1 0 2 None 0 false (Some 48) 2 (Some (1 / 2))
      (Some (1 / 2)) false 1 = Ok strangle
    /\ Binomial.init 50 52 1 0 2 None 0 false (Some 48) 2 (Some (1 / 2))
         (Some (1 / 2)) false 1 = Ok call
    /\ Binomial.init 50 48 1 0 2 None 0 true (Some 48) 2 (Some (1 / 2))
         (Some (1 / 2)) false 1 = Ok put
    /\ Binomial.price_option strangle "strangle" = Ok (t_s, p_s)
    /\ Binomial.price_option call "european" = Ok (t_c, p_c)
    /\ Binomial.price_option put "european" = Ok (t_p, p_p)
    /\ p_s = p_c + p_p.
Proof.
  pose proof (binomial_half_half 50 52 1 2 false (Some 48) 2 false 1) as Hs.
  pose proof (binomial_half_half 50 48 1 2 true (Some 48) 2 false 1) as Hp.
  destruct (binomial_strangle_is_call_plus_put 50 52 1 0 2 None 0 false
              (Some 48) 2 (Some (1 / 2)) (Some (1 / 2)) 1 _ _ _ Hs Hs Hp)
    as (t_s & p_s & t_c & p_c & t_p & p_p & H1 & H2 & H3 & H4).
  do 9 eexists.
  split; [exact Hs |]. split; [exact Hs |]. split; [exact Hp |].
  split; [exact H1 |]. split; [exact H2 |]. split; [exact H3 | exact H4].
Defined.

(** X10.  With non-negative probabilities and discount factor no node of the
    option lattice is negative, early exercise or not. *)
Theorem binomial_option_values_nonneg :
  forall (self : Binomial.Binomialmodell) (option_type : string),
    known_option_type option_type = true ->
    0 <= Binomial.qu self -> 0 <= Binomial.qd self -> 0 <= Binomial.df self ->
    (option_type = "digital"%string -> 0 <= Binomial.payoff self) ->
    exists t p,
      Binomial.price_option self option_type = Ok (t, p)
      /\ 0 <= p
      /\ forall i j, (i <= Binomial.steps self)%nat -> (j <= i)%nat ->
           0 <= get2 0 (Binomial.option_price_tree t) i j.
Proof.
  intros self option_type Hknown Hqu Hqd Hdf Hdigital.
  destruct (binomial_known_priced self option_type Hknown) as (t & p & Hprice).
  exists t, p. split; [exact Hprice |].
  apply (binomial_nonneg_of_priced self option_type t p Hqu Hqd Hdf Hdigital
           Hprice).
Qed.

Lemma binomial_option_values_nonneg_witness :
  exists t p,
    Binomial.price_option
      (Binomial.mkBinomialmodell 50 52 52 0 1 2 0 None true false 2 true 1
         (1 / 2) 1 (3 / 2) (1 / 2) (1 / 2) (1 / 2)) "digital" = Ok (t, p)
    /\ 0 <= p.
Proof.
  destruct (binomial_option_values_nonneg
              (Binomial.mkBinomialmodell 50 52 52 0 1 2 0 None true false 2
                 true 1 (1 / 2) 1 (3 / 2) (1 / 2) (1 / 2) (1 / 2)) "digital")
    as (t & p & Hprice & Hp & _);
    [reflexivity | simpl; lra | simpl; lra | simpl; lra
     | intros _; simpl; lra |].
  exists t, p. split; [exact Hprice | exact Hp].
Defined.

Lemma binomial_american_payoff_rule (self : Binomial.Binomialmodell)
  (stock : list (list R)) :
  Binomial.calculate_payoffs self stock "american"
  = Ok (map (fun s => if Binomial.is_call self
                      then Rmax 0 (s - Binomial.K self)
                      else Rmax 0 (Binomial.K self - s)) (last_row stock)).
Proof.
  unfold Binomial.calculate_payoffs. simpl.
  destruct (Binomial.is_call self); reflexivity.
Qed.

(** X11.  With [is_am] the loop compares every node with the exercise value of
    a child, so the price of an American call is never below the
    undiscounted payoff of the highest terminal node, and that of an
    American put never below the payoff of the lowest. *)
Theorem binomial_american_price_floor :
  forall (self : Binomial.Binomialmodell),
    Binomial.is_am self = true ->
    let n := Binomial.steps self in
    exists t p,
      Binomial.price_option self "american" = Ok (t, p)
      /\ (if Binomial.is_call self
          then Rmax 0 (Binomial.S0 self * Binomial.u self ^ n - Binomial.K self)
          else Rmax 0 (Binomial.K self - Binomial.S0 self * Binomial.d self ^ n))
         <= p.
Proof.
  intros self Ham n.
  destruct (binomial_known_priced self "american" eq_refl) as (t & p & Hprice).
  exists t, p. split; [exact Hprice |].
  pose proof (binomial_floor_of_priced self "american" t p Ham Hprice) as Hfloor.
  pose proof (binomial_priced_terminal self "american" _ t p
                (binomial_american_payoff_rule self) Hprice) as Hterm.
  simpl in Hfloor. fold n in Hfloor, Hterm.
  destruct (Binomial.is_call self).
  - rewrite (Hterm 0%nat) in Hfloor by lia.
    rewrite binomial_stock_price_at in Hfloor by (fold n; lia).
    simpl Nat.leb in Hfloor. cbv iota in Hfloor.
    rewrite Nat.sub_0_r in Hfloor. simpl pow in Hfloor.
    rewrite Rmult_1_r in Hfloor. exact Hfloor.
  - rewrite (Hterm n) in Hfloor by lia.
    rewrite binomial_stock_price_at in Hfloor by (fold n; lia).
    rewrite Nat.leb_refl, Nat.sub_diag in Hfloor. simpl pow in Hfloor.
    rewrite Rmult_1_r in Hfloor. exact Hfloor.
Qed.

Lemma binomial_american_price_floor_witness :
  exists t p,
    Binomial.price_option
      (Binomial.mkBinomialmodell 100 100 100 0 1 1 0 None false true 2 true 1
         1 1 (3 / 2) (1 / 2) (1 / 2) (1 / 2)) "american" = Ok (t, p)
    /\ Rmax 0 (100 * (3 / 2) ^ 1 - 100) <= p.
Proof.
  apply (binomial_american_price_floor
           (Binomial.mkBinomialmodell 100 100 100 0 1 1 0 None false true 2
              true 1 1 1 (3 / 2) (1 / 2) (1 / 2) (1 / 2))).
  reflexivity.
Defined.

(** X12.  The hedge ratio the binomial loop stores at every interior node: the
    difference quotient where the node's own price is not 0, and nan or
    inf where it is 0, since the division is not guarded. *)
Theorem binomial_delta_rule :
  forall (self : Binomial.Binomialmodell) (option_type : string),
    known_option_type option_type = true ->
    Binomial.u self <> Binomial.d self ->
    exists t p,
      Binomial.price_option self option_type = Ok (t, p)
      /\ forall i j, (i < Binomial.steps self)%nat -> (j <= i)%nat ->
           let v_up := get2 0 (Binomial.option_price_tree t) (i + 1) j in
           let v_down :=
             get2 0 (Binomial.option_price_tree t) (i + 1) (j + 1) in
           let s_up := get2 0 (Binomial.stock_price_tree t) (i + 1) j in
           let s_down :=
             get2 0 (Binomial.stock_price_tree t) (i + 1) (j + 1) in
           let delta := get2 (Fin 0) (Binomial.delta_tree t) i j in
           (get2 0 (Binomial.stock_price_tree t) i j <> 0 ->
            s_up <> s_down
            /\ delta = Fin ((v_up - v_down) / (s_up - s_down)))
           /\ (get2 0 (Binomial.stock_price_tree t) i j = 0 ->
               s_up = s_down
               /\ delta = (if Req_dec_T (v_up - v_down) 0 then NaN else Inf)).
Proof.
  intros self option_type Hknown Hud.
  destruct (binomial_known_priced self option_type Hknown) as (t & p & Hprice).
  exists t, p. split; [exact Hprice |].
  apply (binomial_delta_of_priced self option_type t p Hud Hprice).
Qed.

Lemma binomial_delta_rule_witness :
  exists t p,
    Binomial.price_option
      (Binomial.mkBinomialmodell 50 52 52 0 1 2 0 None true false 2 false 1
         (1 / 2) 1 (3 / 2) (1 / 2) (1 / 2) (1 / 2)) "european" = Ok (t, p)
    /\ exists x, get2 (Fin 0) (Binomial.delta_tree t) 0 0 = Fin x.
Proof.
  destruct (binomial_delta_rule
              (Binomial.mkBinomialmodell 50 52 52 0 1 2 0 None true false 2
                 false 1 (1 / 2) 1 (3 / 2) (1 / 2) (1 / 2) (1 / 2)) "european")
    as (t & p & Hprice & Hdelta); [reflexivity | simpl; lra |].
  exists t, p. split; [exact Hprice |].
  destruct (Hdelta 0%nat 0%nat) as [Hfin _];
    [vm_compute; lia | lia |].
  eexists. apply Hfin.
  destruct (binomial_price_option_inv _ _ _ _ Hprice)
    as (_ & _ & _ & Hstock & _).
  rewrite Hstock, binomial_stock_price_at by (vm_compute; lia).
  simpl. lra.
Defined.

(** ** The trinomial model *)

(** X13.  The trinomial constructor on the volatility path: what it raises,
    and the lattice it sets up when it returns. The factors cancel, the
    probabilities sum to 1 and one step has the mean exp((r - div) dt); a
    zero volatility is refused by the division for [pu]. *)
Theorem trinomial_volatility_construction :
  forall (S0 K T r : R) (N : Z) (s : R) (div : R) (is_put : bool)
         (K2 pu pd pm u d m : option R) (is_am : bool) (exponent : nat),
    let construct :=
      Trinomial.init S0 K T r N (Some s) div is_put K2 pu pd pm u d m is_am
        exponent in
    (N = 0%Z -> construct = Raise ZeroDivisionError)
    /\ (N <> 0%Z -> T / IZR N < 0 -> construct = Raise ValueError)
    /\ (N <> 0%Z -> 0 <= T / IZR N -> s = 0 \/ T = 0 ->
        construct = Raise ZeroDivisionError)
    /\ (N <> 0%Z -> 0 < T / IZR N -> s <> 0 ->
        exists self,
          construct = Ok self
          /\ Trinomial.u self * Trinomial.d self = 1
          /\ Trinomial.m self = 1
          /\ Trinomial.pu self + Trinomial.pm self + Trinomial.pd self = 1
          /\ Trinomial.pu self * Trinomial.u self + Trinomial.pm self
             + Trinomial.pd self * Trinomial.d self
             = exp ((r - div) * (T / IZR N))
          /\ 0 <= Trinomial.pu self /\ 0 <= Trinomial.pd self).
Proof.
  intros. subst construct. unfold Trinomial.init.
  split; [| split; [| split]].
  - intros ->. rewrite truediv_zero by reflexivity. reflexivity.
  - intros HN Hdt. rewrite truediv_ok by (apply not_0_IZR; assumption).
    simpl. unfold Trinomial.setup_parameters.
    rewrite math_sqrt_neg by lra. reflexivity.
  - intros HN Hdt Hzero. rewrite truediv_ok by (apply not_0_IZR; assumption).
    simpl. unfold Trinomial.setup_parameters.
    rewrite math_sqrt_ok by lra. simpl.
    rewrite truediv_ok by (pose proof (exp_pos (s * sqrt (2 * (T / IZR N))));
                           lra).
    simpl. rewrite math_sqrt_ok by lra. simpl.
    assert (H0 : s * sqrt (T / IZR N / 2) = 0).
    { destruct Hzero as [-> | ->]; [ring |].
      unfold Rdiv. rewrite !Rmult_0_l, sqrt_0. ring. }
    rewrite truediv_zero; [reflexivity |].
    replace (- s * sqrt (T / IZR N / 2)) with (- (s * sqrt (T / IZR N / 2)))
      by ring.
    rewrite H0, Ropp_0. lra.
  - intros HN Hdt Hs. fold (Trinomial.init S0 K T r N (Some s) div is_put K2
                               pu pd pm u d m is_am exponent).
    destruct (trinomial_volatility_returns S0 K T r N s div is_put K2 pu pd pm
                u d m is_am exponent HN Hdt Hs) as [self Hself].
    exists self. split; [exact Hself |].
    apply trinomial_init_fields in Hself.
    destruct Hself as (_ & c & Hc & ->). simpl.
    pose proof (trinomial_calibration_facts _ _ _ _ _ Hc)
      as (_ & _ & _ & Hud & Hm & Hsum & Hmart).
    repeat split; try assumption;
      unfold Trinomial.setup_parameters in Hc;
      do 5 inv_bind Hc; inversion Hc; subst c; simpl; apply pow2_ge_0.
Qed.

Lemma trinomial_volatility_construction_witness :
  Trinomial.init 100 100 1 0 0 (Some (1 / 5)) 0 false None None None None
    None None None false 2 = Raise ZeroDivisionError
  /\ Trinomial.init 100 100 1 0 2 (Some 0) 0 false None None None None
       None None None false 2 = Raise ZeroDivisionError
  /\ exists self,
      Trinomial.init 100 100 1 0 2 (Some (1 / 5)) 0 false None None None None
        None None None false 2 = Ok self
      /\ Trinomial.u self * Trinomial.d self = 1.
Proof.
  split; [| split].
  - destruct (trinomial_volatility_construction 100 100 1 0 0 (1 / 5) 0 false
                None None None None None None None false 2) as (H & _).
    apply H. reflexivity.
  - destruct (trinomial_volatility_construction 100 100 1 0 2 0 0 false
                None None None None None None None false 2)
      as (_ & _ & H & _).
    apply H; [lia | lra | left; reflexivity].
  - destruct (trinomial_volatility_construction 100 100 1 0 2 (1 / 5) 0 false
                None None None None None None None false 2)
      as (_ & _ & _ & H).
    destruct H as (self & Hself & Hud & _); [lia | lra | lra |].
    exists self. split; [exact Hself | exact Hud].
Defined.

(** X14.  The stock-price loops of the trinomial [init_full_tree]: node j of
    level i, inside the band N - i <= j <= N + i, carries S0 u^(j-N) above
    the centre column, S0 d^(N-j) below it and S0 on it; the middle factor
    [m] plays no part. Outside the band the lattice keeps its zeros. *)
Theorem trinomial_stock_price_closed_form :
  forall (self : Trinomial.Trinomialmodell) (i j : nat),
    let n := Trinomial.steps self in
    (i <= n)%nat ->
    get2 0 (Trinomial.build_stock_price_tree self) i j
    = if ((n - i <=? j) && (j <=? n + i))%nat
      then if (n <? j)%nat
           then Trinomial.S0 self * Trinomial.u self ^ (j - n)
           else if (j <? n)%nat
                then Trinomial.S0 self * Trinomial.d self ^ (n - j)
                else Trinomial.S0 self
      else 0.
Proof.
  intros self i j n Hi. rewrite trinomial_stock_price_at by assumption.
  reflexivity.
Qed.

Lemma trinomial_stock_price_closed_form_witness :
  get2 0
    (Trinomial.build_stock_price_tree
       (Trinomial.mkTrinomialmodell 100 100 100 0 1 2 0 false true false
          (1 / 2) 1 2 None 2 (1 / 2) 1 (1 / 4) (1 / 4) (1 / 2))) 2 4
  = 100 * 2 ^ 2.
Proof.
  apply (trinomial_stock_price_closed_form
           (Trinomial.mkTrinomialmodell 100 100 100 0 1 2 0 false true false
              (1 / 2) 1 2 None 2 (1 / 2) 1 (1 / 4) (1 / 4) (1 / 2)) 2 4).
  vm_compute. lia.
Defined.

(** X15.  [price_option] of the trinomial model returns exactly for a step
    count that is not negative and one of the five known families; in
    every other case it raises ValueError. *)
Theorem trinomial_price_option_result :
  forall (self : Trinomial.Trinomialmodell) (option_type : string),
    if ((0 <=? Trinomial.N self)%Z && known_option_type option_type)%bool
    then exists t p, Trinomial.price_option self option_type = Ok (t, p)
    else Trinomial.price_option self option_type = Raise ValueError.
Proof.
  intros self option_type.
  destruct (Z.leb_spec 0 (Trinomial.N self)) as [HN | HN]; simpl.
  - destruct (known_option_type option_type) eqn:Hknown.
    + apply trinomial_known_priced; assumption.
    + pose proof (trinomial_payoffs_known self
                    (Trinomial.build_stock_price_tree self) option_type) as H.
      rewrite Hknown in H.
      unfold Trinomial.price_option, Trinomial.init_full_tree.
      destruct (Z.ltb_spec (Trinomial.N self) 0); [reflexivity |].
      rewrite H. reflexivity.
  - unfold Trinomial.price_option, Trinomial.init_full_tree.
    destruct (Z.ltb_spec (Trinomial.N self) 0); [reflexivity | lia].
Qed.

(** X16.  The trinomial model has no early exercise: the family "american" and
    the flag [is_am] change nothing; the three lattices and the price are
    those of the European option. *)
Theorem trinomial_american_as_european :
  forall (S0 K T r : R) (N : Z) (sigma : option R) (div : R) (is_put : bool)
         (K2 pu pd pm u d m : option R) (exponent : nat)
         (american european : Trinomial.Trinomialmodell),
    Trinomial.init S0 K T r N sigma div is_put K2 pu pd pm u d m true exponent
    = Ok american ->
    Trinomial.init S0 K T r N sigma div is_put K2 pu pd pm u d m false exponent
    = Ok european ->
    Trinomial.price_option american "american"
    = Trinomial.price_option european "european"
    /\ ((0 < N)%Z ->
        exists t p, Trinomial.price_option european "european" = Ok (t, p)).
Proof.
  intros * Ha He. split.
  - exact (trinomial_flag_unused S0 K T r N sigma div is_put K2 pu pd pm u d m
             exponent american european Ha He).
  - intros HN. apply trinomial_known_priced; [| reflexivity].
    apply trinomial_init_fields in He. destruct He as (_ & c & _ & ->).
    simpl. lia.
Qed.

Lemma trinomial_american_as_european_witness :
  exists american european t p,
    Trinomial.init 100 100 1 0 2 None 0 true None (Some (1 / 4)) (Some (1 / 4))
      (Some (1 / 2)) (Some 2) (Some (1 / 2)) (Some 1) true 2 = Ok american
    /\ Trinomial.init 100 100 1 0 2 None 0 true None (Some (1 / 4))
         (Some (1 / 4)) (Some (1 / 2)) (Some 2) (Some (1 / 2)) (Some 1) false 2
       = Ok european
    /\ Trinomial.price_option american "american" = Ok (t, p)
    /\ Trinomial.price_option european "european" = Ok (t, p).
Proof.
  assert (HN : 2%Z <> 0%Z) by lia.
  pose proof (trinomial_direct 100 100 1 2 true None (1 / 4) (1 / 4) (1 / 2)
                2 (1 / 2) 1 true 2 HN) as Ha.
  pose proof (trinomial_direct 100 100 1 2 true None (1 / 4) (1 / 4) (1 / 2)
                2 (1 / 2) 1 false 2 HN) as He.
  destruct (trinomial_american_as_european 100 100 1 0 2 None 0 true None
              (Some (1 / 4)) (Some (1 / 4)) (Some (1 / 2)) (Some 2)
              (Some (1 / 2)) (Some 1) 2 _ _ Ha He) as [Hsame Hret].
  destruct Hret as (t & p & Hprice); [lia |].
  do 4 eexists. split; [exact Ha |]. split; [exact He |].
  split; [rewrite Hsame; exact Hprice | exact Hprice].
Defined.

(** X17.  Every entry of the trinomial delta lattice is a finite number: 0 at
    the nodes the loops do not visit and where the two outer child prices
    coincide, the difference quotient elsewhere. *)
Theorem trinomial_delta_finite :
  forall (self : Trinomial.Trinomialmodell) (option_type : string),
    (0 <= Trinomial.N self)%Z ->
    known_option_type option_type = true ->
    let n := Trinomial.steps self in
    exists t p,
      Trinomial.price_option self option_type = Ok (t, p)
      /\ forall i j,
           let v_up :=
             get2 0 (Trinomial.option_price_tree t) (i + 1) (j + 1) in
           let v_down :=
             get2 0 (Trinomial.option_price_tree t) (i + 1) (j - 1) in
           let s_up :=
             get2 0 (Trinomial.stock_price_tree t) (i + 1) (j + 1) in
           let s_down :=
             get2 0 (Trinomial.stock_price_tree t) (i + 1) (j - 1) in
           get2 (Fin 0) (Trinomial.delta_tree t) i j
           = Fin (if (i <? n)%nat && (n - i <=? j)%nat && (j <=? n + i)%nat
                  then if Req_dec_T s_up s_down then 0
                       else (v_up - v_down) / (s_up - s_down)
                  else 0).
Proof.
  intros self option_type HN Hknown n.
  destruct (trinomial_known_priced self option_type HN Hknown)
    as (t & p & Hprice).
  exists t, p. split; [exact Hprice |].
  apply (trinomial_delta_of_priced self option_type t p Hprice).
Qed.

Lemma trinomial_delta_finite_witness :
  exists t p x,
    Trinomial.price_option
      (Trinomial.mkTrinomialmodell 0 100 100 0 1 1 0 false true false
         1 1 2 None 2 (1 / 2) 1 (1 / 4) (1 / 4) (1 / 2)) "european"
    = Ok (t, p)
    /\ get2 (Fin 0) (Trinomial.delta_tree t) 0 1 = Fin x.
Proof.
  destruct (trinomial_delta_finite
              (Trinomial.mkTrinomialmodell 0 100 100 0 1 1 0 false true false
                 1 1 2 None 2 (1 / 2) 1 (1 / 4) (1 / 4) (1 / 2)) "european")
    as (t & p & Hprice & Hdelta); [simpl; lia | reflexivity |].
  exists t, p. eexists. split; [exact Hprice | apply Hdelta].
Defined.

(** X18.  Put-call parity of the trinomial lattice on the volatility path: a
    European call and a European put built from the same constructor
    inputs are both priced, and call - put = S0 exp(-div T) - K exp(-r T). *)
Theorem trinomial_put_call_parity :
  forall (S0 K T r : R) (N : Z) (s : R) (div : R)
         (K2 pu pd pm u d m : option R) (is_am : bool) (exponent : nat)
         (call put : Trinomial.Trinomialmodell),
    (0 < N)%Z ->
    Trinomial.init S0 K T r N (Some s) div false K2 pu pd pm u d m is_am
      exponent = Ok call ->
    Trinomial.init S0 K T r N (Some s) div true K2 pu pd pm u d m is_am
      exponent = Ok put ->
    exists t_call price_call t_put price_put,
      Trinomial.price_option call "european" = Ok (t_call, price_call)
      /\ Trinomial.price_option put "european" = Ok (t_put, price_put)
      /\ price_call - price_put
         = S0 * exp (- div * T) - K * exp (- r * T).
Proof.
  intros * HN Hcall Hput.
  apply trinomial_init_fields in Hcall, Hput.
  destruct Hcall as (HN0 & c & Hc & Hcall).
  destruct Hput as (_ & c' & Hc' & Hput).
  rewrite Hc in Hc'. inversion Hc'; subst c'. clear Hc'.
  pose proof (trinomial_calibration_facts _ _ _ _ _ Hc)
    as (_ & _ & _ & Hud & _ & Hsum & Hmart).
  destruct (trinomial_parity_lattice call put)
    as (tc & tp & Hpc & Hpp & Hlat);
    try (subst call put; reflexivity);
    try (subst call; simpl; first [lia | exact Hud]).
  do 4 eexists. split; [exact Hpc |]. split; [exact Hpp |].
  rewrite (Hlat 0%nat (Trinomial.steps call)) by lia.
  rewrite trinomial_stock_price_at by lia.
  unfold trinomial_price.
  replace (Trinomial.steps call - 0 <=? Trinomial.steps call)%nat with true
    by (symmetry; apply Nat.leb_le; lia).
  replace (Trinomial.steps call <=? Trinomial.steps call + 0)%nat with true
    by (symmetry; apply Nat.leb_le; lia).
  rewrite Nat.ltb_irrefl. cbn [andb].
  unfold Trinomial.steps. rewrite Hcall. simpl.
  rewrite Hmart, Hsum, Rmult_1_r, Nat.sub_0_r.
  rewrite <- exp_plus, !exp_pow_nat, !INR_to_nat by lia.
  assert (HNr : IZR N <> 0) by (apply not_0_IZR; assumption).
  f_equal; f_equal; f_equal; field; assumption.
Qed.

Lemma trinomial_put_call_parity_witness :
  exists call put t_call price_call t_put price_put,
    Trinomial.init 100 95 1 (1 / 20) 2 (Some (1 / 5)) (1 / 50) false None None
      None None None None None false 2 = Ok call
    /\ Trinomial.init 100 95 1 (1 / 20) 2 (Some (1 / 5)) (1 / 50) true None
         None None None None None None false 2 = Ok put
    /\ Trinomial.price_option call "european" = Ok (t_call, price_call)
    /\ Trinomial.price_option put "european" = Ok (t_put, price_put)
    /\ price_call - price_put
       = 100 * exp (- (1 / 50) * 1) - 95 * exp (- (1 / 20) * 1).
Proof.
  destruct (trinomial_volatility_returns 100 95 1 (1 / 20) 2 (1 / 5) (1 / 50)
              false None None None None None None None false 2)
    as [call Hc]; [lia | lra | lra |].
  destruct (trinomial_volatility_returns 100 95 1 (1 / 20) 2 (1 / 5) (1 / 50)
              true None None None None None None None false 2)
    as [put Hp]; [lia | lra | lra |].
  destruct (trinomial_put_call_parity 100 95 1 (1 / 20) 2 (1 / 5) (1 / 50) None
              None None None None None None false 2 call put) as
    (tc & pc & tp & pp & H1 & H2 & H3); [lia | exact Hc | exact Hp |].
  exists call, put, tc, pc, tp, pp.
  split; [exact Hc |]. split; [exact Hp |].
  split; [exact H1 |]. split; [exact H2 | exact H3].
Defined.

Lemma trinomial_payoffs_nonneg (self : Trinomial.Trinomialmodell)
  (stock : list (list R)) (option_type : string) (payoffs : list R) :
  Trinomial.calculate_payoffs self stock option_type = Ok payoffs ->
  Forall (fun x => 0 <= x) payoffs.
Proof.
  unfold Trinomial.calculate_payoffs.
  destruct (_ || _)%bool.
  { destruct (Trinomial.is_put self); intros H; inversion H;
      apply Forall_forall; intros x Hx; apply in_map_iff in Hx;
      destruct Hx as (s & <- & _); apply Rmax_r. }
  destruct (String.eqb option_type "power").
  { destruct (Trinomial.is_put self); intros H; inversion H;
      apply Forall_forall; intros x Hx; apply in_map_iff in Hx;
      destruct Hx as (s & <- & _).
    - destruct (Rlt_dec _ _); [apply pow_le |]; lra.
    - destruct (Rgt_dec _ _); [apply pow_le |]; lra. }
  destruct (String.eqb option_type "digital").
  { destruct (Trinomial.is_put self); intros H; inversion H;
      apply Forall_forall; intros x Hx; apply in_map_iff in Hx;
      destruct Hx as (s & <- & _).
    - destruct (Rlt_dec _ _); lra.
    - destruct (Rgt_dec _ _); lra. }
  destruct (String.eqb option_type "strangle"); [| discriminate].
  intros H. inversion H. rewrite np_add_map.
  apply Forall_forall. intros x Hx. apply in_map_iff in Hx.
  destruct Hx as (s & <- & _).
  destruct (Rgt_dec _ _), (Rlt_dec _ _); lra.
Qed.

(** X19.  With non-negative probabilities and discount factor no node of the
    trinomial option lattice is negative. *)
Theorem trinomial_option_values_nonneg :
  forall (self : Trinomial.Trinomialmodell) (option_type : string),
    (0 <= Trinomial.N self)%Z ->
    known_option_type option_type = true ->
    0 <= Trinomial.pu self -> 0 <= Trinomial.pm self ->
    0 <= Trinomial.pd self -> 0 <= Trinomial.df self ->
    let n := Trinomial.steps self in
    exists t p,
      Trinomial.price_option self option_type = Ok (t, p)
      /\ 0 <= p
      /\ forall i j, (i <= n)%nat -> (n - i <= j <= n + i)%nat ->
           0 <= get2 0 (Trinomial.option_price_tree t) i j.
Proof.
  intros self option_type HN Hknown Hpu Hpm Hpd Hdf n.
  destruct (trinomial_known_priced self option_type HN Hknown)
    as (t & p & Hprice).
  exists t, p. split; [exact Hprice |].
  destruct (trinomial_price_option_inv _ _ _ _ Hprice)
    as (_ & payoffs & Hpay & -> & _ & Hshape & Hrow & Hrec & _).
  fold n in Hshape, Hrow, Hrec.
  pose proof (trinomial_payoffs_nonneg _ _ _ _ Hpay) as Hpos.
  assert (Hall : forall i j, (i <= n)%nat -> (n - i <= j <= n + i)%nat ->
                   0 <= get2 0 (Trinomial.option_price_tree t) i j).
  { apply band_induction.
    - intros j Hj. unfold get2. rewrite Hrow.
      rewrite Forall_forall in Hpos. apply Hpos. apply nth_In.
      rewrite <- Hrow. destruct Hshape as [_ Hcols]. rewrite Hcols; lia.
    - intros i Hi IH j Hj. rewrite Hrec by assumption.
      unfold trinomial_node_value.
      pose proof (IH (j + 1)%nat ltac:(lia)).
      pose proof (IH j ltac:(lia)).
      pose proof (IH (j - 1)%nat ltac:(lia)).
      apply Rmult_le_pos; [| assumption].
      repeat apply Rplus_le_le_0_compat; apply Rmult_le_pos; assumption. }
  split; [apply Hall; lia | exact Hall].
Qed.

Lemma trinomial_option_values_nonneg_witness :
  exists t p,
    Trinomial.price_option
      (Trinomial.mkTrinomialmodell 100 100 100 0 1 2 0 false true false
         (1 / 2) 1 2 None 2 (1 / 2) 1 (1 / 4) (1 / 4) (1 / 2)) "power"
    = Ok (t, p)
    /\ 0 <= p.
Proof.
  destruct (trinomial_option_values_nonneg
              (Trinomial.mkTrinomialmodell 100 100 100 0 1 2 0 false true false
                 (1 / 2) 1 2 None 2 (1 / 2) 1 (1 / 4) (1 / 4) (1 / 2)) "power")
    as (t & p & Hprice & Hp & _);
    [simpl; lia | reflexivity | simpl; lra | simpl; lra | simpl; lra
     | simpl; lra |].
  exists t, p. split; [exact Hprice | exact Hp].
Defined.

(** ** The main window's helpers *)

(** X20.  [determine_option_type] reads the radio buttons family by family:
    a European button gives "european"; failing that a power button gives
    "power", then a digital button "digital", then the strangle button
    "strangle"; with no button checked, and only then, it raises
    ValueError.  It never answers "american" (early exercise only comes in
    by the flag), and what it answers is a family the payoff rules of both
    models accept and the trinomial model prices. *)
Theorem ui_option_type_is_priced :
  forall (ui : FinanceAppUI.RadioButtons),
    let european :=
      (FinanceAppUI.rb_eucall ui || FinanceAppUI.rb_euput ui)%bool in
    let power :=
      (FinanceAppUI.rb_powcall ui || FinanceAppUI.rb_powput ui)%bool in
    let digital :=
      (FinanceAppUI.rb_digcall ui || FinanceAppUI.rb_digput ui)%bool in
    let strangle := FinanceAppUI.rb_strangle ui in
    (european = true ->
     FinanceAppUI.determine_option_type ui = Ok "european"%string)
    /\ (european = false -> power = true ->
        FinanceAppUI.determine_option_type ui = Ok "power"%string)
    /\ (european = false -> power = false -> digital = true ->
        FinanceAppUI.determine_option_type ui = Ok "digital"%string)
    /\ (european = false -> power = false -> digital = false ->
        strangle = true ->
        FinanceAppUI.determine_option_type ui = Ok "strangle"%string)
    /\ (FinanceAppUI.determine_option_type ui = Raise ValueError
        <-> ui = FinanceAppUI.mkRadioButtons false false false false false
                   false false)
    /\ (forall e, FinanceAppUI.determine_option_type ui = Raise e ->
                  e = ValueError)
    /\ (forall option_type,
          FinanceAppUI.determine_option_type ui = Ok option_type ->
          option_type <> "american"%string
          /\ (forall (self : Binomial.Binomialmodell) stock,
                 exists payoffs,
                   Binomial.calculate_payoffs self stock option_type
                   = Ok payoffs)
          /\ (forall (self : Trinomial.Trinomialmodell) stock,
                 exists payoffs,
                   Trinomial.calculate_payoffs self stock option_type
                   = Ok payoffs)
          /\ (forall self : Trinomial.Trinomialmodell,
                 (0 <= Trinomial.N self)%Z ->
                 exists t p,
                   Trinomial.price_option self option_type = Ok (t, p))).
Proof.
  intros ui european power digital strangle.
  assert (Hknown : forall option_type,
            FinanceAppUI.determine_option_type ui = Ok option_type ->
            option_type <> "american"%string
            /\ known_option_type option_type = true).
  { intros option_type. unfold FinanceAppUI.determine_option_type.
    fold european power digital strangle.
    destruct european, power, digital, strangle; intros H;
      inversion H; split; (discriminate || reflexivity). }
  unfold FinanceAppUI.determine_option_type.
  fold european power digital strangle.
  split; [intros ->; reflexivity |].
  split; [intros -> ->; reflexivity |].
  split; [intros -> -> ->; reflexivity |].
  split; [intros -> -> -> ->; reflexivity |].
  split.
  { split.
    - subst european power digital strangle.
      destruct ui as [[] [] [] [] [] [] []]; cbn; intros H;
        (discriminate || reflexivity).
    - intros ->. reflexivity. }
  split.
  { destruct european, power, digital, strangle; intros e H;
      inversion H; reflexivity. }
  intros option_type H.
  assert (Hot : FinanceAppUI.determine_option_type ui = Ok option_type)
    by exact H.
  destruct (Hknown option_type Hot) as [Ham Hk].
  split; [exact Ham |].
  split.
  { intros self stock.
    pose proof (binomial_payoffs_known self stock option_type) as Hb.
    rewrite Hk in Hb. exact Hb. }
  split.
  { intros self stock.
    pose proof (trinomial_payoffs_known self stock option_type) as Ht.
    rewrite Hk in Ht. exact Ht. }
  intros self HN. apply trinomial_known_priced; assumption.
Qed.

Lemma ui_option_type_is_priced_witness :
  FinanceAppUI.determine_option_type
    (FinanceAppUI.mkRadioButtons false false false false true false false)
  = Ok "digital"%string
  /\ exists t p,
      Trinomial.price_option
        (Trinomial.mkTrinomialmodell 100 100 100 0 1 2 0 false true false
           (1 / 2) 1 2 None 2 (1 / 2) 1 (1 / 4) (1 / 4) (1 / 2)) "digital"
      = Ok (t, p).
Proof.
  destruct (ui_option_type_is_priced
              (FinanceAppUI.mkRadioButtons false false false false true
                 false false))
    as (_ & _ & Hdigital & _ & _ & _ & Hpriced).
  assert (Hot : FinanceAppUI.determine_option_type
                  (FinanceAppUI.mkRadioButtons false false false false true
                     false false) = Ok "digital"%string)
    by (apply Hdigital; reflexivity).
  split; [exact Hot |].
  destruct (Hpriced "digital"%string Hot) as (_ & _ & _ & Htri).
  apply (Htri (Trinomial.mkTrinomialmodell 100 100 100 0 1 2 0 false true
                 false (1 / 2) 1 2 None 2 (1 / 2) 1 (1 / 4) (1 / 4) (1 / 2))).
  simpl. lia.
Defined.

(** X21.  What [is_valid_probability] accepts: no negative value and none
    above 1 + 0.00001. With [pm] exactly 0 it asks for pu + pd <= 1 only,
    so a pair that sums to less than 1 passes. *)
Theorem is_valid_probability_accepts :
  forall (pu pd pm : R),
    (FinanceAppUI.is_valid_probability pu pd pm = true ->
     0 <= pu < 1 + 1 / 100000
     /\ 0 <= pd < 1 + 1 / 100000
     /\ 0 <= pm < 1 + 1 / 100000
     /\ (pm <> 0 -> 1 - 1 / 100000 < pu + pd + pm < 1 + 1 / 100000))
    /\ (0 <= pu -> 0 <= pd -> pu + pd <= 1 ->
        FinanceAppUI.is_valid_probability pu pd 0 = true).
Proof.
  intros pu pd pm. unfold FinanceAppUI.is_valid_probability. split.
  - destruct (Rlt_dec pu 0); [discriminate |].
    destruct (Rlt_dec pd 0); [discriminate |].
    destruct (Rlt_dec pm 0); [discriminate |].
    destruct (Req_dec_T pm 0) as [-> | Hpm].
    + destruct (Rle_dec (pu + pd + 0) 1); [| discriminate].
      intros _. repeat split; lra.
    + destruct (Rlt_dec (Rabs (pu + pd + pm - 1)) (1 / 100000)) as [Habs |];
        [| discriminate].
      intros _. apply Rabs_def2 in Habs. repeat split; lra.
  - intros Hpu Hpd Hsum.
    destruct (Rlt_dec pu 0); [lra |].
    destruct (Rlt_dec pd 0); [lra |].
    destruct (Rlt_dec 0 0); [lra |].
    destruct (Req_dec_T 0 0); [| lra].
    destruct (Rle_dec (pu + pd + 0) 1); [reflexivity | lra].
Qed.

Lemma is_valid_probability_accepts_witness :
  FinanceAppUI.is_valid_probability (3 / 10) (3 / 10) 0 = true.
Proof.
  destruct (is_valid_probability_accepts (3 / 10) (3 / 10) 0) as [_ H].
  apply H; lra.
Defined.
